(** * PTDetailing: the host-independent core

    A shallow embedding of the computational pieces of the repository
    and of the properties stated about them:

    - [lib/ptd_parser/parser.py]      the line-oriented export parser,
    - [lib/utils/geometry.py]         the 2-D geometry kernel,
    - [lib/revit_backend/grouping.py] the tolerance-based grouping,
    - [lib/revit_backend/alignment.py] the rigid-transform search and
      its public wrapper,
    - [lib/revit_backend/importer.py] the transform applied to the
      imported tendons,
    - [lib/revit_backend/snapper.py]  the snapping of tendon ends.

    Number model.  A Python [float] is an IEEE-754 binary64 number
    ([spec_float] with precision 53 and maximal exponent 1024).  The
    parser, which converts decimal literals and truncates products to
    integers, is embedded over binary64; so are [convex_hull] and
    [pt_in_convex] where their property depends on how the turn test
    rounds ([Geometry64]).  The geometry kernel, the grouping, the
    alignment, the import transform and the snapping are also embedded
    over the real numbers, reading every [float] operation as the
    exact one: the properties stated of that embedding are those
    that do not depend on how an operation rounds, and the convex hull
    over the reals is what the binary64 hull is compared with. *)

From Stdlib Require Import ZArith List Bool Ascii String Lia.
From Stdlib Require Import Floats.SpecFloat.
From Stdlib Require Import Reals Lra Lia Permutation Sorted.
From Stdlib Require Import Psatz.
From Equations Require Import Equations.
Import ListNotations.

(* ================================================================= *)
(** ** Python strings: sequences of code points *)

(** A [str] is a list of code points below 256; text outside that
    range is not represented. *)
Module PyStr.

Definition str := list ascii.

Definition L (s : string) : str := list_ascii_of_string s.

Definition code (c : ascii) : N := N_of_ascii c.

(** [str.isspace] on one code point; also the class [\s] of [re]. *)
Definition isspace (c : ascii) : bool :=
  let n := code c in
  (N.leb 9 n && N.leb n 13) || (N.leb 28 n && N.leb n 32)
  || N.eqb n 133 || N.eqb n 160.

(** The class [\d]. *)
Definition isdigit (c : ascii) : bool :=
  let n := code c in N.leb 48 n && N.leb n 57.

Definition digit_val (c : ascii) : Z := Z.of_N (code c) - 48.

(** [str.lower] on one code point (only A-Z change below 256, apart
    from the accented capitals, which no pattern of the parser names). *)
Definition lower_char (c : ascii) : ascii :=
  let n := code c in
  if N.leb 65 n && N.leb n 90 then ascii_of_N (n + 32) else c.

Definition lower (s : str) : str := map lower_char s.

Definition char_eqb (a b : ascii) : bool := Ascii.eqb a b.

Fixpoint lstrip (s : str) : str :=
  match s with
  | c :: s' => if isspace c then lstrip s' else s
  | [] => []
  end.

Definition rstrip (s : str) : str := rev (lstrip (rev s)).

(** [s.strip()] *)
Definition strip (s : str) : str := rstrip (lstrip s).

Fixpoint str_eqb (a b : str) : bool :=
  match a, b with
  | [], [] => true
  | x :: a', y :: b' => char_eqb x y && str_eqb a' b'
  | _, _ => false
  end.

Fixpoint startswith (p s : str) : bool :=
  match p, s with
  | [], _ => true
  | x :: p', y :: s' => char_eqb x y && startswith p' s'
  | _ :: _, [] => false
  end.

(** [p in s] *)
Fixpoint contains (p s : str) : bool :=
  startswith p s ||
  match s with
  | [] => false
  | _ :: s' => contains p s'
  end.

(** [s.split(sep)] for a one-character separator. *)
Fixpoint split_on (sep : ascii) (s : str) : list str :=
  match s with
  | [] => [[]]
  | c :: s' =>
      if char_eqb c sep then [] :: split_on sep s'
      else match split_on sep s' with
           | w :: ws => (c :: w) :: ws
           | [] => [[c]]
           end
  end.

(** Lines of a text stream opened in text mode: a line ends at LF, at
    CR or at CR LF (universal newlines).  The terminators are left out,
    the caller strips every line anyway; a final line without a
    terminator is produced when it is not empty. *)
Fixpoint lines_from (cur : str) (s : str) : list str :=
  match s with
  | [] => match cur with [] => [] | _ => [rev cur] end
  | c :: s' =>
      if N.eqb (code c) 10 then rev cur :: lines_from [] s'
      else if N.eqb (code c) 13 then
        match s' with
        | c' :: s'' =>
            if N.eqb (code c') 10 then rev cur :: lines_from [] s''
            else rev cur :: lines_from [] s'
        | [] => [rev cur]
        end
      else lines_from (c :: cur) s'
  end.

Definition readlines (s : str) : list str := lines_from [] s.

End PyStr.

(* ================================================================= *)
(** ** The fragment of [re] the parser uses *)

(** Patterns are built from literals (optionally compared without
    case), greedy repetitions of a character class, sequence,
    alternation and capture groups.  Matching is the backtracking
    search of [re]: the first match in priority order is returned. *)
Module Regex.
Import PyStr.

Inductive regex : Type :=
| RLit (s : str) (ignorecase : bool)
| RStar (cls : ascii -> bool)
| RPlus (cls : ascii -> bool)
| RSeq (r1 r2 : regex)
| RAlt (r1 r2 : regex)
| RGroup (r : regex).

Definition lit_char_eqb (ic : bool) (p c : ascii) : bool :=
  if ic then char_eqb (lower_char p) (lower_char c) else char_eqb p c.

Fixpoint match_lit (ic : bool) (p s : str) : option str :=
  match p, s with
  | [], _ => Some s
  | x :: p', y :: s' => if lit_char_eqb ic x y then match_lit ic p' s' else None
  | _ :: _, [] => None
  end.

Section Backtrack.
Context {A : Type}.

(** Greedy [cls*] followed by the continuation [k]: the longest run
    first, then shorter ones. *)
Fixpoint star_k (cls : ascii -> bool) (s : str) (k : str -> option A)
  : option A :=
  match s with
  | c :: s' =>
      if cls c then
        match star_k cls s' k with
        | Some r => Some r
        | None => k s
        end
      else k s
  | [] => k s
  end.

Definition plus_k (cls : ascii -> bool) (s : str) (k : str -> option A)
  : option A :=
  match s with
  | c :: s' => if cls c then star_k cls s' k else None
  | [] => None
  end.

(** [caps] are the groups closed so far, in order. *)
Fixpoint rmatch (r : regex) (s : str) (caps : list str)
         (k : str -> list str -> option A) : option A :=
  match r with
  | RLit p ic =>
      match match_lit ic p s with
      | Some s' => k s' caps
      | None => None
      end
  | RStar cls => star_k cls s (fun s' => k s' caps)
  | RPlus cls => plus_k cls s (fun s' => k s' caps)
  | RSeq r1 r2 => rmatch r1 s caps (fun s' caps' => rmatch r2 s' caps' k)
  | RAlt r1 r2 =>
      match rmatch r1 s caps k with
      | Some x => Some x
      | None => rmatch r2 s caps k
      end
  | RGroup r1 =>
      rmatch r1 s caps
        (fun s' caps' =>
           k s' (caps' ++ [firstn (List.length s - List.length s') s]))
  end.
End Backtrack.

(** [pattern.match(line)]: anchored at the start, the rest of the line
    is free.  The result is the list of groups. *)
Definition re_match (r : regex) (s : str) : option (list str) :=
  rmatch r s [] (fun _ caps => Some caps).

(** [pattern.search(line)] as a truth value. *)
Fixpoint re_search (r : regex) (s : str) : bool :=
  match re_match r s with
  | Some _ => true
  | None => match s with
            | [] => false
            | _ :: s' => re_search r s'
            end
  end.

Definition group (n : nat) (caps : list str) : str := nth (n - 1) caps [].

Fixpoint seq (rs : list regex) : regex :=
  match rs with
  | [] => RLit [] false
  | [r] => r
  | r :: rs' => RSeq r (seq rs')
  end.

Definition ws : regex := RStar isspace.
Definition digits : regex := RPlus isdigit.
Definition digit_or_dot (c : ascii) : bool := isdigit c || char_eqb c "."%char.
Definition not_rparen (c : ascii) : bool := negb (char_eqb c ")"%char).
Definition any_char (c : ascii) : bool := negb (N.eqb (code c) 10).

End Regex.

(* ================================================================= *)
(** ** Errors *)

Inductive error : Type :=
| ValueError
| OverflowError
| PTDParsingError.

Inductive result (A : Type) : Type :=
| Ok (a : A)
| Err (e : error).
Arguments Ok {A} a.
Arguments Err {A} e.

Definition bind {A B : Type} (m : result A) (f : A -> result B) : result B :=
  match m with
  | Ok a => f a
  | Err e => Err e
  end.

Declare Scope result_scope.
Delimit Scope result_scope with result.
Notation "x <- m ;; k" := (bind m (fun x => k))
  (at level 61, m at next level, right associativity) : result_scope.
Notation "' p <- m ;; k" := (bind m (fun x => match x with p => k end))
  (at level 61, p pattern, m at next level, right associativity) : result_scope.

(* ================================================================= *)
(** ** Python floats: binary64 *)

Module PyFloat.
Import PyStr.
Local Open Scope Z_scope.

Definition prec : Z := 53.
Definition emax : Z := 1024.

Definition float := spec_float.

Definition of_Z (z : Z) : float := binary_normalize prec emax z 0 false.
Definition fmul (x y : float) : float := SFmul prec emax x y.

(** The digits of [s] as a number, most significant first. *)
Definition digits_val (s : str) : Z :=
  fold_left (fun acc c => 10 * acc + digit_val c) s 0.

(** [sign * m * 10^e], correctly rounded (to nearest, ties to even). *)
Definition of_decimal (sign : bool) (m : Z) (e : Z) : float :=
  match m with
  | Zpos p =>
      if 0 <=? e
      then binary_normalize prec emax (if sign then - (m * 10 ^ e) else m * 10 ^ e) 0 false
      else SFdiv prec emax (S754_finite sign p 0)
                           (S754_finite false (Z.to_pos (10 ^ (- e))) 0)
  | _ => S754_zero sign
  end.

(** Underscores may only stand between two digits; they are dropped. *)
Fixpoint drop_underscores (prev_digit : bool) (s : str) : option str :=
  match s with
  | [] => Some []
  | c :: s' =>
      if char_eqb c "_"%char then
        match s' with
        | d :: _ =>
            if prev_digit && isdigit d then drop_underscores false s' else None
        | [] => None
        end
      else option_map (cons c) (drop_underscores (isdigit c) s')
  end.

Fixpoint span (p : ascii -> bool) (s : str) : str * str :=
  match s with
  | c :: s' => if p c then let '(a, b) := span p s' in (c :: a, b) else ([], s)
  | [] => ([], [])
  end.

Definition take_sign (s : str) : bool * str :=
  match s with
  | c :: s' =>
      if char_eqb c "-"%char then (true, s')
      else if char_eqb c "+"%char then (false, s')
      else (false, s)
  | [] => (false, [])
  end.

(** The optional exponent part; [None] when what follows the mantissa
    is not an exponent reaching the end of the string. *)
Definition parse_exponent (s : str) : option Z :=
  match s with
  | [] => Some 0
  | c :: s' =>
      if char_eqb (lower_char c) "e"%char then
        let '(neg, s'') := take_sign s' in
        let '(ds, rest) := span isdigit s'' in
        match ds, rest with
        | _ :: _, [] => Some (if neg then - digits_val ds else digits_val ds)
        | _, _ => None
        end
      else None
  end.

(** [float(s)] for a string; [None] stands for the [ValueError]. *)
Definition parse_float (s : str) : option float :=
  match drop_underscores false (strip s) with
  | None => None
  | Some s0 =>
      let '(neg, s1) := take_sign s0 in
      let low := lower s1 in
      if str_eqb low (L "inf") || str_eqb low (L "infinity")
      then Some (S754_infinity neg)
      else if str_eqb low (L "nan") then Some S754_nan
      else
        let '(ip, r1) := span isdigit s1 in
        let '(fp, r2) :=
          match r1 with
          | c :: r1' => if char_eqb c "."%char then span isdigit r1' else ([], r1)
          | [] => ([], [])
          end in
        match ip ++ fp with
        | [] => None
        | _ =>
            match parse_exponent r2 with
            | None => None
            | Some e =>
                Some (of_decimal neg (digits_val (ip ++ fp))
                                 (e - Z.of_nat (List.length fp)))
            end
        end
  end.

Definition py_float (s : str) : result float :=
  match parse_float s with
  | Some f => Ok f
  | None => Err ValueError
  end.

(** [int(x)] for a float: truncation towards zero. *)
Definition int_of_float (x : float) : result Z :=
  match x with
  | S754_zero _ => Ok 0
  | S754_finite s m e =>
      let v := if 0 <=? e then Zpos m * 2 ^ e else Z.quot (Zpos m) (2 ^ (- e)) in
      Ok (if s then - v else v)
  | S754_infinity _ => Err OverflowError
  | S754_nan => Err ValueError
  end.

(** [int(s)] for a string of decimal digits, as the patterns capture
    them with [\d+]: it cannot raise there. *)
Definition int_of_digits (s : str) : Z := digits_val s.

End PyFloat.

(* ================================================================= *)
(** ** The export parser ([lib/ptd_parser]) *)

Module PtdParser.
Import PyStr Regex PyFloat.
Local Open Scope Z_scope.
Local Open Scope result_scope.

(** *** Models ([_models_py3.py]) *)

Record TendonPoint : Type := mkTendonPoint {
  distance_mm : float;
  height_mm : Z
}.

(** The integer literals [0] the parser passes for the float fields
    are read as the float zero. *)
Record TendonData : Type := mkTendonData {
  id : Z;
  length_mm : float;
  start_xy_mm : float * float;
  end_xy_mm : float * float;
  tendon_type : Z;
  strand_type : float;
  strand_count : Z;
  start_type : Z;
  end_type : Z;
  points : list TendonPoint
}.

Definition fzero : float := S754_zero false.

(** [TendonData(id=.., length_mm=0, ..)] with the dataclass defaults
    [start_type = 1], [end_type = 3] and an empty [points]. *)
Definition new_tendon (tendon_id : Z) : TendonData :=
  {| id := tendon_id;
     length_mm := fzero;
     start_xy_mm := (fzero, fzero);
     end_xy_mm := (fzero, fzero);
     tendon_type := 0;
     strand_type := fzero;
     strand_count := 0;
     start_type := 1;
     end_type := 3;
     points := [] |}.

Definition set_length_mm (t : TendonData) (v : float) : TendonData :=
  {| id := id t; length_mm := v; start_xy_mm := start_xy_mm t;
     end_xy_mm := end_xy_mm t; tendon_type := tendon_type t;
     strand_type := strand_type t; strand_count := strand_count t;
     start_type := start_type t; end_type := end_type t; points := points t |}.

Definition set_coords (t : TendonData) (s e : float * float) : TendonData :=
  {| id := id t; length_mm := length_mm t; start_xy_mm := s;
     end_xy_mm := e; tendon_type := tendon_type t;
     strand_type := strand_type t; strand_count := strand_count t;
     start_type := start_type t; end_type := end_type t; points := points t |}.

Definition set_tendon_type (t : TendonData) (v : Z) : TendonData :=
  {| id := id t; length_mm := length_mm t; start_xy_mm := start_xy_mm t;
     end_xy_mm := end_xy_mm t; tendon_type := v;
     strand_type := strand_type t; strand_count := strand_count t;
     start_type := start_type t; end_type := end_type t; points := points t |}.

Definition set_strand_type (t : TendonData) (v : float) : TendonData :=
  {| id := id t; length_mm := length_mm t; start_xy_mm := start_xy_mm t;
     end_xy_mm := end_xy_mm t; tendon_type := tendon_type t;
     strand_type := v; strand_count := strand_count t;
     start_type := start_type t; end_type := end_type t; points := points t |}.

Definition set_strand_count (t : TendonData) (v : Z) : TendonData :=
  {| id := id t; length_mm := length_mm t; start_xy_mm := start_xy_mm t;
     end_xy_mm := end_xy_mm t; tendon_type := tendon_type t;
     strand_type := strand_type t; strand_count := v;
     start_type := start_type t; end_type := end_type t; points := points t |}.

Definition set_start_type (t : TendonData) (v : Z) : TendonData :=
  {| id := id t; length_mm := length_mm t; start_xy_mm := start_xy_mm t;
     end_xy_mm := end_xy_mm t; tendon_type := tendon_type t;
     strand_type := strand_type t; strand_count := strand_count t;
     start_type := v; end_type := end_type t; points := points t |}.

Definition set_end_type (t : TendonData) (v : Z) : TendonData :=
  {| id := id t; length_mm := length_mm t; start_xy_mm := start_xy_mm t;
     end_xy_mm := end_xy_mm t; tendon_type := tendon_type t;
     strand_type := strand_type t; strand_count := strand_count t;
     start_type := start_type t; end_type := v; points := points t |}.

(** [TendonData.add_point] *)
Definition add_point (t : TendonData) (p : TendonPoint) : TendonData :=
  {| id := id t; length_mm := length_mm t; start_xy_mm := start_xy_mm t;
     end_xy_mm := end_xy_mm t; tendon_type := tendon_type t;
     strand_type := strand_type t; strand_count := strand_count t;
     start_type := start_type t; end_type := end_type t;
     points := points t ++ [p] |}.

(** [TendonSet]: the list of tendons in source order. *)
Definition TendonSet := list TendonData.

(** *** Patterns ([parser.py], lines 39-51) *)

Definition live_or_dead : regex :=
  RGroup (RAlt (RLit (L "Live End") true) (RLit (L "Dead End") true)).

Definition _HEADER_TENDON_NO : regex :=
  seq [RLit (L "Tendon No.") false; ws; RGroup digits].
Definition _HEADER_LENGTH : regex :=
  seq [RLit (L "Length") false; ws; RLit (L ":") false; ws;
       RGroup (seq [digits; RLit (L ".") false; digits]); RLit (L "m") false].
Definition _HEADER_COORDS : regex :=
  seq [RLit (L "End Point co-orinates") true; RStar any_char;
       RLit (L "start:") true; ws; RLit (L "(") true;
       RGroup (RPlus not_rparen); RLit (L ")") true; ws;
       RLit (L "end:") true; ws; RLit (L "(") true;
       RGroup (RPlus not_rparen); RLit (L ")") true].
Definition _HEADER_TENDON_TYPE : regex :=
  seq [RLit (L "Type") false; ws; RLit (L ":") false; ws; RGroup digits].
Definition _HEADER_STRAND_TYPE : regex :=
  seq [RLit (L "Type of strands") false; ws; RLit (L ":") false; ws;
       RGroup (RPlus digit_or_dot)].
Definition _HEADER_STRAND_NO : regex :=
  seq [RLit (L "Number of strands") false; ws; RLit (L ":") false; ws;
       RGroup digits].
Definition _HEADER_START : regex :=
  seq [RLit (L "Start") true; ws; RLit (L ":") true; ws; live_or_dead].
Definition _HEADER_END : regex :=
  seq [RLit (L "End") true; ws; RLit (L ":") true; ws; live_or_dead].
Definition _TABLE_ROW : regex :=
  seq [RGroup digits; RLit (L ",") false; ws;
       RGroup (RPlus digit_or_dot); RLit (L ",") false; ws;
       RGroup (RPlus digit_or_dot); RLit (L ",") false; ws;
       RGroup (RPlus digit_or_dot)].
Definition _TABLE_START : regex := RLit (L "No.,") true.

Definition MM_PER_M : float := of_Z 1000.

(** [_float_mm] *)
Definition _float_mm (val : str) : result float :=
  x <- py_float val ;; Ok (fmul x MM_PER_M).

(** [_coord_pair]: the unpacking needs exactly two parts. *)
Definition _coord_pair (raw : str) : result (float * float) :=
  match map strip (split_on ","%char raw) with
  | [x_str; y_str] =>
      x <- py_float x_str ;;
      y <- py_float y_str ;;
      Ok (fmul x MM_PER_M, fmul y MM_PER_M)
  | _ => Err ValueError
  end.

(** The value an end marker writes: a live end is [1], or [3] on a
    tendon of type 2; a dead end is [2]. *)
Definition end_marker_value (t : TendonData) (cap : str) : Z :=
  let is_live := contains (L "live") (lower cap) in
  if is_live then (if tendon_type t =? 2 then 3 else 1) else 2.

(** *** The line loop ([parse_ptd_file], lines 75-170) *)

Record pstate : Type := mkPState {
  tendons : list TendonData;
  tendon : option TendonData;
  in_table : bool
}.

Definition init_state : pstate :=
  {| tendons := []; tendon := None; in_table := false |}.

Definition with_tendon (st : pstate) (t : TendonData) : pstate :=
  {| tendons := tendons st; tendon := Some t; in_table := in_table st |}.

Definition with_in_table (st : pstate) (b : bool) : pstate :=
  {| tendons := tendons st; tendon := tendon st; in_table := b |}.

(** The part of the loop body below the header test, on the open
    record [t] and the stripped line. *)
Definition field_line (st : pstate) (t : TendonData) (line : str)
  : result pstate :=
  match re_match _HEADER_LENGTH line with
  | Some m => v <- _float_mm (group 1 m) ;; Ok (with_tendon st (set_length_mm t v))
  | None =>
  match re_match _HEADER_COORDS line with
  | Some m =>
      s <- _coord_pair (group 1 m) ;;
      e <- _coord_pair (group 2 m) ;;
      Ok (with_tendon st (set_coords t s e))
  | None =>
  match re_match _HEADER_TENDON_TYPE line with
  | Some m => Ok (with_tendon st (set_tendon_type t (int_of_digits (group 1 m))))
  | None =>
  match re_match _HEADER_STRAND_TYPE line with
  | Some m => v <- py_float (group 1 m) ;; Ok (with_tendon st (set_strand_type t v))
  | None =>
  match re_match _HEADER_STRAND_NO line with
  | Some m => Ok (with_tendon st (set_strand_count t (int_of_digits (group 1 m))))
  | None =>
  match re_match _HEADER_START line with
  | Some m => Ok (with_tendon st (set_start_type t (end_marker_value t (group 1 m))))
  | None =>
  match re_match _HEADER_END line with
  | Some m => Ok (with_tendon st (set_end_type t (end_marker_value t (group 1 m))))
  | None =>
  if re_search _TABLE_START line then Ok (with_in_table st true)
  else if in_table st then
    match re_match _TABLE_ROW line with
    | Some m =>
        d <- _float_mm (group 2 m) ;;
        h <- py_float (group 4 m) ;;
        hi <- int_of_float (fmul h MM_PER_M) ;;
        Ok (with_tendon st (add_point t {| distance_mm := d; height_mm := hi |}))
    | None => Ok (with_in_table st false)
    end
  else Ok st
  end end end end end end end.

(** One iteration of [for line in fh]. *)
Definition step (st : pstate) (raw : str) : result pstate :=
  let line := strip raw in
  match line with
  | [] => Ok st
  | _ =>
      match re_match _HEADER_TENDON_NO line with
      | Some m =>
          Ok {| tendons := match tendon st with
                           | Some t => tendons st ++ [t]
                           | None => tendons st
                           end;
                tendon := Some (new_tendon (int_of_digits (group 1 m)));
                in_table := false |}
      | None =>
          match tendon st with
          | None => Ok st
          | Some t => field_line st t line
          end
      end
  end.

Fixpoint run (st : pstate) (lines : list str) : result pstate :=
  match lines with
  | [] => Ok st
  | l :: ls => st' <- step st l ;; run st' ls
  end.

(** After the loop: the open record, if any, is appended. *)
Definition finish (st : pstate) : TendonSet :=
  match tendon st with
  | Some t => tendons st ++ [t]
  | None => tendons st
  end.

Definition parse_lines (lines : list str) : result TendonSet :=
  st <- run init_state lines ;; Ok (finish st).

(** The parser on the content of the file. *)
Definition parse_text (text : str) : result TendonSet :=
  parse_lines (readlines text).

(** [parse_ptd_file]: [None] is a path that does not exist. *)
Definition parse_ptd_file (file : option str) : result TendonSet :=
  match file with
  | None => Err PTDParsingError
  | Some text => parse_text text
  end.

End PtdParser.

(* ================================================================= *)
(** ** Inputs and notions the parser properties speak about *)

Module ParserInputs.
Import PyStr Regex PyFloat PtdParser.
Local Open Scope Z_scope.

Definition nl : str := [ascii_of_N 10].

(** The nine-line example block of the module docstring. *)
Definition example_text : str :=
  L "Tendon No. 1" ++ nl ++
  L "Length :  12.345m" ++ nl ++
  L "End Point co-orinates, start: ( 100.0, 200.0 ) end: ( 300.0, 200.0 )" ++ nl ++
  L "Type    : 1" ++ nl ++
  L "Type of strands : 12.7" ++ nl ++
  L "Number of strands : 3" ++ nl ++
  L "No.,    L:5mm,    H:5mm,    Rs,    Rh" ++ nl ++
  L "1,      0.000,    0.000,    0.000,  0.000" ++ nl ++
  L "2,      3.500,    0.025,    0.000,  0.000" ++ nl.

(** The float nearest to 12.7. *)
Definition f12_7 : float := of_decimal false 127 (-1).

(** The record the example block is said to give, with [h2] the height
    of its second profile point. *)
Definition example_record (h2 : Z) : TendonData :=
  {| id := 1;
     length_mm := of_Z 12345;
     start_xy_mm := (of_Z 100000, of_Z 200000);
     end_xy_mm := (of_Z 300000, of_Z 200000);
     tendon_type := 1;
     strand_type := f12_7;
     strand_count := 3;
     start_type := 1;
     end_type := 3;
     points := [ {| distance_mm := of_Z 0; height_mm := 0 |};
                 {| distance_mm := of_Z 3500; height_mm := h2 |} ] |}.

(** The id a line announces when it is a record header. *)
Definition header_id (raw : str) : option Z :=
  match re_match _HEADER_TENDON_NO (strip raw) with
  | Some m => Some (int_of_digits (group 1 m))
  | None => None
  end.

Fixpoint header_ids (lines : list str) : list Z :=
  match lines with
  | [] => []
  | l :: ls =>
      match header_id l with
      | Some i => i :: header_ids ls
      | None => header_ids ls
      end
  end.

Definition is_none {A : Type} (o : option A) : bool :=
  match o with Some _ => false | None => true end.

(** A line that is none of the recognised field lines and holds no
    table-start marker. *)
Definition unrecognised (line : str) : bool :=
  is_none (re_match _HEADER_TENDON_NO line)
  && is_none (re_match _HEADER_LENGTH line)
  && is_none (re_match _HEADER_COORDS line)
  && is_none (re_match _HEADER_TENDON_TYPE line)
  && is_none (re_match _HEADER_STRAND_TYPE line)
  && is_none (re_match _HEADER_STRAND_NO line)
  && is_none (re_match _HEADER_START line)
  && is_none (re_match _HEADER_END line)
  && negb (re_search _TABLE_START line).

(** A line of the profile table. *)
Definition is_row (line : str) : bool :=
  negb (is_none (re_match _TABLE_ROW line)).

(** A line that carries an end marker. *)
Definition is_end_marker (raw : str) : bool :=
  negb (is_none (re_match _HEADER_START (strip raw)))
  || negb (is_none (re_match _HEADER_END (strip raw))).

(** A table whose second row comes after a blank line. *)
Definition blank_in_table_text : str :=
  L "Tendon No. 7" ++ nl ++
  L "No.,    L:5mm,    H:5mm,    Rs,    Rh" ++ nl ++
  L "1,      0.000,    0.000,    0.040,  0.000" ++ nl ++
  nl ++
  L "2,      3.500,    0.025,    0.060,  0.000" ++ nl.

(** A record whose strand type is not a number. *)
Definition bad_number_text : str :=
  L "Tendon No. 1" ++ nl ++
  L "Type of strands : 1.2.3" ++ nl.

(** A bare record, and the same with an explicit dead end. *)
Definition bare_text : str := L "Tendon No. 1" ++ nl.
Definition dead_end_text : str :=
  L "Tendon No. 1" ++ nl ++ L "End : Dead End" ++ nl.

(** A parse that stands in the table of record 7, and the same out of
    the table. *)
Definition in_table_state : pstate :=
  {| tendons := []; tendon := Some (new_tendon 7); in_table := true |}.
Definition out_of_table_state : pstate :=
  {| tendons := []; tendon := Some (new_tendon 7); in_table := false |}.

(** The end kinds a freshly opened record has. *)
Definition default_kinds (t : TendonData) : Prop :=
  start_type t = 1 /\ end_type t = 3.

End ParserInputs.

(* ================================================================= *)
(** ** The geometry kernel ([lib/utils/geometry.py]) *)

(** Comparisons of the code, as truth values on the reals. *)
Module RCmp.
Local Open Scope R_scope.

Definition Rltb (x y : R) : bool := if Rlt_dec x y then true else false.
Definition Rleb (x y : R) : bool := if Rle_dec x y then true else false.
Definition Reqb (x y : R) : bool := if Req_dec_T x y then true else false.

(** [max(x, y)] of two arguments: the first unless the second is
    greater. *)
Definition py_max (x y : R) : R := if Rltb x y then y else x.

(** [min(...)] over a sequence with first element [x]: the first of
    the least elements. *)
Definition py_min (x : R) (xs : list R) : R :=
  fold_left (fun m v => if Rltb v m then v else m) xs x.

(** [max(...)] over a sequence with first element [x]. *)
Definition py_max_seq (x : R) (xs : list R) : R :=
  fold_left (fun m v => if Rltb m v then v else m) xs x.

End RCmp.

Module Geometry.
Import RCmp.
Local Open Scope R_scope.

Definition point : Type := R * R.

(** [_cross(o, a, b)] *)
Definition _cross (o a b : point) : R :=
  (fst a - fst o) * (snd b - snd o) - (snd a - snd o) * (fst b - fst o).

(** Tuple comparison: first coordinate, then second. *)
Definition pt_ltb (p q : point) : bool :=
  Rltb (fst p) (fst q) || (Reqb (fst p) (fst q) && Rltb (snd p) (snd q)).
Definition pt_eqb (p q : point) : bool :=
  Reqb (fst p) (fst q) && Reqb (snd p) (snd q).

(** [sorted(set(points))]: the distinct points in increasing order. *)
Fixpoint insert_pt (p : point) (l : list point) : list point :=
  match l with
  | [] => [p]
  | q :: l' =>
      if pt_ltb p q then p :: l
      else if pt_eqb p q then l
      else q :: insert_pt p l'
  end.

Definition sorted_set (points : list point) : list point :=
  fold_right insert_pt [] points.

(** The [while] loop of a chain: the stack is kept with its top (the
    Python list's last element) at the head. *)
Fixpoint pop_while (p : point) (stack : list point) : list point :=
  match stack with
  | b :: rest =>
      match rest with
      | a :: _ => if Rleb (_cross a b p) 0 then pop_while p rest else stack
      | [] => stack
      end
  | [] => stack
  end.

Definition push_point (stack : list point) (p : point) : list point :=
  p :: pop_while p stack.

(** One chain over the points in the given order; top at the head. *)
Definition build_chain (pts : list point) : list point :=
  fold_left push_point pts [].

(** [convex_hull(points)]; [lower[:-1]] is the chain without its top. *)
Definition convex_hull (points : list point) : list point :=
  let pts := sorted_set points in
  if (List.length pts <=? 1)%nat then pts
  else
    let lower := build_chain pts in
    let upper := build_chain (rev pts) in
    rev (tl lower) ++ rev (tl upper).

Definition Rsum (l : list R) : R := fold_left Rplus l 0.

(** [centroid(points)] *)
Definition centroid (points : list point) : point :=
  match points with
  | [] => (0, 0)
  | _ =>
      let sx := Rsum (map fst points) in
      let sy := Rsum (map snd points) in
      let n := INR (List.length points) in
      (sx / n, sy / n)
  end.

(** [_point_distance(pa, pb)] *)
Definition _point_distance (pa pb : point) : R :=
  let dx := fst pa - fst pb in
  let dy := snd pa - snd pb in
  sqrt (dx * dx + dy * dy).

(** [min(_point_distance(pa, pb) for pb in b)] for a non-empty [b]. *)
Definition min_distance (pa : point) (b : list point) : R :=
  match b with
  | [] => 0
  | pb :: b' => py_min (_point_distance pa pb) (map (_point_distance pa) b')
  end.

(** The loop of [_directed_hausdorff] over [a], from the value [m] of
    [max_min]. *)
Definition dh_loop (b : list point) (a : list point) (m : R) : R :=
  fold_left
    (fun max_min pa =>
       let min_d := min_distance pa b in
       if Rltb max_min min_d then min_d else max_min)
    a m.

(** [_directed_hausdorff(a, b)] *)
Definition _directed_hausdorff (a b : list point) : R :=
  match a, b with
  | [], _ => 0
  | _, [] => 0
  | _, _ => dh_loop b a 0
  end.

(** [hausdorff_distance(a, b)] *)
Definition hausdorff_distance (a b : list point) : R :=
  py_max (_directed_hausdorff a b) (_directed_hausdorff b a).

(** [translate(points, dx, dy)], the generator read as a list. *)
Definition translate (points : list point) (dx dy : R) : list point :=
  map (fun p => (fst p + dx, snd p + dy)) points.

(** [rotate(points, angle_rad, origin)] *)
Definition rotate (points : list point) (angle_rad : R) (origin : point)
  : list point :=
  let ox := fst origin in
  let oy := snd origin in
  let cos_a := cos angle_rad in
  let sin_a := sin angle_rad in
  map (fun p =>
         let tx := fst p - ox in
         let ty := snd p - oy in
         let rx := tx * cos_a - ty * sin_a in
         let ry := tx * sin_a + ty * cos_a in
         (rx + ox, ry + oy)) points.

(** [poly_bounds(points)] as [(min_x, max_x, min_y, max_y)]. *)
Definition poly_bounds (points : list point) : R * R * R * R :=
  match points with
  | [] => (0, 0, 0, 0)
  | p :: ps =>
      (py_min (fst p) (map fst ps), py_max_seq (fst p) (map fst ps),
       py_min (snd p) (map snd ps), py_max_seq (snd p) (map snd ps))
  end.

(** The edges [(hull[i], hull[(i + 1) % n])], in order. *)
Definition hull_edges (hull : list point) : list (point * point) :=
  match hull with
  | [] => []
  | p :: ps => combine hull (ps ++ [p])
  end.

(** The tolerance [1e-9]. *)
Definition edge_eps : R := / 1000000000.

(** The loop of [pt_in_convex] with its [sign] variable. *)
Fixpoint in_convex_loop (pt : point) (edges : list (point * point))
         (sign : option bool) : bool :=
  match edges with
  | [] => true
  | (p1, p2) :: edges' =>
      let cross := (fst pt - fst p1) * (snd p2 - snd p1)
                   - (snd pt - snd p1) * (fst p2 - fst p1) in
      if Rltb (Rabs cross) edge_eps then in_convex_loop pt edges' sign
      else
        let s := Rltb 0 cross in
        match sign with
        | None => in_convex_loop pt edges' (Some s)
        | Some sg => if Bool.eqb sg s then in_convex_loop pt edges' sign else false
        end
  end.

(** [pt_in_convex(pt, hull)] *)
Definition pt_in_convex (pt : point) (hull : list point) : bool :=
  if (List.length hull <? 3)%nat then false
  else in_convex_loop pt (hull_edges hull) None.

(** [directed_hausdorff_outside(a, hull)] *)
Definition directed_hausdorff_outside (a hull : list point) : R :=
  match a, hull with
  | [], _ => 0
  | _, [] => 0
  | _, _ =>
      let outside_pts := filter (fun p => negb (pt_in_convex p hull)) a in
      match outside_pts with
      | [] => 0
      | _ => _directed_hausdorff outside_pts hull
      end
  end.

End Geometry.

Module GeometryInputs.
Import Geometry.
Local Open Scope R_scope.

(** A triangle in counter-clockwise order and a point inside it. *)
Definition triangle : list point := [(0, 0); (4, 0); (0, 4)].
Definition inner_point : point := (1, 1).

End GeometryInputs.

(* ================================================================= *)
(** ** Notions the convex hull properties speak about *)

Module HullNotions.
Import RCmp Geometry.
Local Open Scope R_scope.

(** The order of tuples. *)
Definition lexlt (p q : point) : Prop :=
  fst p < fst q \/ (fst p = fst q /\ snd p < snd q).

Definition lexle (p q : point) : Prop := lexlt p q \/ p = q.

(** The pairs of neighbours of a list, in order. *)
Fixpoint adjacent (l : list point) : list (point * point) :=
  match l with
  | a :: l' =>
      match l' with
      | b :: _ => (a, b) :: adjacent l'
      | [] => []
      end
  | [] => []
  end.

(** The edges of a chain kept as a stack (top at the head): the edge
    from the older vertex to the newer one. *)
Fixpoint chain_edges (stack : list point) : list (point * point) :=
  match stack with
  | b :: rest =>
      match rest with
      | a :: _ => (a, b) :: chain_edges rest
      | [] => []
      end
  | [] => []
  end.

(** Every three consecutive vertices of a chain turn strictly left. *)
Fixpoint left_turns (stack : list point) : Prop :=
  match stack with
  | c :: rest =>
      match rest with
      | b :: a :: _ => 0 < _cross a b c /\ left_turns rest
      | _ => True
      end
  | [] => True
  end.

(** [p] is on or to the left of every directed edge of the polygon:
    inside it or on its boundary when the polygon is convex and
    counter-clockwise. *)
Definition inside_or_on (hull : list point) (p : point) : Prop :=
  forall u v, In (u, v) (hull_edges hull) -> 0 <= _cross u v p.

(** The signed area of a polygon (shoelace formula). *)
Definition edge_det (e : point * point) : R :=
  fst (fst e) * snd (snd e) - fst (snd e) * snd (fst e).

Definition signed_area (hull : list point) : R :=
  Rsum (map edge_det (hull_edges hull)) / 2.

Definition collinear (p q r : point) : Prop := _cross p q r = 0.

(** The reflection through the origin; it turns the pass over the
    reversed points into a pass over increasing points. *)
Definition reflect (p : point) : point := (- fst p, - snd p).

(** A stack whose vertices decrease from the top. *)
Definition decreasing (stack : list point) : Prop :=
  StronglySorted (fun x y => lexlt y x) stack.

(** What a chain is with respect to the points [Q] passed so far: its
    vertices are points of [Q] in decreasing order from the top, it
    turns left everywhere, every point of [Q] is on or left of each of
    its edges, and it runs from the least point of [Q] (bottom) to the
    greatest (top). *)
Definition chain_inv (stack Q : list point) : Prop :=
  decreasing stack /\
  incl stack Q /\
  left_turns stack /\
  (forall q a b, In q Q -> In (a, b) (chain_edges stack) -> 0 <= _cross a b q) /\
  (forall q, In q Q ->
     stack <> [] /\
     lexle (last stack q) q /\
     forall top, hd_error stack = Some top -> lexle q top).

(** What both chains of a hull are: made of input points, turning
    left, with every input point on or left of each edge. *)
Definition good_chain (chain pts : list point) : Prop :=
  incl chain pts /\ left_turns chain /\
  forall q a b, In q pts -> In (a, b) (chain_edges chain) -> 0 <= _cross a b q.

(** The part of [_cross u v q] that telescopes along a polygon. *)
Definition swing (q w : point) : R := fst w * snd q - snd w * fst q.

Definition edge_cross (q : point) (e : point * point) : R :=
  _cross (fst e) (snd e) q.

(** The corners of a square, with its centre. *)
Definition square_points : list point := [(2, 2); (0, 0); (1, 1); (2, 0); (0, 2)].

End HullNotions.

(* ================================================================= *)
(** ** The grouping engine ([lib/revit_backend/grouping.py]) *)

(** The host's vector type, as far as the grouping uses it. *)
Module Revit.
Local Open Scope R_scope.

Record XYZ : Type := mkXYZ { X : R; Y : R; Z : R }.

Definition sub (a b : XYZ) : XYZ :=
  mkXYZ (X a - X b) (Y a - Y b) (Z a - Z b).

Definition DotProduct (a b : XYZ) : R :=
  X a * X b + Y a * Y b + Z a * Z b.

End Revit.

Module Grouping.
Import RCmp.
Local Open Scope R_scope.

Definition XYZ : Type := Revit.XYZ.

(** The duck-typed surface of a tendon: [start], [end], [length]
    ([None] when the attribute is unset) and [tendon_points], pairs of
    a distance and an integer height. *)
Record Tendon : Type := mkTendon {
  ID : BinNums.Z;
  start : XYZ;
  end_ : XYZ;
  length : option R;
  tendon_points : list (R * BinNums.Z)
}.

Record tolerances : Type := mkTol {
  angle_tol : R;
  length_tol : R;
  dist_tol : R;
  height_tol : R;
  spacing_tol : R;
  shift_tol : R
}.

(** The defaults of [group_tendons]. *)
Definition default_tolerances : tolerances :=
  {| angle_tol := 5; length_tol := 5 / 10; dist_tol := 5 / 10;
     height_tol := 5; spacing_tol := 5; shift_tol := 2 |}.

(** [(vec.X ** 2 + vec.Y ** 2 + vec.Z ** 2) ** 0.5] *)
Definition magnitude (vec : XYZ) : R :=
  sqrt (Revit.X vec ^ 2 + Revit.Y vec ^ 2 + Revit.Z vec ^ 2).

(** [_direction(vec)] *)
Definition _direction (vec : XYZ) : XYZ :=
  let mag := magnitude vec in
  if Reqb mag 0 then vec
  else Revit.mkXYZ (Revit.X vec / mag) (Revit.Y vec / mag) (Revit.Z vec / mag).

(** [math.degrees] *)
Definition degrees (x : R) : R := x * (180 / PI).

(** [_angle_between(v1, v2)] *)
Definition _angle_between (v1 v2 : XYZ) : R :=
  let v1n := _direction v1 in
  let v2n := _direction v2 in
  let dot := py_max (-1) (py_min 1 [Revit.DotProduct v1n v2n]) in
  degrees (acos dot).

(** [_profiles_match(p1, p2, dist_tol, height_tol)] *)
Fixpoint profile_pairs_match (p1 p2 : list (R * BinNums.Z))
         (dist_tol height_tol : R) : bool :=
  match p1, p2 with
  | (d1, h1) :: p1', (d2, h2) :: p2' =>
      if Rltb dist_tol (Rabs (d1 - d2)) then false
      else if Rltb height_tol (Rabs (IZR h1 - IZR h2)) then false
      else profile_pairs_match p1' p2' dist_tol height_tol
  | _, _ => true
  end.

Definition _profiles_match (p1 p2 : list (R * BinNums.Z))
           (dist_tol height_tol : R) : bool :=
  if Nat.eqb (List.length p1) (List.length p2)
  then profile_pairs_match p1 p2 dist_tol height_tol
  else false.

(** The length the loop works with: the [length] attribute, or the
    magnitude of [start - end] when it is unset or zero. *)
Definition effective_length (t : Tendon) : R :=
  match length t with
  | Some l => if Reqb l 0 then magnitude (Revit.sub (start t) (end_ t)) else l
  | None => magnitude (Revit.sub (start t) (end_ t))
  end.

(** The quantity compared with [spacing_tol]. *)
Definition plan_offset (base other : Tendon) : R :=
  let base_dir := Revit.sub (start base) (end_ base) in
  let diff_start := Revit.sub (start other) (start base) in
  Rabs (Revit.X diff_start * Revit.Y base_dir - Revit.Y diff_start * Revit.X base_dir)
  / effective_length base.

(** The quantity compared with [shift_tol]. *)
Definition plan_shift (base other : Tendon) : R :=
  let base_dir := Revit.sub (start base) (end_ base) in
  let diff_start := Revit.sub (start other) (start base) in
  Rabs (Revit.X diff_start * Revit.X base_dir + Revit.Y diff_start * Revit.Y base_dir)
  / effective_length base.

(** The body of the inner [for] loop: does [other] join the group of
    [base]? *)
Definition same_group (tol : tolerances) (base other : Tendon) : bool :=
  let base_dir := Revit.sub (start base) (end_ base) in
  let base_len := effective_length base in
  let ang := _angle_between base_dir (Revit.sub (start other) (end_ other)) in
  let ang := if Rltb 90 ang then 180 - ang else ang in
  if Rltb (angle_tol tol) ang then false
  else if Rltb (spacing_tol tol) (plan_offset base other) then false
  else if Rltb (shift_tol tol) (plan_shift base other) then false
  else if Rltb (length_tol tol) (Rabs (base_len - effective_length other)) then false
  else _profiles_match (tendon_points base) (tendon_points other)
                       (dist_tol tol) (height_tol tol).

(** The [while ungrouped] loop.  The inner loop moves the tendons that
    pass [same_group] from [ungrouped] to the group, both in order. *)
Equations? group_loop (tol : tolerances) (ungrouped : list Tendon)
  : list (list Tendon) by wf (List.length ungrouped) lt :=
  group_loop tol [] := [];
  group_loop tol (base :: rest) :=
    if Reqb (effective_length base) 0 then group_loop tol rest
    else (base :: filter (same_group tol base) rest)
         :: group_loop tol (filter (fun o => negb (same_group tol base o)) rest).
Proof.
  all: simpl;
    try pose proof (filter_length_le (fun o => negb (same_group tol base o)) rest);
    lia.
Qed.

(** [group_tendons(tendons, ...)] *)
Definition group_tendons (tendons : list Tendon) (tol : tolerances)
  : list (list Tendon) :=
  group_loop tol tendons.

End Grouping.

Module GroupingInputs.
Import Grouping.
Local Open Scope R_scope.

Definition origin : Revit.XYZ := Revit.mkXYZ 0 0 0.

(** A tendon of stored length zero whose end points coincide. *)
Definition degenerate_tendon : Tendon :=
  {| ID := 1%Z; start := origin; end_ := origin; length := Some 0;
     tendon_points := [] |}.

(** A tendon two units long in plan whose stored length is one. *)
Definition short_stored_tendon : Tendon :=
  {| ID := 2%Z; start := origin; end_ := Revit.mkXYZ 2 0 0; length := Some 1;
     tendon_points := [] |}.

(** A tendon that starts one unit beside the axis of the former. *)
Definition beside_tendon : Tendon :=
  {| ID := 3%Z; start := Revit.mkXYZ 0 1 0; end_ := Revit.mkXYZ 2 1 0;
     length := Some 2; tendon_points := [] |}.

(** A tendon whose stored length is its length in plan. *)
Definition plain_tendon : Tendon :=
  {| ID := 4%Z; start := origin; end_ := Revit.mkXYZ 2 0 0; length := Some 2;
     tendon_points := [] |}.

(** *** Plane geometry of an axis *)

(** The axis of a tendon in plan: from [start] to [end]. *)
Definition axis_dx (t : Tendon) : R := Revit.X (end_ t) - Revit.X (start t).
Definition axis_dy (t : Tendon) : R := Revit.Y (end_ t) - Revit.Y (start t).
Definition plan_length (t : Tendon) : R := sqrt (axis_dx t ^ 2 + axis_dy t ^ 2).

(** The point of the axis line at parameter [s] (0 at [start], 1 at
    [end]). *)
Definition axis_point (t : Tendon) (s : R) : R * R :=
  (Revit.X (start t) + s * axis_dx t, Revit.Y (start t) + s * axis_dy t).

(** The parameter of the orthogonal projection of [p] on the axis
    line. *)
Definition foot_parameter (t : Tendon) (p : R * R) : R :=
  ((fst p - Revit.X (start t)) * axis_dx t + (snd p - Revit.Y (start t)) * axis_dy t)
  / (axis_dx t ^ 2 + axis_dy t ^ 2).

Definition plan_point (v : Revit.XYZ) : R * R := (Revit.X v, Revit.Y v).

(** Point-to-line distance: from [p] to its projection on the axis. *)
Definition perpendicular_distance (t : Tendon) (p : R * R) : R :=
  Geometry._point_distance p (axis_point t (foot_parameter t p)).

(** The length of the projection of [p - start] on the axis: from
    [start] to the projection of [p]. *)
Definition longitudinal_projection (t : Tendon) (p : R * R) : R :=
  Geometry._point_distance (plan_point (start t)) (axis_point t (foot_parameter t p)).

End GroupingInputs.

(* ================================================================= *)
(** ** The alignment engine ([lib/revit_backend/alignment.py]) *)

Module Alignment.
Import RCmp Geometry.
Local Open Scope R_scope.

(** [_dhd] is [directed_hausdorff_outside]. *)
Definition _dhd := directed_hausdorff_outside.

(** [math.radians] *)
Definition radians (deg : R) : R := deg * (PI / 180).

(** A candidate [(err, dx, dy)] and the best so far
    [(err, angle_rad, dx, dy)]. *)
Definition local_fit : Type := R * R * R.
Definition fit : Type := R * R * R * R.

Definition fit_err (b : fit) : R := fst (fst (fst b)).
Definition local_err (b : local_fit) : R := fst (fst b).

(** [if err < best_local[0]: best_local = (err, dx, dy)] *)
Definition improve (best_local : local_fit) (err dx dy : R) : local_fit :=
  if Rltb err (local_err best_local) then (err, dx, dy) else best_local.

(** Strategy C: every slab vertex against every rotated tendon vertex.
    The state is [best_local] with the loop variables [dx] and [dy],
    which strategies D and E read after the loops. *)
Definition vertex_scan (slab_hull rot_pts : list point)
           (st : local_fit * R * R) : local_fit * R * R :=
  fold_left
    (fun st1 s =>
       fold_left
         (fun st2 t =>
            let best_local := fst (fst st2) in
            let dx := fst s - fst t in
            let dy := snd s - snd t in
            let err := _dhd (translate rot_pts dx dy) slab_hull in
            (improve best_local err dx dy, dx, dy))
         rot_pts st1)
    slab_hull st.

(** The closure [_evaluate(angle_rad)], with the cell [best] threaded
    through. *)
Definition _evaluate (slab_hull tendon_hull : list point) (tend_cent : point)
           (angle_rad : R) (best : option fit) : option fit :=
  let rot_pts := rotate tendon_hull angle_rad tend_cent in
  (* Strategy A *)
  let floor_cent := centroid slab_hull in
  let dx := fst floor_cent - fst tend_cent in
  let dy := snd floor_cent - snd tend_cent in
  let err := _dhd (translate rot_pts dx dy) slab_hull in
  let best_local : local_fit := (err, dx, dy) in
  (* Strategy B *)
  let '(t_min_x, _, t_min_y, _) := poly_bounds rot_pts in
  let '(s_min_x, _, s_min_y, _) := poly_bounds slab_hull in
  let dx := s_min_x - t_min_x in
  let dy := s_min_y - t_min_y in
  let err := _dhd (translate rot_pts dx dy) slab_hull in
  let best_local := improve best_local err dx dy in
  (* Strategy C *)
  let '(best_local, dx, dy) := vertex_scan slab_hull rot_pts (best_local, dx, dy) in
  (* Strategy D *)
  let dx_cx := fst (centroid slab_hull) - fst tend_cent in
  let err_cx := _dhd (translate rot_pts dx_cx dy) slab_hull in
  let best_local := improve best_local err_cx dx_cx dy in
  (* Strategy E *)
  let dx_left := s_min_x - t_min_x in
  let err_left := _dhd (translate rot_pts dx_left dy) slab_hull in
  let best_local := improve best_local err_left dx_left dy in
  let '(err, dx, dy) := best_local in
  match best with
  | None => Some (err, angle_rad, dx, dy)
  | Some b => if Rltb err (fit_err b) then Some (err, angle_rad, dx, dy) else best
  end.

(** [while angle < 2 * math.pi: _evaluate(angle); angle += step_rad].
    [None] when the fuel runs out before the loop ends. *)
Fixpoint sweep (fuel : nat) (eval : R -> option fit -> option fit)
         (step_rad angle : R) (best : option fit) : option (option fit) :=
  match fuel with
  | O => None
  | S fuel' =>
      if Rltb angle (2 * PI)
      then sweep fuel' eval step_rad (angle + step_rad) (eval angle best)
      else Some best
  end.

(** The four angles of the refinement, in order. *)
Definition refine_angles (base_ang refine_rad : R) : list R :=
  [base_ang - refine_rad; base_ang + refine_rad;
   base_ang - refine_rad / 2; base_ang + refine_rad / 2].

(** The tolerance [1e-6] of the snap. *)
Definition snap_eps : R := / 1000000.

(** The post-process: snap the left edges when that does not worsen
    the error by more than [tolerance_ft]. *)
Definition snap (slab_hull tendon_hull : list point) (tend_cent : point)
           (tolerance_ft : R) (b : fit) : fit :=
  let '(err, angle_rad, dx, dy) := b in
  let cos_a := cos angle_rad in
  let sin_a := sin angle_rad in
  let ox := fst tend_cent in
  let oy := snd tend_cent in
  let trans_tendon :=
    map (fun p =>
           let tx := fst p - ox in
           let ty := snd p - oy in
           (tx * cos_a - ty * sin_a + ox + dx, tx * sin_a + ty * cos_a + oy + dy))
        tendon_hull in
  let '(t_min_x, _, _, _) := poly_bounds trans_tendon in
  let '(s_min_x, _, _, _) := poly_bounds slab_hull in
  let snap_dx := s_min_x - t_min_x in
  if Rltb snap_eps (Rabs snap_dx) then
    let snap_err := _dhd (translate trans_tendon snap_dx 0) slab_hull in
    if Rleb snap_err (err + tolerance_ft)
    then (snap_err, angle_rad, dx + snap_dx, dy)
    else b
  else b.

Record config : Type := mkConfig {
  angle_step_deg : R;
  refine_step_deg : R;
  max_error_ft : R;
  tolerance_ft : R;
  allow_rotation : bool
}.

(** The keyword defaults of [find_best_transform]. *)
Definition default_config : config :=
  {| angle_step_deg := 15; refine_step_deg := 5; max_error_ft := 3;
     tolerance_ft := 1; allow_rotation := true |}.

(** The result of the function: [None] or [(angle_rad, dx, dy, err)]. *)
Definition transform : Type := R * R * R * R.

(** The search up to and including the snap: the best fit the final
    decision looks at.  The outer [option] is the fuel of the sweep;
    the inner one is [None] where the function returns [None] before
    the final decision. *)
Definition best_after_snap (fuel : nat) (slab_hull : option (list point))
           (tendon_pts : list point) (cfg : config) : option (option fit) :=
  match slab_hull with
  | None => Some None
  | Some [] => Some None
  | Some slab =>
      let tendon_hull := convex_hull tendon_pts in
      match tendon_hull with
      | [] => Some None
      | _ =>
          let tend_cent := centroid tendon_hull in
          let eval := _evaluate slab tendon_hull tend_cent in
          let swept :=
            if allow_rotation cfg
            then sweep fuel eval (radians (angle_step_deg cfg)) 0 None
            else Some (eval 0 None) in
          match swept with
          | None => None
          | Some None => Some None
          | Some (Some best0) =>
              let best :=
                if allow_rotation cfg
                then
                  let refine_rad := radians (refine_step_deg cfg) in
                  let base_ang := snd (fst (fst best0)) in
                  fold_left (fun b a => eval a b)
                            (refine_angles base_ang refine_rad) (Some best0)
                else Some best0 in
              match best with
              | None => Some None
              | Some b => Some (Some (snap slab tendon_hull tend_cent (tolerance_ft cfg) b))
              end
          end
      end
  end.

(** The final decision. *)
Definition decide (max_error : R) (b : fit) : option transform :=
  let '(err, angle_rad, dx, dy) := b in
  if Rltb max_error err then None else Some (angle_rad, dx, dy, err).

(** [find_best_transform]; the slab hull is what
    [_collect_combined_floor_hull] returned. *)
Definition find_best_transform (fuel : nat) (slab_hull : option (list point))
           (tendon_pts : list point) (cfg : config)
  : option (option transform) :=
  match best_after_snap fuel slab_hull tendon_pts cfg with
  | None => None
  | Some None => Some None
  | Some (Some b) => Some (decide (max_error_ft cfg) b)
  end.

Definition reported_error (t : transform) : R := snd t.

End Alignment.

(* ================================================================= *)
(** ** Notions for further properties of the geometry kernel *)

Module GeometryNotions.
Import RCmp Geometry.
Local Open Scope R_scope.

(** What [rotate] does to one point. *)
Definition rotate_point (angle_rad : R) (origin p : point) : point :=
  ((fst p - fst origin) * cos angle_rad - (snd p - snd origin) * sin angle_rad
   + fst origin,
   (fst p - fst origin) * sin angle_rad + (snd p - snd origin) * cos angle_rad
   + snd origin).

(** Two sequences with the same points. *)
Definition same_points (a b : list point) : Prop :=
  forall p, In p a <-> In p b.

End GeometryNotions.

(* ================================================================= *)
(** ** Notions for further properties of the grouping engine *)

Module GroupingNotions.
Import RCmp Grouping GroupingInputs.
Local Open Scope R_scope.

(** The clamping [max(-1.0, min(1.0, d))] of [_angle_between]. *)
Definition clamp (d : R) : R := py_max (-1) (py_min 1 [d]).

(** A tendon whose end points coincide, with a stored length. *)
Definition point_tendon : Tendon :=
  {| ID := 5%Z; start := origin; end_ := origin; length := Some 1;
     tendon_points := [] |}.

(** Two profile points within the tolerances of each other. *)
Definition points_close (dist_tol height_tol : R) (a b : R * BinNums.Z) : Prop :=
  Rabs (fst a - fst b) <= dist_tol /\
  Rabs (IZR (snd a) - IZR (snd b)) <= height_tol.

End GroupingNotions.

(* ================================================================= *)
(** ** The public wrapper of the alignment
       ([lib/revit_backend/alignment.py]) *)

Module AlignmentWrapper.
Import RCmp Geometry Alignment.
Local Open Scope R_scope.

(** A bounding box of the host: its [Min] and [Max] corners. *)
Definition bbox : Type := Revit.XYZ * Revit.XYZ.

(** [_pick_translation]; [picked] is the point the user picked, [None]
    when the pick was cancelled or failed. *)
Definition _pick_translation (picked : option Revit.XYZ) (tendon_pts : list point)
  : option (R * R) :=
  match picked with
  | None => None
  | Some pk =>
      let '(min_x, _, min_y, _) := poly_bounds tendon_pts in
      Some (Revit.X pk - min_x, Revit.Y pk - min_y)
  end.

(** [_simple_fit]; the slab hull is what
    [_collect_combined_floor_hull] returned. *)
Definition _simple_fit (slab_hull : option (list point)) (tendon_pts : list point)
           (max_error_ft tolerance_ft : R) : option transform :=
  match slab_hull with
  | None => None
  | Some [] => None
  | Some slab =>
      let tendon_hull := convex_hull tendon_pts in
      match tendon_hull with
      | [] => None
      | _ =>
          (* Step 1 *)
          let tend_cent := centroid tendon_hull in
          let slab_cent := centroid slab in
          let dx_c := fst slab_cent - fst tend_cent in
          let dy_c := snd slab_cent - snd tend_cent in
          let err_c := _dhd (translate tendon_hull dx_c dy_c) slab in
          if Rleb err_c (max_error_ft + tolerance_ft)
          then Some (0, dx_c, dy_c, err_c)
          else
            (* Step 2 *)
            let '(t_min_x, _, t_min_y, _) := poly_bounds tendon_hull in
            let '(s_min_x, _, s_min_y, _) := poly_bounds slab in
            let dx_bl := s_min_x - t_min_x in
            let dy_bl := s_min_y - t_min_y in
            let err_bl := _dhd (translate tendon_hull dx_bl dy_bl) slab in
            if Rleb err_bl (max_error_ft + tolerance_ft)
            then Some (0, dx_bl, dy_bl, err_bl)
            else None
      end
  end.

(** The fallback of [get_alignment_transform]: the user's pick. *)
Definition pick_fallback (picked : option Revit.XYZ) (tendon_pts : list point)
  : option (R * R * R) :=
  match _pick_translation picked tendon_pts with
  | None => None
  | Some (dx, dy) => Some (0, dx, dy)
  end.

(** [get_alignment_transform]: [None] or [(angle_rad, dx, dy)]; the
    outer [option] is the fuel of the sweep.  [_simple_fit] and
    [find_best_transform] each collect the slab hull themselves (the
    latter after replacing a missing view by the active one):
    [simple_hull] and [search_hull] are what the two calls get, the
    same hull when the view is given. *)
Definition get_alignment_transform (fuel : nat)
           (simple_hull search_hull : option (list point))
           (picked : option Revit.XYZ) (tendon_pts : list point) (cfg : config)
  : option (option (R * R * R)) :=
  let search :=
    match find_best_transform fuel search_hull tendon_pts cfg with
    | None => None
    | Some (Some (angle_rad, dx, dy, err)) =>
        if Rleb err (max_error_ft cfg + tolerance_ft cfg)
        then Some (Some (angle_rad, dx, dy))
        else Some (pick_fallback picked tendon_pts)
    | Some None => Some (pick_fallback picked tendon_pts)
    end in
  match _simple_fit simple_hull tendon_pts (max_error_ft cfg) (tolerance_ft cfg) with
  | Some (angle_s, dx_s, dy_s, err_s) =>
      if Rleb err_s (max_error_ft cfg + tolerance_ft cfg)
      then Some (Some (angle_s, dx_s, dy_s))
      else search
  | None => search
  end.

(** The error of the centroid alignment without rotation: step 1 of
    [_simple_fit], strategy A of the search at angle 0. *)
Definition centroid_shift_error (slab tendon_hull : list point) : R :=
  let tend_cent := centroid tendon_hull in
  let slab_cent := centroid slab in
  _dhd (translate tendon_hull (fst slab_cent - fst tend_cent)
                  (snd slab_cent - snd tend_cent)) slab.

End AlignmentWrapper.

Module AlignmentInputs.
Import Geometry.
Local Open Scope R_scope.

(** A slab in the upper right half of a square, as its hull, and a
    tendon along the left side of that square. *)
Definition corner_slab : list point := [(0, 90); (90, 0); (90, 90)].
Definition edge_tendon : list point := [(0, 0); (0, 90)].

End AlignmentInputs.

(* ================================================================= *)
(** ** The transform of the import ([lib/revit_backend/importer.py]) *)

Module Importer.
Import RCmp Grouping.
Local Open Scope R_scope.

(** The closure [_rot(x, y)]. *)
Definition _rot (angle_rad dx dy : R) (origin : R * R) (x y : R) : R * R :=
  let ox := fst origin in
  let oy := snd origin in
  let cos_a := cos angle_rad in
  let sin_a := sin angle_rad in
  let tx := x - ox in
  let ty := y - oy in
  let rx := tx * cos_a - ty * sin_a + ox in
  let ry := tx * sin_a + ty * cos_a + oy in
  (rx + dx, ry + dy).

(** [_apply_transform] *)
Definition _apply_transform (tendon_set : list Tendon) (angle_rad dx dy : R)
           (origin : R * R) : list Tendon :=
  if Reqb angle_rad 0 && (Reqb dx 0 && Reqb dy 0) then tendon_set
  else
    map (fun tendon =>
           let '(rsx, rsy) :=
             _rot angle_rad dx dy origin (Revit.X (start tendon)) (Revit.Y (start tendon)) in
           let '(rex, rey) :=
             _rot angle_rad dx dy origin (Revit.X (end_ tendon)) (Revit.Y (end_ tendon)) in
           {| ID := ID tendon;
              start := Revit.mkXYZ rsx rsy (Revit.Z (start tendon));
              end_ := Revit.mkXYZ rex rey (Revit.Z (end_ tendon));
              length := length tendon;
              tendon_points := tendon_points tendon |})
        tendon_set.

(** The points the import passes to the alignment: both ends of every
    tendon, in plan. *)
Definition plan_points (tendon_set : list Tendon) : list (R * R) :=
  flat_map (fun t => [(Revit.X (start t), Revit.Y (start t));
                      (Revit.X (end_ t), Revit.Y (end_ t))]) tendon_set.

End Importer.

(* ================================================================= *)
(** ** Snapping to the slab extents ([lib/revit_backend/snapper.py]) *)

Module Snapper.
Import RCmp Grouping AlignmentWrapper.
Local Open Scope R_scope.

(** The body of the loop of [_floor_extents] on one floor, whose box
    is [None] when the host gives none. *)
Definition extents_step (acc : option (R * R * R * R)) (f : option bbox)
  : option (R * R * R * R) :=
  match f with
  | None => acc
  | Some (mins, maxs) =>
      match acc with
      | None =>
          Some (Revit.X mins, Revit.X maxs, Revit.Y mins, Revit.Y maxs)
      | Some (minX, maxX, minY, maxY) =>
          Some (py_min minX [Revit.X mins], py_max maxX (Revit.X maxs),
                py_min minY [Revit.Y mins], py_max maxY (Revit.Y maxs))
      end
  end.

(** [_floor_extents] as [(minX, maxX, minY, maxY)]; [None] for the
    tuple of [None]s of a view without floor boxes. *)
Definition _floor_extents (floors : list (option bbox)) : option (R * R * R * R) :=
  fold_left extents_step floors None.

(** [_snap_point] *)
Definition _snap_point (pt : option XYZ) (minX maxX minY maxY tol : R)
  : option XYZ :=
  match pt with
  | None => None
  | Some p =>
      let x := Revit.X p in
      let y := Revit.Y p in
      let dx_left := Rabs (x - minX) in
      let dx_right := Rabs (x - maxX) in
      let dy_bottom := Rabs (y - minY) in
      let dy_top := Rabs (y - maxY) in
      let min_d := py_min dx_left [dx_right; dy_bottom; dy_top] in
      if Rltb tol min_d then Some p
      else if Reqb min_d dx_left then Some (Revit.mkXYZ minX y (Revit.Z p))
      else if Reqb min_d dx_right then Some (Revit.mkXYZ maxX y (Revit.Z p))
      else if Reqb min_d dy_bottom then Some (Revit.mkXYZ x minY (Revit.Z p))
      else Some (Revit.mkXYZ x maxY (Revit.Z p))
  end.

(** An end of a tendon of the model is always set: the snapped end,
    read back. *)
Definition snapped (p : XYZ) (minX maxX minY maxY tol : R) : XYZ :=
  match _snap_point (Some p) minX maxX minY maxY tol with
  | Some q => q
  | None => p
  end.

(** [snap_tendon_ends]; the tendons are changed in place, the result
    is the set after the call. *)
Definition snap_tendon_ends (floors : list (option bbox)) (tendon_set : list Tendon)
           (tol_ft : R) : list Tendon :=
  match _floor_extents floors with
  | None => tendon_set
  | Some (minX, maxX, minY, maxY) =>
      map (fun tendon =>
             {| ID := ID tendon;
                start := snapped (start tendon) minX maxX minY maxY tol_ft;
                end_ := snapped (end_ tendon) minX maxX minY maxY tol_ft;
                length := length tendon;
                tendon_points := tendon_points tendon |})
          tendon_set
  end.

End Snapper.

(* ================================================================= *)
(** ** Notions for the properties of the import transform *)

Module ImporterNotions.
Import RCmp Grouping Importer.
Local Open Scope R_scope.

(** What the loop of [_apply_transform] does to one tendon. *)
Definition moved (angle_rad dx dy : R) (origin : R * R) (tendon : Tendon) : Tendon :=
  let '(rsx, rsy) :=
    _rot angle_rad dx dy origin (Revit.X (start tendon)) (Revit.Y (start tendon)) in
  let '(rex, rey) :=
    _rot angle_rad dx dy origin (Revit.X (end_ tendon)) (Revit.Y (end_ tendon)) in
  {| ID := ID tendon;
     start := Revit.mkXYZ rsx rsy (Revit.Z (start tendon));
     end_ := Revit.mkXYZ rex rey (Revit.Z (end_ tendon));
     length := length tendon;
     tendon_points := tendon_points tendon |}.

End ImporterNotions.

(* ================================================================= *)
(** ** Notions for the properties of the snapping *)

Module SnapperInputs.
Import RCmp Grouping AlignmentWrapper Snapper.
Local Open Scope R_scope.

(** The data of a tendon that snapping leaves alone. *)
Definition tendon_data (t : Tendon) : BinNums.Z * option R * list (R * BinNums.Z) * R * R :=
  (ID t, length t, tendon_points t, Revit.Z (start t), Revit.Z (end_ t)).

End SnapperInputs.

(* ================================================================= *)
(** ** Notions for further properties of the parser *)

Module ParserNotions.
Import PyStr Regex PyFloat PtdParser.
Local Open Scope Z_scope.

(** A string of white space only. *)
Definition all_space (s : str) : bool := forallb isspace s.

(** [l'] is [l] with white space before and after it. *)
Definition padded (l l' : str) : Prop :=
  exists pre post,
    all_space pre = true /\ all_space post = true /\ l' = pre ++ l ++ post.

(** A parse with more closed records in front. *)
Definition prefixed (pre : list TendonData) (st : pstate) : pstate :=
  {| tendons := pre ++ tendons st; tendon := tendon st; in_table := in_table st |}.

(** The three end kinds: 1, 2 and 3. *)
Definition known_kind (k : Z) : Prop := k = 1 \/ k = 2 \/ k = 3.

Definition known_kinds (t : TendonData) : Prop :=
  known_kind (start_type t) /\ known_kind (end_type t).

End ParserNotions.

(* ================================================================= *)
(** ** The convex hull on binary64 coordinates *)

(** [convex_hull] and [pt_in_convex] as the interpreter runs them on
    [float] coordinates: every subtraction and every product rounds to
    nearest, and the comparisons are those of binary64.  Coordinates
    are taken to be numbers (no NaN): then [==] and [<] on tuples are
    an equivalence and a total order of its classes, and
    [sorted(set(points))] is the sequence of the distinct points in
    increasing order, the first of equal points being the one kept. *)
Module Geometry64.
Import PyFloat.

Definition point : Type := float * float.

Definition fsub (x y : float) : float := SFsub prec emax x y.

(** [0.0] *)
Definition fzero : float := S754_zero false.

(** [_cross(o, a, b)] *)
Definition _cross (o a b : point) : float :=
  fsub (fmul (fsub (fst a) (fst o)) (fsub (snd b) (snd o)))
       (fmul (fsub (snd a) (snd o)) (fsub (fst b) (fst o))).

(** Tuple comparison: the first coordinates that differ decide. *)
Definition pt_eqb (p q : point) : bool :=
  SFeqb (fst p) (fst q) && SFeqb (snd p) (snd q).

Definition pt_ltb (p q : point) : bool :=
  if SFeqb (fst p) (fst q) then
    if SFeqb (snd p) (snd q) then false else SFltb (snd p) (snd q)
  else SFltb (fst p) (fst q).

(** One more point for the sorted sequence of distinct points; a point
    equal to one that is there already is left out. *)
Fixpoint insert_pt (p : point) (l : list point) : list point :=
  match l with
  | [] => [p]
  | q :: l' =>
      if pt_ltb p q then p :: l
      else if pt_eqb p q then l
      else q :: insert_pt p l'
  end.

(** [sorted(set(points))] *)
Definition sorted_set (points : list point) : list point :=
  fold_left (fun acc p => insert_pt p acc) points [].

(** The [while] loop of a chain: the stack is kept with its top (the
    Python list's last element) at the head. *)
Fixpoint pop_while (p : point) (stack : list point) : list point :=
  match stack with
  | b :: rest =>
      match rest with
      | a :: _ => if SFleb (_cross a b p) fzero then pop_while p rest else stack
      | [] => stack
      end
  | [] => stack
  end.

Definition push_point (stack : list point) (p : point) : list point :=
  p :: pop_while p stack.

Definition build_chain (pts : list point) : list point :=
  fold_left push_point pts [].

(** [convex_hull(points)]; [lower[:-1]] is the chain without its top. *)
Definition convex_hull (points : list point) : list point :=
  let pts := sorted_set points in
  if (List.length pts <=? 1)%nat then pts
  else
    let lower := build_chain pts in
    let upper := build_chain (rev pts) in
    rev (tl lower) ++ rev (tl upper).

(** The edges [(hull[i], hull[(i + 1) % n])], in order. *)
Definition hull_edges (hull : list point) : list (point * point) :=
  match hull with
  | [] => []
  | p :: ps => combine hull (ps ++ [p])
  end.

(** The literal [1e-9]. *)
Definition edge_eps : float := of_decimal false 1 (-9).

(** The loop of [pt_in_convex] with its [sign] variable. *)
Fixpoint in_convex_loop (pt : point) (edges : list (point * point))
         (sign : option bool) : bool :=
  match edges with
  | [] => true
  | (p1, p2) :: edges' =>
      let cross := fsub (fmul (fsub (fst pt) (fst p1)) (fsub (snd p2) (snd p1)))
                        (fmul (fsub (snd pt) (snd p1)) (fsub (fst p2) (fst p1))) in
      if SFltb (SFabs cross) edge_eps then in_convex_loop pt edges' sign
      else
        let s := SFltb fzero cross in
        match sign with
        | None => in_convex_loop pt edges' (Some s)
        | Some sg => if Bool.eqb sg s then in_convex_loop pt edges' sign else false
        end
  end.

(** [pt_in_convex(pt, hull)] *)
Definition pt_in_convex (pt : point) (hull : list point) : bool :=
  if (List.length hull <? 3)%nat then false
  else in_convex_loop pt (hull_edges hull) None.

End Geometry64.

(* ================================================================= *)
(** ** The numbers binary64 coordinates stand for *)

Module Exact64.
Import PyFloat RCmp.

(** A number: a zero or a finite float within the format. *)
Definition finite64 (x : float) : bool :=
  match x with
  | S754_zero _ => true
  | S754_finite _ m e => SpecFloat.bounded prec emax m e
  | _ => false
  end.

Definition finite_point (p : Geometry64.point) : bool :=
  finite64 (fst p) && finite64 (snd p).

(** Every finite binary64 number [(-1)^s * m * 2^e] has [-1074 <= e],
    so it is a whole multiple of [2^-1074]: [scaled x] is that
    multiple. *)
Definition scaled (x : float) : Z :=
  match x with
  | S754_finite s m e => (cond_Zopp s (Zpos m) * 2 ^ (e + 1074))%Z
  | _ => 0%Z
  end.

Definition scale : Z := (2 ^ 1074)%Z.

(** The real number a finite float stands for. *)
Definition to_real (x : float) : R := (IZR (scaled x) / IZR scale)%R.

Definition to_point (p : Geometry64.point) : Geometry.point :=
  (to_real (fst p), to_real (snd p)).

(** The turn test [_cross(o, a, b) <= 0] on three points gives what
    exact arithmetic gives on the numbers they stand for. *)
Definition exact_turn (o a b : Geometry64.point) : Prop :=
  SFleb (Geometry64._cross o a b) Geometry64.fzero
  = Rleb (Geometry._cross (to_point o) (to_point a) (to_point b)) 0.

(** No rounding error changes the outcome of a turn test between
    three of the points. *)
Definition exact_turns (points : list Geometry64.point) : Prop :=
  forall o a b, In o points -> In a points -> In b points -> exact_turn o a b.

(** [x] is the whole number [n]. *)
Definition whole_number (x : float) (n : Z) : Prop :=
  finite64 x = true /\ to_real x = IZR n.

(** A point whose coordinates are whole numbers below [2^25] in
    magnitude. *)
Definition small_whole_point (p : Geometry64.point) : Prop :=
  exists n1 n2 : Z,
    whole_number (fst p) n1 /\ whole_number (snd p) n2 /\
    (Z.abs n1 < 2 ^ 25)%Z /\ (Z.abs n2 < 2 ^ 25)%Z.

(** The turn tests, decided on the multiples of [2^-1074]. *)
Definition scaled_point (p : Geometry64.point) : Z * Z :=
  (scaled (fst p), scaled (snd p)).

Definition crossZ (o a b : Z * Z) : Z :=
  ((fst a - fst o) * (snd b - snd o) - (snd a - snd o) * (fst b - fst o))%Z.

End Exact64.

(* ================================================================= *)
(** ** Inside a hull, degenerate hulls included *)

Module Hull64Notions.
Import PyFloat RCmp Geometry HullNotions.
Local Open Scope R_scope.

(** [p] is on the closed segment from [u] to [v]. *)
Definition on_segment (u v p : point) : Prop :=
  exists t, 0 <= t <= 1 /\
            fst p = fst u + t * (fst v - fst u) /\
            snd p = snd u + t * (snd v - snd u).

(** [p] is inside the hull or on its boundary: the hull of no vertex
    contains nothing, the hull of one vertex is that point, the hull of
    two vertices is the segment between them, and a hull of three
    vertices or more, convex and counter-clockwise, is what lies on or
    to the left of each of its edges. *)
Definition within_hull (hull : list point) (p : point) : Prop :=
  match hull with
  | [] => False
  | [v] => p = v
  | [u; v] => on_segment u v p
  | _ => inside_or_on hull p
  end.

(** A float from a whole number and from a decimal with one digit
    after the point, as the literals [5600.0] and [1787.4] are read. *)
Definition whole (n : Z) : float := of_decimal false n 0.
Definition tenths (n : Z) : float := of_decimal false n (-1).

(** One point, at the origin. *)
Definition single_point64 : list Geometry64.point :=
  [(whole 0, whole 0)].

(** The corners of a square, with its centre. *)
Definition square_points64 : list Geometry64.point :=
  [(whole 2, whole 2); (whole 0, whole 0); (whole 1, whole 1);
   (whole 2, whole 0); (whole 0, whole 2)].

(** Five points of a floor plan: four of them are, in decimal, on one
    line. *)
Definition plan_points64 : list Geometry64.point :=
  [(whole 0, whole 5600); (tenths 17874, whole 3815);
   (tenths 35748, whole 2030); (tenths 53622, whole 245);
   (whole 4300, whole 800)].

Definition dropped_point64 : Geometry64.point := (tenths 35748, whole 2030).

End Hull64Notions.

(* ================================================================= *)
(** * Properties of the export parser *)

Module ParserFacts.
Import PyStr Regex PyFloat PtdParser ParserInputs.
Local Open Scope Z_scope.

Ltac break_match :=
  match goal with
  | |- context [match ?x with _ => _ end] => destruct x eqn:?
  | H : context [match ?x with _ => _ end] |- _ => destruct x eqn:?
  end.

Ltac inv_ok :=
  repeat match goal with
  | H : Ok _ = Ok _ |- _ => inversion H; subst; clear H
  | H : Err _ = Ok _ |- _ => discriminate H
  | H : bind ?m _ = Ok _ |- _ =>
      let E := fresh "E" in destruct m eqn:E; simpl in H
  end.

(** *** Lines and runs *)

Lemma run_app (l1 l2 : list str) : forall st,
  run st (l1 ++ l2) = bind (run st l1) (fun st' => run st' l2).
Proof.
  induction l1 as [|l l1 IH]; intros st; simpl; [reflexivity|].
  destruct (step st l) as [st'|e]; simpl; [apply IH|reflexivity].
Qed.

Lemma step_blank (st : pstate) (raw : str) :
  strip raw = [] -> step st raw = Ok st.
Proof. intros H. unfold step. rewrite H. reflexivity. Qed.

(** A field line never touches the closed records nor the id of the
    open one. *)
Lemma field_line_keeps (st st' : pstate) (t : TendonData) (line : str) :
  field_line st t line = Ok st' ->
  tendons st' = tendons st /\
  (tendon st = Some t -> exists t', tendon st' = Some t' /\ id t' = id t).
Proof.
  unfold field_line. intros H.
  repeat break_match; inv_ok; simpl; split; intros; eauto.
Qed.

Lemma step_header (st : pstate) (raw : str) (i : Z) :
  header_id raw = Some i ->
  step st raw =
    Ok {| tendons := finish st; tendon := Some (new_tendon i); in_table := false |}.
Proof.
  unfold header_id, step. intros H.
  destruct (re_match _HEADER_TENDON_NO (strip raw)) as [m|] eqn:E; [|discriminate].
  inversion H; subst.
  destruct (strip raw) eqn:Es; [discriminate E|].
  reflexivity.
Qed.

Lemma step_no_header (st st' : pstate) (raw : str) :
  header_id raw = None ->
  step st raw = Ok st' ->
  map id (finish st') = map id (finish st).
Proof.
  unfold header_id, step. intros H Hs.
  destruct (re_match _HEADER_TENDON_NO (strip raw)) as [m|] eqn:E; [discriminate|].
  destruct (strip raw) eqn:Es; [inv_ok; reflexivity|].
  destruct (tendon st) as [t|] eqn:Et; [|inv_ok; reflexivity].
  apply field_line_keeps in Hs. destruct Hs as [Ht Hid].
  destruct (Hid Et) as [t' [Ht' Hid']].
  unfold finish. rewrite Ht', Et, Ht, !map_app. simpl. now rewrite Hid'.
Qed.

Lemma run_ids (lines : list str) : forall st st',
  run st lines = Ok st' ->
  map id (finish st') = map id (finish st) ++ header_ids lines.
Proof.
  induction lines as [|l ls IH]; intros st st' H; simpl in *.
  - inv_ok. now rewrite app_nil_r.
  - inv_ok. destruct (header_id l) as [i|] eqn:Eh.
    + rewrite (step_header _ _ _ Eh) in E. inv_ok.
      rewrite (IH _ _ H). unfold finish at 1. simpl.
      rewrite map_app. simpl. now rewrite <- app_assoc.
    + rewrite (IH _ _ H). now rewrite (step_no_header _ _ _ Eh E).
Qed.

(** Before the first header nothing happens. *)
Lemma run_before_first_header (pre : list str) :
  header_ids pre = [] -> run init_state pre = Ok init_state.
Proof.
  induction pre as [|l ls IH]; simpl; intros H; [reflexivity|].
  destruct (header_id l) as [i|] eqn:Eh; [discriminate|].
  assert (Hs : step init_state l = Ok init_state).
  { unfold header_id in Eh. unfold step.
    destruct (re_match _HEADER_TENDON_NO (strip l)); [discriminate|].
    destruct (strip l); reflexivity. }
  rewrite Hs. simpl. apply IH, H.
Qed.

Lemma parse_lines_blank (l1 l2 : list str) (b : str) :
  strip b = [] -> parse_lines (l1 ++ b :: l2) = parse_lines (l1 ++ l2).
Proof.
  intros Hb. unfold parse_lines. rewrite !run_app.
  destruct (run init_state l1) as [st|e]; simpl; [|reflexivity].
  now rewrite (step_blank st b Hb).
Qed.

Lemma unrecognised_field_line (st : pstate) (t : TendonData) (line : str) :
  unrecognised line = true ->
  field_line st t line =
    if in_table st
    then match re_match _TABLE_ROW line with
         | Some m =>
             bind (_float_mm (group 2 m)) (fun d =>
             bind (py_float (group 4 m)) (fun h =>
             bind (int_of_float (fmul h MM_PER_M)) (fun hi =>
             Ok (with_tendon st (add_point t {| distance_mm := d; height_mm := hi |})))))
         | None => Ok (with_in_table st false)
         end
    else Ok st.
Proof.
  unfold unrecognised, field_line. intros H.
  repeat (apply andb_prop in H; destruct H as [H ?]).
  repeat match goal with
  | H : is_none ?x = true |- _ => destruct x; [discriminate H|clear H]
  | H : negb ?x = true |- _ => destruct x; [discriminate H|clear H]
  end.
  reflexivity.
Qed.

Lemma unrecognised_step (st : pstate) (t : TendonData) (raw : str) :
  tendon st = Some t -> strip raw <> [] -> unrecognised (strip raw) = true ->
  step st raw = field_line st t (strip raw).
Proof.
  intros Ht Hne Hu. unfold step.
  destruct (strip raw) as [|c s] eqn:Es; [contradiction|].
  assert (Hh : re_match _HEADER_TENDON_NO (c :: s) = None).
  { unfold unrecognised in Hu.
    repeat (apply andb_prop in Hu; destruct Hu as [Hu ?]).
    destruct (re_match _HEADER_TENDON_NO (c :: s)); [discriminate|reflexivity]. }
  rewrite Hh, Ht. reflexivity.
Qed.

(** *** The end kinds *)

(** Without marker lines every record keeps the dataclass defaults. *)
Lemma field_line_keeps_kinds (st st' : pstate) (t : TendonData) (line : str) :
  tendon st = Some t ->
  re_match _HEADER_START line = None ->
  re_match _HEADER_END line = None ->
  field_line st t line = Ok st' ->
  tendons st' = tendons st /\
  exists t', tendon st' = Some t' /\
             start_type t' = start_type t /\ end_type t' = end_type t.
Proof.
  unfold field_line. intros Ht H1 H2 H. rewrite H1, H2 in H.
  repeat break_match; inv_ok; simpl; split; eauto.
Qed.

Lemma step_keeps_defaults (st st' : pstate) (raw : str) :
  is_end_marker raw = false ->
  Forall default_kinds (finish st) ->
  step st raw = Ok st' ->
  Forall default_kinds (finish st').
Proof.
  unfold is_end_marker. intros Hm Hst Hs.
  apply orb_false_elim in Hm. destruct Hm as [Hm1 Hm2].
  apply negb_false_iff in Hm1, Hm2.
  destruct (header_id raw) as [i|] eqn:Eh.
  - rewrite (step_header _ _ _ Eh) in Hs. inv_ok. unfold finish at 1. simpl.
    apply Forall_app. split; [assumption|].
    constructor; [split; reflexivity|constructor].
  - unfold header_id in Eh. unfold step in Hs.
    destruct (re_match _HEADER_TENDON_NO (strip raw)); [discriminate|].
    destruct (strip raw) eqn:Es; [inv_ok; assumption|].
    destruct (tendon st) as [t|] eqn:Et; [|inv_ok; assumption].
    destruct (re_match _HEADER_START (a :: s)) eqn:E1; [discriminate|].
    destruct (re_match _HEADER_END (a :: s)) eqn:E2; [discriminate|].
    destruct (field_line_keeps_kinds _ _ _ _ Et E1 E2 Hs) as [Hts [t' [Ht' [Hs' He']]]].
    unfold finish in *. rewrite Ht', Hts. rewrite Et in Hst.
    apply Forall_app in Hst. destruct Hst as [Ha Hb].
    apply Forall_app. split; [assumption|].
    inversion Hb as [|? ? [Hd1 Hd2] ?]; subst.
    constructor; [|constructor]. split; congruence.
Qed.

Lemma defaults_without_markers (lines : list str) (recs : TendonSet) :
  Forall (fun l => is_end_marker l = false) lines ->
  parse_lines lines = Ok recs ->
  Forall default_kinds recs.
Proof.
  unfold parse_lines. intros Hl H. inv_ok.
  assert (G : forall ls st st', Forall (fun l => is_end_marker l = false) ls ->
            Forall default_kinds (finish st) -> run st ls = Ok st' ->
            Forall default_kinds (finish st')).
  { induction ls as [|l ls IH]; simpl; intros st st' Hls Hst Hr.
    - inv_ok. assumption.
    - inv_ok. inversion Hls; subst.
      eapply IH; [eassumption| |eassumption].
      eapply step_keeps_defaults; eassumption. }
  eapply G; [exact Hl| |exact E]. constructor.
Qed.

(** *** The stated properties *)

(** C2 (as stated): the example block gives one record whose second
    profile point has height 25.  It does not: the height is read
    from the fourth field of the row, which is 0.000. *)
Lemma C2_example_height_is_not_25 :
  parse_ptd_file (Some example_text) <> Ok [example_record 25].
Proof. vm_compute. discriminate. Qed.

(** C2 (amended): parsing the example block gives exactly one record
    with id 1, length 12345.0, start (100000.0, 200000.0), end
    (300000.0, 200000.0), tendon type 1, strand type 12.7, strand count
    3 and the two profile points (0.0, 0) and (3500.0, 0). *)
Theorem C2_example_block :
  parse_ptd_file (Some example_text) = Ok [example_record 0].
Proof. vm_compute. reflexivity. Qed.

(** C3 (as stated): a blank line in table mode ends the table, so a
    row after it is not appended.  Here it is appended: the record
    has the points of both rows. *)
Lemma C3_row_after_blank_is_appended :
  exists t, parse_text blank_in_table_text = Ok [t] /\
            map height_mm (points t) = [40; 60].
Proof. eexists. split; vm_compute; reflexivity. Qed.

(** C3 (amended): a blank line is skipped and leaves the parse, table
    mode included, as it is.  In table mode a line that is not blank,
    is none of the recognised lines and is no row ends the table; out
    of table mode such a line, row or not, changes nothing, so no
    profile point is appended. *)
Theorem C3_table_end :
  (forall (l1 l2 : list str) (b : str),
      strip b = [] -> parse_lines (l1 ++ b :: l2) = parse_lines (l1 ++ l2)) /\
  (forall (st : pstate) (t : TendonData) (raw : str),
      tendon st = Some t -> in_table st = true ->
      strip raw <> [] -> unrecognised (strip raw) = true ->
      is_row (strip raw) = false ->
      step st raw = Ok (with_in_table st false)) /\
  (forall (st : pstate) (t : TendonData) (raw : str),
      tendon st = Some t -> in_table st = false ->
      strip raw <> [] -> unrecognised (strip raw) = true ->
      step st raw = Ok st).
Proof.
  split; [exact parse_lines_blank|split].
  - intros st t raw Ht Hin Hne Hu Hr.
    rewrite (unrecognised_step st t raw Ht Hne Hu).
    rewrite (unrecognised_field_line st t _ Hu), Hin.
    unfold is_row in Hr. apply negb_false_iff in Hr.
    destruct (re_match _TABLE_ROW (strip raw)); [discriminate|reflexivity].
  - intros st t raw Ht Hin Hne Hu.
    rewrite (unrecognised_step st t raw Ht Hne Hu).
    rewrite (unrecognised_field_line st t _ Hu), Hin. reflexivity.
Qed.

(** C4: a record without marker lines has start kind 1 and end kind
    3, while an explicit dead end writes 2: the default end kind is
    not the dead value. *)
Theorem C4_default_end_kind :
  exists t1 t2,
    parse_text bare_text = Ok [t1] /\
    parse_text dead_end_text = Ok [t2] /\
    start_type t1 = 1 /\ end_type t1 = 3 /\ end_type t2 = 2.
Proof. do 2 eexists. repeat split; vm_compute; reflexivity. Qed.

(** C9 (as stated): every input text gives one record per header
    line.  A text whose strand type is no number has one header line
    and gives no record at all: the conversion error ends the parse. *)
Lemma C9_conversion_error_emits_nothing :
  header_ids (readlines bad_number_text) = [1] /\
  parse_text bad_number_text = Err ValueError.
Proof. split; vm_compute; reflexivity. Qed.

(** C9 (amended): for every input text on which no conversion fails,
    the records are, in order, one per header line and carry the
    header's integer as id; the record open at the end of the input is
    among them.  Lines before the first header change nothing. *)
Theorem C9_one_record_per_header :
  (forall (text : str) (recs : TendonSet),
      parse_text text = Ok recs ->
      map id recs = header_ids (readlines text)) /\
  (forall (pre rest : list str),
      header_ids pre = [] -> parse_lines (pre ++ rest) = parse_lines rest).
Proof.
  split.
  - intros text recs H. unfold parse_text, parse_lines in H. inv_ok.
    apply (run_ids _ _ _ E).
  - intros pre rest H. unfold parse_lines. rewrite run_app.
    now rewrite (run_before_first_header pre H).
Qed.

Lemma C3_table_end_witness :
  parse_lines ([L "Tendon No. 7"] ++ L "  " :: [L "1, 0.5, 0.1, 0.2"])
    = parse_lines ([L "Tendon No. 7"] ++ [L "1, 0.5, 0.1, 0.2"]) /\
  step in_table_state (L "Notes follow")
    = Ok (with_in_table in_table_state false) /\
  step out_of_table_state (L "1, 0.5, 0.1, 0.2") = Ok out_of_table_state.
Proof.
  destruct C3_table_end as [A [B C]].
  split; [apply A; reflexivity|split].
  - apply (B in_table_state (new_tendon 7)); try reflexivity.
    vm_compute. discriminate.
  - apply (C out_of_table_state (new_tendon 7)); try reflexivity.
    vm_compute. discriminate.
Defined.

Lemma C9_one_record_per_header_witness :
  map id [example_record 0] = header_ids (readlines example_text) /\
  parse_lines ([L "PTD export"] ++ [L "Tendon No. 1"])
    = parse_lines [L "Tendon No. 1"].
Proof.
  destruct C9_one_record_per_header as [A B].
  split; [apply A; vm_compute; reflexivity|apply B; reflexivity].
Defined.

End ParserFacts.

(* ================================================================= *)
(** * Comparisons, maxima and minima on the reals *)

Module RCmpFacts.
Import RCmp.
Local Open Scope R_scope.

Lemma Rltb_true (x y : R) : Rltb x y = true <-> x < y.
Proof. unfold Rltb. destruct (Rlt_dec x y); split; intros; [assumption|reflexivity|discriminate|contradiction]. Qed.

Lemma Rltb_false (x y : R) : Rltb x y = false <-> y <= x.
Proof.
  unfold Rltb. destruct (Rlt_dec x y); split; intros; try discriminate; try reflexivity; lra.
Qed.

Lemma Rleb_true (x y : R) : Rleb x y = true <-> x <= y.
Proof. unfold Rleb. destruct (Rle_dec x y); split; intros; [assumption|reflexivity|discriminate|contradiction]. Qed.

Lemma Rleb_false (x y : R) : Rleb x y = false <-> y < x.
Proof.
  unfold Rleb. destruct (Rle_dec x y); split; intros; try discriminate; try reflexivity; lra.
Qed.

Lemma Reqb_true (x y : R) : Reqb x y = true <-> x = y.
Proof. unfold Reqb. destruct (Req_dec_T x y); split; intros; [assumption|reflexivity|discriminate|contradiction]. Qed.

(** Evaluation of the comparisons on concrete numbers. *)
Ltac rdecide :=
  repeat (
    match goal with
    | |- context [Rltb ?a ?b] =>
        let H := fresh in
        first [ assert (H : Rltb a b = true) by (apply Rltb_true; lra)
              | assert (H : Rltb a b = false) by (apply Rltb_false; lra) ];
        rewrite H; clear H
    | |- context [Rleb ?a ?b] =>
        let H := fresh in
        first [ assert (H : Rleb a b = true) by (apply Rleb_true; lra)
              | assert (H : Rleb a b = false) by (apply Rleb_false; lra) ];
        rewrite H; clear H
    | |- context [Reqb ?a ?b] =>
        let H := fresh in
        first [ assert (H : Reqb a b = true) by (apply Reqb_true; lra)
              | assert (H : Reqb a b = false)
                  by (unfold Reqb; destruct (Req_dec_T a b); [lra|reflexivity]) ];
        rewrite H; clear H
    end; cbn [andb orb negb Bool.eqb]).

(** *** Maxima and minima *)

Lemma py_max_Rmax (x y : R) : py_max x y = Rmax x y.
Proof.
  unfold py_max, Rmax. destruct (Rltb x y) eqn:E.
  - apply Rltb_true in E. destruct (Rle_dec x y); lra.
  - apply Rltb_false in E. destruct (Rle_dec x y); lra.
Qed.

Lemma py_min_le_first (xs : list R) : forall x, py_min x xs <= x.
Proof.
  unfold py_min. induction xs as [|v xs IH]; intros x; simpl; [lra|].
  destruct (Rltb v x) eqn:E.
  - apply Rltb_true in E. specialize (IH v). lra.
  - apply IH.
Qed.

Lemma py_min_le_in (xs : list R) : forall x v, In v xs -> py_min x xs <= v.
Proof.
  unfold py_min. induction xs as [|w xs IH]; intros x v Hin; simpl; [contradiction|].
  destruct Hin as [->|Hin].
  - destruct (Rltb v x) eqn:E.
    + apply (py_min_le_first xs v).
    + apply Rltb_false in E. pose proof (py_min_le_first xs x). unfold py_min in *. lra.
  - apply IH, Hin.
Qed.

Lemma py_min_lower (c : R) (xs : list R) : forall x,
  c <= x -> (forall v, In v xs -> c <= v) -> c <= py_min x xs.
Proof.
  unfold py_min. induction xs as [|w xs IH]; intros x Hx Hall; simpl; [assumption|].
  destruct (Rltb w x); apply IH; auto; try (intros; apply Hall; now right).
  apply Hall. now left.
Qed.

End RCmpFacts.

(* ================================================================= *)
(** * Properties of the geometry kernel *)

Module GeometryFacts.
Import RCmp RCmpFacts Geometry GeometryInputs.
Local Open Scope R_scope.

(** *** Distances *)

Lemma point_distance_nonneg (pa pb : point) : 0 <= _point_distance pa pb.
Proof. unfold _point_distance. apply sqrt_pos. Qed.

Lemma point_distance_self (p : point) : _point_distance p p = 0.
Proof.
  unfold _point_distance. simpl.
  replace ((fst p - fst p) * (fst p - fst p) + (snd p - snd p) * (snd p - snd p))
    with 0 by ring.
  apply sqrt_0.
Qed.

Lemma min_distance_nonneg (pa : point) (b : list point) : 0 <= min_distance pa b.
Proof.
  destruct b as [|pb b]; simpl; [lra|].
  apply py_min_lower; [apply point_distance_nonneg|].
  intros v Hv. apply in_map_iff in Hv. destruct Hv as [q [<- _]].
  apply point_distance_nonneg.
Qed.

Lemma min_distance_member (pa : point) (b : list point) :
  In pa b -> min_distance pa b = 0.
Proof.
  intros Hin. apply Rle_antisym; [|apply min_distance_nonneg].
  destruct b as [|pb b]; [contradiction|]. simpl.
  destruct Hin as [->|Hin].
  - eapply Rle_trans; [apply py_min_le_first|].
    rewrite point_distance_self. lra.
  - eapply Rle_trans; [apply (py_min_le_in _ _ (_point_distance pa pa))|].
    + apply in_map_iff. exists pa. split; [reflexivity|assumption].
    + rewrite point_distance_self. lra.
Qed.

Lemma directed_hausdorff_loop (a b : list point) :
  a <> [] -> b <> [] -> _directed_hausdorff a b = dh_loop b a 0.
Proof. destruct a, b; intros; try contradiction; reflexivity. Qed.

Lemma dh_loop_ge_start (b a : list point) : forall m, m <= dh_loop b a m.
Proof.
  unfold dh_loop. induction a as [|pa a IH]; intros m; simpl; [lra|].
  destruct (Rltb m (min_distance pa b)) eqn:E.
  - apply Rltb_true in E. specialize (IH (min_distance pa b)). lra.
  - apply IH.
Qed.

Lemma dh_loop_mono (b a : list point) : forall m1 m2,
  m1 <= m2 -> dh_loop b a m1 <= dh_loop b a m2.
Proof.
  unfold dh_loop. induction a as [|pa a IH]; intros m1 m2 H; simpl; [assumption|].
  apply IH.
  destruct (Rltb m1 (min_distance pa b)) eqn:E1;
    destruct (Rltb m2 (min_distance pa b)) eqn:E2;
    try apply Rltb_true in E1; try apply Rltb_true in E2;
    try apply Rltb_false in E1; try apply Rltb_false in E2; lra.
Qed.

(** Leaving points out never raises the accumulated maximum. *)
Lemma dh_loop_filter (f : point -> bool) (b a : list point) : forall m,
  dh_loop b (filter f a) m <= dh_loop b a m.
Proof.
  induction a as [|pa a IH]; intros m; simpl; [unfold dh_loop; simpl; lra|].
  destruct (f pa).
  - apply IH.
  - eapply Rle_trans; [apply IH|].
    change (dh_loop b (pa :: a) m)
      with (dh_loop b a (if Rltb m (min_distance pa b) then min_distance pa b else m)).
    apply dh_loop_mono.
    destruct (Rltb m (min_distance pa b)) eqn:E; [apply Rltb_true in E|]; lra.
Qed.

Lemma dh_loop_all_zero (b a : list point) :
  (forall p, In p a -> min_distance p b = 0) -> dh_loop b a 0 = 0.
Proof.
  unfold dh_loop. induction a as [|pa a IH]; intros H; simpl; [reflexivity|].
  rewrite (H pa (or_introl eq_refl)).
  assert (E : Rltb 0 0 = false) by (apply Rltb_false; lra).
  rewrite E. apply IH. intros p Hp. apply H. now right.
Qed.

Lemma directed_hausdorff_nonneg (a b : list point) : 0 <= _directed_hausdorff a b.
Proof.
  destruct a as [|pa a]; [simpl; lra|]. destruct b as [|pb b]; [simpl; lra|].
  rewrite directed_hausdorff_loop by discriminate. apply dh_loop_ge_start.
Qed.

(** C8: [hausdorff_distance] is symmetric for all point sets (the
    non-empty ones in particular), and the directed distance from a
    set to itself is 0. *)
Theorem C8_hausdorff_symmetry :
  (forall a b : list point, hausdorff_distance a b = hausdorff_distance b a) /\
  (forall a : list point, _directed_hausdorff a a = 0).
Proof.
  split.
  - intros a b. unfold hausdorff_distance. rewrite !py_max_Rmax. apply Rmax_comm.
  - intros a. destruct a as [|pa a]; [reflexivity|].
    rewrite directed_hausdorff_loop by discriminate.
    apply dh_loop_all_zero. intros p Hp. now apply min_distance_member.
Qed.

(** C10: the distance over the points outside the hull is at most the
    plain directed distance, and it is 0 when no point is outside. *)
Theorem C10_outside_le_directed :
  (forall a h : list point,
      directed_hausdorff_outside a h <= _directed_hausdorff a h) /\
  (forall a h : list point,
      (forall p, In p a -> pt_in_convex p h = true) ->
      directed_hausdorff_outside a h = 0).
Proof.
  split.
  - intros a h. unfold directed_hausdorff_outside.
    destruct a as [|pa a]; [simpl; lra|]. destruct h as [|q h]; [simpl; lra|].
    set (f := fun p => negb (pt_in_convex p (q :: h))).
    destruct (filter f (pa :: a)) as [|o os] eqn:Ef.
    + apply directed_hausdorff_nonneg.
    + rewrite <- Ef. rewrite !directed_hausdorff_loop; try discriminate.
      * apply dh_loop_filter.
      * rewrite Ef. discriminate.
  - intros a h Hin. unfold directed_hausdorff_outside.
    destruct a as [|pa a]; [reflexivity|]. destruct h as [|q h]; [reflexivity|].
    set (f := fun p => negb (pt_in_convex p (q :: h))).
    destruct (filter f (pa :: a)) as [|o os] eqn:Ef; [reflexivity|].
    assert (Ho : In o (filter f (pa :: a))) by (rewrite Ef; now left).
    apply filter_In in Ho. destruct Ho as [Ho1 Ho2].
    unfold f in Ho2. rewrite (Hin o Ho1) in Ho2. discriminate.
Qed.

Lemma inner_point_in_triangle : pt_in_convex inner_point triangle = true.
Proof.
  unfold pt_in_convex, inner_point, triangle. simpl. unfold edge_eps.
  repeat match goal with
  | |- context [Rabs ?x] =>
      let H := fresh in
      first [ assert (H : Rabs x = x) by (apply Rabs_right; lra)
            | assert (H : Rabs x = - x) by (apply Rabs_left; lra) ];
      rewrite H; clear H
  end.
  unfold edge_eps. rdecide. reflexivity.
Defined.

Lemma C10_outside_le_directed_witness :
  directed_hausdorff_outside [inner_point] triangle = 0.
Proof.
  apply (proj2 C10_outside_le_directed).
  intros p [<-|[]]. exact inner_point_in_triangle.
Defined.

End GeometryFacts.

(* ================================================================= *)
(** * Properties of the convex hull *)

Module HullFacts.
Import RCmp RCmpFacts Geometry HullNotions.
Local Open Scope R_scope.

(** *** Three lemmas of plane geometry *)

Ltac coords := unfold lexle, lexlt, _cross in *; simpl in *.

(** A chain that turns left at [v] keeps a later point that is left
    of its last edge to the left of the edge before. *)
Lemma turn_extends (u v w p : point) :
  lexlt u v -> lexlt v w -> lexlt w p ->
  0 < _cross u v w -> 0 <= _cross v w p -> 0 <= _cross u v p.
Proof.
  destruct u as [ux uy], v as [vx vy], w as [wx wy], p as [px py].
  coords. intros Huv Hvw Hwp Hturn Hleft.
  assert (Hid : ((vx - ux) * (py - uy) - (vy - uy) * (px - ux)) * (wx - vx)
                = ((vx - ux) * (wy - uy) - (vy - uy) * (wx - ux)) * (px - vx)
                  + ((wx - vx) * (py - vy) - (wy - vy) * (px - vx)) * (vx - ux))
    by ring.
  destruct (Rle_lt_dec (wx - vx) 0) as [Hc|Hc].
  - assert (wx = vx) by lra. subst wx.
    assert (Hwy : 0 < wy - vy) by lra.
    assert (Hpx : px <= vx).
    { destruct (Rle_lt_dec px vx) as [|Hgt]; [assumption|].
      assert (0 < (wy - vy) * (px - vx)) by (apply Rmult_lt_0_compat; lra). lra. }
    assert (px = vx) by lra. subst px.
    assert (Hux : 0 < vx - ux).
    { destruct (Rle_lt_dec (vx - ux) 0) as [Hle|]; [|assumption].
      assert (ux = vx) by lra. subst ux. lra. }
    assert (Hpy : 0 < py - vy) by lra.
    assert (0 < (vx - ux) * (py - vy)) by (apply Rmult_lt_0_compat; lra).
    lra.
  - assert (0 <= px - vx) by lra. assert (0 <= vx - ux) by lra.
    assert (0 <= ((vx - ux) * (py - uy) - (vy - uy) * (px - ux)) * (wx - vx)).
    { rewrite Hid. apply Rplus_le_le_0_compat; apply Rmult_le_pos; lra. }
    nra.
Qed.

(** Turning the edge from [s] clockwise keeps the later points that
    were left of it on the left. *)
Lemma wedge_after (s t p q : point) :
  lexlt s t -> lexlt s p -> lexle s q ->
  0 <= _cross s t q -> _cross s t p <= 0 -> 0 <= _cross s p q.
Proof.
  destruct s as [sx sy], t as [tx ty], p as [px py], q as [qx qy].
  coords. intros Hst Hsp Hsq Hq Hp.
  assert (Hid : ((px - sx) * (qy - sy) - (py - sy) * (qx - sx)) * (tx - sx)
                = ((tx - sx) * (qy - sy) - (ty - sy) * (qx - sx)) * (px - sx)
                  - ((tx - sx) * (py - sy) - (ty - sy) * (px - sx)) * (qx - sx))
    by ring.
  assert (Hqx : 0 <= qx - sx).
  { destruct Hsq as [[H|[H _]]|H]; [lra|lra|]. inversion H. lra. }
  assert (Hpx : 0 <= px - sx) by lra.
  destruct (Rle_lt_dec (tx - sx) 0) as [Hc|Hc].
  - assert (tx = sx) by lra. subst tx.
    assert (Hty : 0 < ty - sy) by lra.
    assert (qx = sx) by nra. subst qx.
    destruct Hsq as [[H|[_ H]]|H]; [lra| |inversion H; subst; nra].
    nra.
  - assert (0 <= ((px - sx) * (qy - sy) - (py - sy) * (qx - sx)) * (tx - sx)).
    { rewrite Hid.
      assert (0 <= ((tx - sx) * (qy - sy) - (ty - sy) * (qx - sx)) * (px - sx))
        by (apply Rmult_le_pos; lra).
      assert (0 <= - ((tx - sx) * (py - sy) - (ty - sy) * (px - sx)) * (qx - sx))
        by (apply Rmult_le_pos; lra).
      lra. }
    nra.
Qed.

(** The earlier points that were left of the edge into [s] are left of
    an edge out of [s] that turns left. *)
Lemma wedge_before (r s p q : point) :
  lexlt r s -> lexlt s p -> lexle q s ->
  0 <= _cross r s q -> 0 < _cross r s p -> 0 <= _cross s p q.
Proof.
  destruct r as [rx ry], s as [sx sy], p as [px py], q as [qx qy].
  coords. intros Hrs Hsp Hqs Hq Hp.
  assert (Hid : ((px - sx) * (qy - sy) - (py - sy) * (qx - sx)) * (sx - rx)
                = ((sx - rx) * (py - ry) - (sy - ry) * (px - rx)) * (sx - qx)
                  + ((sx - rx) * (qy - ry) - (sy - ry) * (qx - rx)) * (px - sx))
    by ring.
  assert (Hqx : 0 <= sx - qx).
  { destruct Hqs as [[H|[H _]]|H]; [lra|lra|]. inversion H. lra. }
  assert (Hpx : 0 <= px - sx) by lra.
  destruct (Rle_lt_dec (sx - rx) 0) as [Hc|Hc].
  - assert (rx = sx) by lra. subst rx. exfalso. nra.
  - assert (0 <= ((px - sx) * (qy - sy) - (py - sy) * (qx - sx)) * (sx - rx)).
    { rewrite Hid. apply Rplus_le_le_0_compat; apply Rmult_le_pos; lra. }
    nra.
Qed.

(** *** The order of points *)

Lemma lexlt_irrefl (p : point) : ~ lexlt p p.
Proof. unfold lexlt. lra. Qed.

Lemma lexlt_trans (p q r : point) : lexlt p q -> lexlt q r -> lexlt p r.
Proof. unfold lexlt. lra. Qed.

Lemma lexlt_asym (p q : point) : lexlt p q -> ~ lexlt q p.
Proof. unfold lexlt. lra. Qed.

Lemma lex_trichotomy (p q : point) : lexlt p q \/ p = q \/ lexlt q p.
Proof.
  destruct p as [px py], q as [qx qy]. unfold lexlt. simpl.
  destruct (Rtotal_order px qx) as [H|[H|H]]; [lra| |lra].
  destruct (Rtotal_order py qy) as [H'|[H'|H']]; [lra| |lra].
  right. left. now subst.
Qed.

Lemma lexle_antisym (p q : point) : lexle p q -> lexle q p -> p = q.
Proof.
  intros [H1|H1] [H2|H2]; auto. exfalso. exact (lexlt_asym _ _ H1 H2).
Qed.

Lemma lexle_or_lt (q b : point) : lexle q b \/ lexlt b q.
Proof.
  destruct (lex_trichotomy q b) as [H|[H|H]]; [left; now left|left; now right|now right].
Qed.

Lemma pt_ltb_true (p q : point) : pt_ltb p q = true <-> lexlt p q.
Proof.
  unfold pt_ltb, lexlt. rewrite orb_true_iff, andb_true_iff.
  rewrite !Rltb_true, Reqb_true. reflexivity.
Qed.

Lemma pt_eqb_true (p q : point) : pt_eqb p q = true <-> p = q.
Proof.
  unfold pt_eqb. rewrite andb_true_iff, !Reqb_true.
  destruct p, q; simpl. split; [intros [-> ->]; reflexivity|intros H; now inversion H].
Qed.

(** *** [sorted(set(points))] *)

Lemma insert_pt_in (p q : point) (l : list point) :
  In q (insert_pt p l) <-> q = p \/ In q l.
Proof.
  induction l as [|x l IH]; simpl; [intuition|].
  destruct (pt_ltb p x) eqn:E1; simpl; [intuition|].
  destruct (pt_eqb p x) eqn:E2; simpl.
  - apply pt_eqb_true in E2. subst. intuition.
  - rewrite IH. intuition.
Qed.

Lemma insert_pt_sorted (p : point) (l : list point) :
  StronglySorted lexlt l -> StronglySorted lexlt (insert_pt p l).
Proof.
  induction l as [|x l IH]; intros Hs; simpl.
  - constructor; constructor.
  - inversion Hs as [|? ? Hl Hx]; subst.
    destruct (pt_ltb p x) eqn:E1.
    + apply pt_ltb_true in E1. constructor; [assumption|].
      constructor; [assumption|].
      eapply Forall_impl; [|exact Hx]. intros a Ha. exact (lexlt_trans _ _ _ E1 Ha).
    + destruct (pt_eqb p x) eqn:E2; [assumption|].
      assert (Hxp : lexlt x p).
      { destruct (lex_trichotomy p x) as [H|[H|H]]; [| |assumption].
        - apply pt_ltb_true in H. congruence.
        - apply pt_eqb_true in H. congruence. }
      constructor; [apply IH, Hl|].
      apply Forall_forall. intros a Ha. apply insert_pt_in in Ha.
      destruct Ha as [->|Ha]; [assumption|].
      rewrite Forall_forall in Hx. now apply Hx.
Qed.

Lemma sorted_set_in (q : point) (points : list point) :
  In q (sorted_set points) <-> In q points.
Proof.
  unfold sorted_set. induction points as [|p l IH]; simpl; [reflexivity|].
  rewrite insert_pt_in, IH. intuition.
Qed.

Lemma sorted_set_sorted (points : list point) :
  StronglySorted lexlt (sorted_set points).
Proof.
  unfold sorted_set. induction points as [|p l IH]; simpl; [constructor|].
  now apply insert_pt_sorted.
Qed.

(** *** The [while] loop of a chain *)

Lemma pop_while_step (p b a : point) (rest : list point) :
  pop_while p (b :: a :: rest) =
    if Rleb (_cross a b p) 0 then pop_while p (a :: rest) else b :: a :: rest.
Proof. reflexivity. Qed.

Lemma pop_while_suffix (p : point) (stack : list point) :
  exists popped, stack = popped ++ pop_while p stack.
Proof.
  induction stack as [|b rest IH]; [exists []; reflexivity|].
  destruct rest as [|a rest]; [exists []; reflexivity|].
  rewrite pop_while_step. destruct (Rleb (_cross a b p) 0).
  - destruct IH as [popped IH]. exists (b :: popped).
    rewrite <- app_comm_cons. f_equal. exact IH.
  - exists []. reflexivity.
Qed.

Lemma pop_while_nonempty (p : point) (stack : list point) :
  stack <> [] -> pop_while p stack <> [].
Proof.
  induction stack as [|b rest IH]; [contradiction|]. intros _.
  destruct rest as [|a rest]; [discriminate|].
  rewrite pop_while_step. destruct (Rleb (_cross a b p) 0); [|discriminate].
  apply IH. discriminate.
Qed.

Lemma pop_while_last (p d : point) (stack : list point) :
  last (pop_while p stack) d = last stack d.
Proof.
  induction stack as [|b rest IH]; [reflexivity|].
  destruct rest as [|a rest]; [reflexivity|].
  rewrite pop_while_step. destruct (Rleb (_cross a b p) 0); [|reflexivity].
  rewrite IH. reflexivity.
Qed.

(** Where the loop stops, the new point is strictly left of the top
    edge. *)
Lemma pop_while_stop (p : point) (stack : list point) :
  forall s r rest, pop_while p stack = s :: r :: rest -> 0 < _cross r s p.
Proof.
  induction stack as [|b rest0 IH]; intros s r rest H; [discriminate|].
  destruct rest0 as [|a rest0]; [discriminate|].
  rewrite pop_while_step in H. destruct (Rleb (_cross a b p) 0) eqn:E.
  - exact (IH _ _ _ H).
  - inversion H; subst. now apply Rleb_false in E.
Qed.

(** *** Parts of a chain *)

Lemma decreasing_suffix (l1 l2 : list point) : decreasing (l1 ++ l2) -> decreasing l2.
Proof.
  unfold decreasing. induction l1 as [|x l1 IH]; simpl; [auto|].
  intros H. inversion H; subst. auto.
Qed.

Lemma left_turns_tail (c : point) (rest : list point) :
  left_turns (c :: rest) -> left_turns rest.
Proof.
  destruct rest as [|b [|a rest]]; simpl; try tauto.
Qed.

Lemma left_turns_suffix (l1 l2 : list point) : left_turns (l1 ++ l2) -> left_turns l2.
Proof.
  induction l1 as [|x l1 IH]; [auto|]. intros H. apply IH.
  exact (left_turns_tail _ _ H).
Qed.

Lemma chain_edges_tail (e : point * point) (c : point) (rest : list point) :
  In e (chain_edges rest) -> In e (chain_edges (c :: rest)).
Proof. destruct rest as [|b rest]; simpl; [contradiction|]. now right. Qed.

Lemma chain_edges_suffix (e : point * point) (l1 l2 : list point) :
  In e (chain_edges l2) -> In e (chain_edges (l1 ++ l2)).
Proof.
  induction l1 as [|x l1 IH]; [auto|]. intros H.
  change ((x :: l1) ++ l2) with (x :: (l1 ++ l2)). apply chain_edges_tail. auto.
Qed.

Lemma chain_edges_vertices (a b : point) (stack : list point) :
  In (a, b) (chain_edges stack) -> In a stack /\ In b stack.
Proof.
  induction stack as [|c rest IH]; [contradiction|].
  destruct rest as [|c' rest]; [contradiction|].
  intros [H|H].
  - inversion H; subst. split; [right; now left|now left].
  - destruct (IH H). split; now right.
Qed.

(** The later point is left of every edge of a left-turning chain
    once it is left of the top edge. *)
Lemma chain_left_of_all (p : point) (stack : list point) :
  decreasing stack -> left_turns stack ->
  (forall s, In s stack -> lexlt s p) ->
  (forall s r rest, stack = s :: r :: rest -> 0 <= _cross r s p) ->
  forall a b, In (a, b) (chain_edges stack) -> 0 <= _cross a b p.
Proof.
  induction stack as [|s rest IH]; intros Hd Ht Hp Htop a b Hin; [contradiction|].
  destruct rest as [|r rest]; [contradiction|].
  destruct Hin as [Hin|Hin].
  - inversion Hin; subst. exact (Htop _ _ _ eq_refl).
  - apply IH; try assumption.
    + exact (decreasing_suffix [s] _ Hd).
    + exact (left_turns_tail _ _ Ht).
    + intros x Hx. apply Hp. now right.
    + intros r' r2 rest' E. inversion E; subst.
      unfold decreasing in Hd. inversion Hd as [|? ? Hd' Hs]; subst.
      inversion Hd' as [|? ? _ Hr]; subst.
      rewrite Forall_forall in Hs, Hr.
      apply (turn_extends r2 r' s p).
      * apply Hr. now left.
      * apply Hs. now left.
      * apply Hp. now left.
      * simpl in Ht. tauto.
      * exact (Htop _ _ _ eq_refl).
Qed.

(** Every earlier point is on or left of the edge from the new top of
    the stack to the new point. *)
Lemma new_edge_left (p q : point) :
  forall (stack : list point) (above : option point),
    stack <> [] -> decreasing stack ->
    (forall s, In s stack -> lexlt s p) ->
    (forall a b, In (a, b) (chain_edges stack) -> 0 <= _cross a b q) ->
    lexle (last stack q) q ->
    (forall top, hd_error stack = Some top ->
       lexle q top \/
       exists t, above = Some t /\ lexlt top t /\
                 0 <= _cross top t q /\ _cross top t p <= 0) ->
    forall s, hd_error (pop_while p stack) = Some s -> 0 <= _cross s p q.
Proof.
  induction stack as [|b rest IH]; intros above Hne Hd Hp He Hbot Htop s Hs;
    [contradiction|].
  destruct rest as [|a rest].
  - simpl in Hs. inversion Hs; subst s. simpl in Hbot.
    destruct (Htop b eq_refl) as [Hq|[t [_ [Hbt [Hq Hpp]]]]].
    + assert (q = b) by (now apply lexle_antisym). subst q.
      unfold _cross. lra.
    + apply (wedge_after b t p q); try assumption. apply Hp. now left.
  - assert (Hab : lexlt a b).
    { unfold decreasing in Hd. inversion Hd as [|? ? _ Hf]; subst.
      rewrite Forall_forall in Hf. apply Hf. now left. }
    assert (Hbp : lexlt b p) by (apply Hp; now left).
    assert (Hq_ab : 0 <= _cross a b q) by (apply He; now left).
    rewrite pop_while_step in Hs. destruct (Rleb (_cross a b p) 0) eqn:E.
    + apply Rleb_true in E.
      apply (IH (Some b)); try assumption.
      * discriminate.
      * exact (decreasing_suffix [b] _ Hd).
      * intros x Hx. apply Hp. now right.
      * intros x y Hxy. apply He. now apply chain_edges_tail.
      * intros top Ht. inversion Ht; subst top. right.
        exists b. repeat split; assumption.
    + apply Rleb_false in E. simpl in Hs. inversion Hs; subst s.
      destruct (lexle_or_lt q b) as [Hqb|Hbq].
      * apply (wedge_before a b p q); assumption.
      * destruct (Htop b eq_refl) as [Hq|[t [_ [Hbt [Hq Hpp]]]]].
        -- exfalso. destruct Hq as [Hq|Hq].
           ++ exact (lexlt_asym _ _ Hq Hbq).
           ++ subst. exact (lexlt_irrefl _ Hbq).
        -- apply (wedge_after b t p q); try assumption. now left.
Qed.

(** *** One pass over increasing points *)

Lemma last_in (d : point) (l : list point) : l <> [] -> In (last l d) l.
Proof.
  induction l as [|x l IH]; [contradiction|]. intros _.
  destruct l as [|y l]; [now left|]. right. apply IH. discriminate.
Qed.

Lemma cross_same_end (s p : point) : _cross s p p = 0.
Proof. unfold _cross. ring. Qed.

Lemma push_point_inv (stack Q : list point) (p : point) :
  chain_inv stack Q ->
  (forall q, In q Q -> lexlt q p) ->
  chain_inv (push_point stack p) (p :: Q).
Proof.
  intros [Hd [Hi [Ht [He Hb]]]] Hp. unfold push_point.
  destruct (pop_while_suffix p stack) as [popped Hsuf].
  set (stack' := pop_while p stack) in *.
  assert (Hd' : decreasing stack') by (rewrite Hsuf in Hd; exact (decreasing_suffix _ _ Hd)).
  assert (Ht' : left_turns stack') by (rewrite Hsuf in Ht; exact (left_turns_suffix _ _ Ht)).
  assert (Hi' : forall s, In s stack' -> In s Q).
  { intros s Hs. apply Hi. rewrite Hsuf. apply in_or_app. now right. }
  assert (Hlt' : forall s, In s stack' -> lexlt s p) by (intros; apply Hp; auto).
  assert (He' : forall q a b, In q Q -> In (a, b) (chain_edges stack') -> 0 <= _cross a b q).
  { intros q a b Hq Hab. apply He; [assumption|]. rewrite Hsuf.
    now apply chain_edges_suffix. }
  assert (Hstop : forall s r rest, stack' = s :: r :: rest -> 0 < _cross r s p)
    by (intros s r rest E; exact (pop_while_stop p stack s r rest E)).
  repeat split.
  - constructor; [assumption|]. apply Forall_forall. exact Hlt'.
  - intros x [->|Hx]; [now left|right; auto].
  - destruct stack' as [|s [|r rest]] eqn:Es; simpl; try tauto.
    split; [exact (Hstop _ _ _ eq_refl)|]. exact Ht'.
  - intros q a b Hq Hab.
    destruct stack' as [|s rest] eqn:Es; [contradiction|].
    destruct Hab as [Hab|Hab].
    + inversion Hab; subst a b.
      destruct Hq as [<-|Hq]; [rewrite cross_same_end; lra|].
      destruct (Hb q Hq) as [Hne [Hlast Htop]].
      apply (new_edge_left p q stack None); try assumption.
      * intros x Hx. apply Hp. auto.
      * intros a' b' Hab'. now apply He.
      * intros top Htp. left. now apply Htop.
      * fold stack'. rewrite Es. reflexivity.
    + destruct Hq as [<-|Hq]; [|now apply He'].
      apply (chain_left_of_all p (s :: rest)); try assumption.
      intros s0 r0 rest0 E. apply Rlt_le. exact (Hstop _ _ _ E).
  - discriminate.
  - destruct stack as [|b0 rest0] eqn:Estk.
    + (* nothing passed yet *)
      destruct H as [<-|Hq]; [simpl; now right|].
      destruct (Hb q Hq) as [Hne _]. contradiction.
    + assert (Hne' : stack' <> []) by (apply pop_while_nonempty; discriminate).
      assert (El : last (p :: stack') q = last (b0 :: rest0) q).
      { destruct stack' as [|s rest] eqn:Es; [contradiction|].
        change (last (p :: s :: rest) q) with (last (s :: rest) q).
        rewrite <- Es. apply pop_while_last. }
      rewrite El. destruct H as [<-|Hq].
      * left. apply Hp. apply Hi. apply last_in. discriminate.
      * now destruct (Hb q Hq) as [_ [Hlast _]].
  - intros top Htop. simpl in Htop. inversion Htop; subst top.
    destruct H as [<-|Hq]; [now right|left; auto].
Qed.

Lemma chain_inv_same_points (stack Q Q' : list point) :
  (forall q, In q Q <-> In q Q') -> chain_inv stack Q -> chain_inv stack Q'.
Proof.
  intros HQ [Hd [Hi [Ht [He Hb]]]]. repeat split; try assumption.
  - intros x Hx. apply HQ. auto.
  - intros q a b Hq. apply He. now apply HQ.
  - destruct (Hb q (proj2 (HQ q) H)) as [H1 _]. exact H1.
  - destruct (Hb q (proj2 (HQ q) H)) as [_ [H1 _]]. exact H1.
  - destruct (Hb q (proj2 (HQ q) H)) as [_ [_ H1]]. exact H1.
Qed.

Lemma fold_push_inv (todo : list point) :
  forall stack Q,
    chain_inv stack Q -> StronglySorted lexlt todo ->
    (forall q t, In q Q -> In t todo -> lexlt q t) ->
    chain_inv (fold_left push_point todo stack) (rev todo ++ Q).
Proof.
  induction todo as [|p todo IH]; intros stack Q Hinv Hs Hlt; [exact Hinv|].
  inversion Hs as [|? ? Hs' Hp]; subst. rewrite Forall_forall in Hp.
  simpl fold_left.
  apply (chain_inv_same_points _ (rev todo ++ (p :: Q))).
  - intros q. simpl. rewrite <- app_assoc. reflexivity.
  - apply IH; [|assumption|].
    + apply push_point_inv; [assumption|]. intros q Hq. apply Hlt; [assumption|now left].
    + intros q t [<-|Hq] Ht; [now apply Hp|]. apply Hlt; [assumption|now right].
Qed.

Lemma chain_inv_nil : chain_inv [] [].
Proof.
  repeat split; try contradiction; try constructor.
  intros x Hx. contradiction.
Qed.

(** The chain over increasing points. *)
Lemma build_chain_inv (pts : list point) :
  StronglySorted lexlt pts -> chain_inv (build_chain pts) pts.
Proof.
  intros Hs. unfold build_chain.
  apply (chain_inv_same_points _ (rev pts ++ [])).
  - intros q. rewrite app_nil_r. symmetry. apply in_rev.
  - apply fold_push_inv; [exact chain_inv_nil|assumption|].
    intros q t Hq. contradiction.
Qed.

(** *** The pass over the reversed points *)

Lemma reflect_involutive (p : point) : reflect (reflect p) = p.
Proof. destruct p. unfold reflect. simpl. f_equal; ring. Qed.

Lemma cross_reflect (o a b : point) :
  _cross (reflect o) (reflect a) (reflect b) = _cross o a b.
Proof. unfold _cross, reflect. simpl. ring. Qed.

Lemma lexlt_reflect (p q : point) : lexlt (reflect p) (reflect q) <-> lexlt q p.
Proof. unfold lexlt, reflect. simpl. lra. Qed.

Lemma pop_while_reflect (p : point) (stack : list point) :
  pop_while (reflect p) (map reflect stack) = map reflect (pop_while p stack).
Proof.
  induction stack as [|b rest IH]; [reflexivity|].
  destruct rest as [|a rest]; [reflexivity|].
  change (map reflect (b :: a :: rest))
    with (reflect b :: reflect a :: map reflect rest).
  rewrite !pop_while_step, cross_reflect.
  destruct (Rleb (_cross a b p) 0); [exact IH|reflexivity].
Qed.

Lemma fold_push_reflect (l : list point) : forall stack,
  fold_left push_point (map reflect l) (map reflect stack)
  = map reflect (fold_left push_point l stack).
Proof.
  induction l as [|p l IH]; intros stack; [reflexivity|].
  simpl. rewrite <- IH. f_equal. unfold push_point.
  rewrite pop_while_reflect. reflexivity.
Qed.

Lemma build_chain_reflect (l : list point) :
  build_chain (map reflect l) = map reflect (build_chain l).
Proof. exact (fold_push_reflect l []). Qed.

Lemma chain_edges_reflect (a b : point) (stack : list point) :
  In (a, b) (chain_edges stack) ->
  In (reflect a, reflect b) (chain_edges (map reflect stack)).
Proof.
  induction stack as [|c rest IH]; [contradiction|].
  destruct rest as [|c' rest]; [contradiction|].
  intros [H|H].
  - inversion H; subst. now left.
  - right. exact (IH H).
Qed.

Lemma left_turns_reflect (stack : list point) :
  left_turns (map reflect stack) -> left_turns stack.
Proof.
  induction stack as [|c rest IH]; [auto|].
  destruct rest as [|b [|a rest]]; simpl; auto.
  rewrite cross_reflect. intros [H1 H2]. split; [assumption|]. apply IH. exact H2.
Qed.

Lemma sorted_snoc (R : point -> point -> Prop) (l : list point) (y : point) :
  StronglySorted R l -> Forall (fun x => R x y) l -> StronglySorted R (l ++ [y]).
Proof.
  induction l as [|x l IH]; intros Hs Hf; simpl.
  - constructor; constructor.
  - inversion Hs; subst. inversion Hf; subst.
    constructor; [now apply IH|].
    apply Forall_app. split; [assumption|]. constructor; [assumption|constructor].
Qed.

Lemma sorted_reflect_rev (pts : list point) :
  StronglySorted lexlt pts -> StronglySorted lexlt (map reflect (rev pts)).
Proof.
  induction pts as [|p l IH]; intros Hs; simpl; [constructor|].
  inversion Hs as [|? ? Hl Hp]; subst.
  rewrite map_app. simpl. apply sorted_snoc; [now apply IH|].
  apply Forall_forall. intros x Hx. apply in_map_iff in Hx.
  destruct Hx as [y [<- Hy]]. apply lexlt_reflect.
  rewrite Forall_forall in Hp. apply Hp. now apply in_rev.
Qed.

Lemma lower_chain_good (pts : list point) :
  StronglySorted lexlt pts -> good_chain (build_chain pts) pts.
Proof.
  intros Hs. destruct (build_chain_inv pts Hs) as [_ [Hi [Ht [He _]]]].
  repeat split; assumption.
Qed.

Lemma upper_chain_good (pts : list point) :
  StronglySorted lexlt pts -> good_chain (build_chain (rev pts)) pts.
Proof.
  intros Hs.
  destruct (build_chain_inv _ (sorted_reflect_rev pts Hs)) as [_ [Hi [Ht [He _]]]].
  rewrite build_chain_reflect in Hi, Ht, He.
  repeat split.
  - intros x Hx.
    assert (Hr : In (reflect x) (map reflect (rev pts))).
    { apply Hi. now apply in_map. }
    apply in_map_iff in Hr. destruct Hr as [y [Ey Hy]].
    assert (y = x).
    { rewrite <- (reflect_involutive y), Ey. apply reflect_involutive. }
    subst y. now apply in_rev.
  - now apply left_turns_reflect.
  - intros q a b Hq Hab. rewrite <- cross_reflect.
    apply He.
    + apply in_map. now apply in_rev in Hq.
    + now apply chain_edges_reflect.
Qed.

(** *** The two chains and the polygon *)

Lemma adjacent_app (e : point * point) (x : point) (l2 : list point) :
  forall l1,
    In e (adjacent (l1 ++ x :: l2))
    <-> In e (adjacent (l1 ++ [x])) \/ In e (adjacent (x :: l2)).
Proof.
  induction l1 as [|y l1 IH]; [simpl; tauto|].
  destruct l1 as [|z l1].
  - simpl app. change (adjacent [y; x]) with [(y, x)].
    change (adjacent (y :: x :: l2)) with ((y, x) :: adjacent (x :: l2)).
    simpl. tauto.
  - change (adjacent ((y :: z :: l1) ++ x :: l2))
      with ((y, z) :: adjacent ((z :: l1) ++ x :: l2)).
    change (adjacent ((y :: z :: l1) ++ [x]))
      with ((y, z) :: adjacent ((z :: l1) ++ [x])).
    simpl In. rewrite IH. tauto.
Qed.

Lemma chain_edges_adjacent (e : point * point) (stack : list point) :
  In e (chain_edges stack) <-> In e (adjacent (rev stack)).
Proof.
  induction stack as [|b rest IH]; [simpl; tauto|].
  destruct rest as [|a rest]; [simpl; tauto|].
  change (chain_edges (b :: a :: rest)) with ((a, b) :: chain_edges (a :: rest)).
  change (rev (b :: a :: rest)) with ((rev rest ++ [a]) ++ [b]).
  rewrite <- app_assoc. simpl app at 2.
  rewrite (adjacent_app e a [b] (rev rest)).
  change (rev rest ++ [a]) with (rev (a :: rest)).
  simpl In. rewrite IH. simpl. intuition.
Qed.

Lemma hull_edges_adjacent (ps : list point) : forall a z,
  combine (a :: ps) (ps ++ [z]) = adjacent (a :: ps ++ [z]).
Proof.
  induction ps as [|b ps IH]; intros a z; [reflexivity|].
  change (combine (a :: b :: ps) ((b :: ps) ++ [z]))
    with ((a, b) :: combine (b :: ps) (ps ++ [z])).
  rewrite IH. reflexivity.
Qed.

(** The cyclic edges of [lower[:-1] + upper[:-1]] are the edges of the
    two chains, when each chain ends where the other starts. *)
Lemma hull_edges_chains (e : point * point) (p1 pn : point) (X Y : list point) :
  In e (hull_edges (rev (X ++ [p1]) ++ rev (Y ++ [pn])))
  <-> In e (chain_edges (pn :: X ++ [p1])) \/ In e (chain_edges (p1 :: Y ++ [pn])).
Proof.
  rewrite !chain_edges_adjacent.
  rewrite !rev_app_distr. simpl rev. simpl app.
  unfold hull_edges. rewrite hull_edges_adjacent.
  rewrite !rev_app_distr. simpl rev. simpl app.
  rewrite <- !app_assoc. simpl app.
  rewrite (adjacent_app e pn (rev Y ++ [p1]) (p1 :: rev X)).
  reflexivity.
Qed.

Lemma fold_push_last (d : point) (l : list point) : forall stack,
  stack <> [] -> last (fold_left push_point l stack) d = last stack d.
Proof.
  induction l as [|p l IH]; intros stack Hne; [reflexivity|].
  simpl. rewrite IH by discriminate. unfold push_point.
  pose proof (pop_while_nonempty p stack Hne) as Hp.
  destruct (pop_while p stack) as [|s rest] eqn:E; [contradiction|].
  change (last (p :: s :: rest) d) with (last (s :: rest) d).
  rewrite <- E. apply pop_while_last.
Qed.

Lemma fold_push_nonempty (l : list point) : forall stack,
  stack <> [] -> fold_left push_point l stack <> [].
Proof.
  induction l as [|p l IH]; intros stack Hne; [assumption|].
  simpl. apply IH. discriminate.
Qed.

(** The chain over [p1 :: mid ++ [pn]] runs from [p1] to [pn]. *)
Lemma build_chain_ends (p1 pn : point) (mid : list point) :
  exists X, build_chain (p1 :: mid ++ [pn]) = pn :: X ++ [p1].
Proof.
  assert (E : build_chain (p1 :: mid ++ [pn])
              = push_point (build_chain (p1 :: mid)) pn).
  { unfold build_chain. change (p1 :: mid ++ [pn]) with ((p1 :: mid) ++ [pn]).
    rewrite fold_left_app. reflexivity. }
  rewrite E. clear E.
  set (stack := build_chain (p1 :: mid)).
  assert (Hne : stack <> []).
  { unfold stack, build_chain. simpl. apply fold_push_nonempty. discriminate. }
  assert (Hl : last stack pn = p1).
  { unfold stack, build_chain. simpl. rewrite fold_push_last by discriminate.
    reflexivity. }
  unfold push_point.
  pose proof (pop_while_nonempty pn stack Hne) as Hp.
  pose proof (pop_while_last pn pn stack) as Hpl. rewrite Hl in Hpl.
  destruct (exists_last Hp) as [X [x Ex]]. rewrite Ex in Hpl |- *.
  rewrite last_last in Hpl. subst x. now exists X.
Qed.

(** The two shapes of the result. *)
Lemma convex_hull_cases (points : list point) :
  ((List.length (sorted_set points) <= 1)%nat /\
   convex_hull points = sorted_set points) \/
  (exists p1 pn mid X Y,
      sorted_set points = p1 :: mid ++ [pn] /\
      build_chain (sorted_set points) = pn :: X ++ [p1] /\
      build_chain (rev (sorted_set points)) = p1 :: Y ++ [pn] /\
      convex_hull points = rev (X ++ [p1]) ++ rev (Y ++ [pn])).
Proof.
  unfold convex_hull. set (pts := sorted_set points).
  destruct (List.length pts <=? 1)%nat eqn:E.
  - left. apply Nat.leb_le in E. split; [assumption|reflexivity].
  - right. apply Nat.leb_gt in E.
    destruct pts as [|p1 l] eqn:Ep; [simpl in E; lia|].
    assert (Hl : l <> []) by (destruct l; [simpl in E; lia|discriminate]).
    destruct (exists_last Hl) as [mid [pn El]]. subst l.
    destruct (build_chain_ends p1 pn mid) as [X HX].
    assert (Er : rev (p1 :: mid ++ [pn]) = pn :: rev mid ++ [p1]).
    { simpl. rewrite rev_app_distr. reflexivity. }
    destruct (build_chain_ends pn p1 (rev mid)) as [Y HY].
    exists p1, pn, mid, X, Y. rewrite Er, HX, HY. repeat split; reflexivity.
Qed.

Lemma single_edge_cross (a q : point) : _cross a a q = 0.
Proof. unfold _cross. ring. Qed.

(** The vertices of the hull are input points. *)
Lemma hull_vertices_are_input (points : list point) (v : point) :
  In v (convex_hull points) -> In v points.
Proof.
  intros Hv. apply sorted_set_in.
  destruct (convex_hull_cases points)
    as [[_ E]|[p1 [pn [mid [X [Y [Ep [EL [EU E]]]]]]]]].
  - now rewrite <- E.
  - pose proof (sorted_set_sorted points) as Hs.
    destruct (lower_chain_good _ Hs) as [HiL _].
    destruct (upper_chain_good _ Hs) as [HiU _].
    rewrite E in Hv. apply in_app_or in Hv. destruct Hv as [Hv|Hv];
      apply in_rev in Hv.
    + apply HiL. rewrite EL. now right.
    + apply HiU. rewrite EU. now right.
Qed.

(** Every input point is on or left of every edge of the hull. *)
Lemma input_inside_hull (points : list point) (p : point) :
  In p points -> inside_or_on (convex_hull points) p.
Proof.
  intros Hp u v Huv. apply (proj2 (sorted_set_in p points)) in Hp.
  destruct (convex_hull_cases points)
    as [[Hlen E]|[p1 [pn [mid [X [Y [Ep [EL [EU E]]]]]]]]].
  - rewrite E in Huv.
    destruct (sorted_set points) as [|a [|b l]]; simpl in Hlen, Huv;
      [contradiction| |lia].
    destruct Huv as [Huv|[]]. inversion Huv; subst.
    rewrite single_edge_cross. lra.
  - pose proof (sorted_set_sorted points) as Hs.
    destruct (lower_chain_good _ Hs) as [_ [_ HeL]].
    destruct (upper_chain_good _ Hs) as [_ [_ HeU]].
    rewrite E in Huv. apply hull_edges_chains in Huv.
    destruct Huv as [Huv|Huv].
    + apply HeL; [assumption|]. now rewrite EL.
    + apply HeU; [assumption|]. now rewrite EU.
Qed.

(** *** The signed area *)

Lemma Rsum_from (l : list R) : forall a, fold_left Rplus l a = a + Rsum l.
Proof.
  unfold Rsum. induction l as [|x l IH]; intros a; simpl; [ring|].
  rewrite (IH (a + x)), (IH (0 + x)). ring.
Qed.

Lemma Rsum_cons (x : R) (l : list R) : Rsum (x :: l) = x + Rsum l.
Proof. unfold Rsum at 1. simpl. rewrite Rsum_from. ring. Qed.

Lemma Rsum_nonneg (l : list R) : Forall (fun x => 0 <= x) l -> 0 <= Rsum l.
Proof.
  induction 1 as [|x l Hx _ IH]; [unfold Rsum; simpl; lra|].
  rewrite Rsum_cons. lra.
Qed.

Lemma Rsum_pos (l : list R) (x : R) :
  Forall (fun x => 0 <= x) l -> In x l -> 0 < x -> 0 < Rsum l.
Proof.
  intros Hf. induction Hf as [|y l Hy Hl IH]; intros Hin Hx; [contradiction|].
  rewrite Rsum_cons. pose proof (Rsum_nonneg l Hl).
  destruct Hin as [->|Hin]; [lra|]. specialize (IH Hin Hx). lra.
Qed.

Lemma edge_cross_swing (q u v : point) :
  edge_cross q (u, v) = edge_det (u, v) + swing q v - swing q u.
Proof. unfold edge_cross, edge_det, swing, _cross. simpl. ring. Qed.

Lemma last_any_default (l : list point) (a b : point) :
  l <> [] -> last l a = last l b.
Proof.
  induction l as [|x l IH]; [contradiction|]. intros _.
  destruct l as [|y l]; [reflexivity|].
  change (last (x :: y :: l) a) with (last (y :: l) a).
  change (last (x :: y :: l) b) with (last (y :: l) b).
  apply IH. discriminate.
Qed.

Lemma adjacent_sums (q : point) (l : list point) : forall a,
  Rsum (map (edge_cross q) (adjacent (a :: l)))
  = Rsum (map edge_det (adjacent (a :: l))) + swing q (last (a :: l) a) - swing q a.
Proof.
  induction l as [|b l IH]; intros a.
  - simpl. unfold Rsum. simpl. ring.
  - change (adjacent (a :: b :: l)) with ((a, b) :: adjacent (b :: l)).
    rewrite !map_cons, !Rsum_cons, (IH b), edge_cross_swing.
    change (last (a :: b :: l) a) with (last (b :: l) a).
    rewrite (last_any_default (b :: l) a b) by discriminate. ring.
Qed.

(** Around a closed polygon the shoelace sum is the sum of the
    cross products of the edges with any point. *)
Lemma signed_area_cross (q : point) (hull : list point) :
  signed_area hull = Rsum (map (edge_cross q) (hull_edges hull)) / 2.
Proof.
  unfold signed_area. destruct hull as [|p ps]; [reflexivity|].
  unfold hull_edges. rewrite hull_edges_adjacent, adjacent_sums.
  change (p :: ps ++ [p]) with ((p :: ps) ++ [p]). rewrite last_last. lra.
Qed.

Lemma hull_cross_terms_nonneg (points : list point) (q : point) :
  In q points ->
  Forall (fun x => 0 <= x) (map (edge_cross q) (hull_edges (convex_hull points))).
Proof.
  intros Hq. apply Forall_forall. intros x Hx. apply in_map_iff in Hx.
  destruct Hx as [[u v] [<- He]]. exact (input_inside_hull points q Hq u v He).
Qed.

Lemma signed_area_nonneg (points : list point) :
  0 <= signed_area (convex_hull points).
Proof.
  destruct (convex_hull points) as [|q hull] eqn:E.
  - unfold signed_area, Rsum. simpl. lra.
  - rewrite <- E. rewrite (signed_area_cross q).
    assert (Hq : In q points).
    { apply hull_vertices_are_input. rewrite E. now left. }
    pose proof (Rsum_nonneg _ (hull_cross_terms_nonneg points q Hq)). lra.
Qed.

(** A chain of three vertices or more has an edge with an input point
    strictly on its left. *)
Lemma chain_strict_edge (chain pts : list point) (c b a : point) (rest : list point) :
  good_chain chain pts -> chain = c :: b :: a :: rest ->
  In a pts /\ In (b, c) (chain_edges chain) /\ 0 < edge_cross a (b, c).
Proof.
  intros [Hi [Ht _]] E. subst chain. repeat split.
  - apply Hi. right. right. now left.
  - now left.
  - simpl in Ht. destruct Ht as [Ht _].
    unfold edge_cross. simpl. unfold _cross in *. lra.
Qed.

Lemma signed_area_pos (points : list point) :
  (3 <= List.length (convex_hull points))%nat ->
  0 < signed_area (convex_hull points).
Proof.
  intros Hlen.
  destruct (convex_hull_cases points)
    as [[Hl E]|[p1 [pn [mid [X [Y [Ep [EL [EU E]]]]]]]]]; [rewrite E in Hlen; lia|].
  pose proof (sorted_set_sorted points) as Hs.
  pose proof (lower_chain_good _ Hs) as HL.
  pose proof (upper_chain_good _ Hs) as HU.
  assert (Hstrict : exists q u v, In q (sorted_set points) /\
            In (u, v) (hull_edges (convex_hull points)) /\ 0 < edge_cross q (u, v)).
  { rewrite E in Hlen. rewrite length_app, !length_rev, !length_app in Hlen.
    simpl in Hlen.
    destruct X as [|x X].
    - destruct Y as [|y Y]; [simpl in Hlen; lia|].
      destruct (Y ++ [pn]) as [|a rest] eqn:EY; [destruct Y; discriminate|].
      destruct (chain_strict_edge _ _ p1 y a rest HU) as [Ha [He Hc]].
      { rewrite EU. simpl. now rewrite EY. }
      exists a, y, p1. repeat split; try assumption.
      rewrite E. apply hull_edges_chains. right. now rewrite <- EU.
    - destruct (X ++ [p1]) as [|a rest] eqn:EX; [destruct X; discriminate|].
      destruct (chain_strict_edge _ _ pn x a rest HL) as [Ha [He Hc]].
      { rewrite EL. simpl. now rewrite EX. }
      exists a, x, pn. repeat split; try assumption.
      rewrite E. apply hull_edges_chains. left. now rewrite <- EL. }
  destruct Hstrict as [q [u [v [Hq [He Hc]]]]].
  apply (proj1 (sorted_set_in q points)) in Hq.
  rewrite (signed_area_cross q).
  assert (0 < Rsum (map (edge_cross q) (hull_edges (convex_hull points)))).
  { apply (Rsum_pos _ (edge_cross q (u, v))).
    - now apply hull_cross_terms_nonneg.
    - now apply in_map.
    - assumption. }
  lra.
Qed.

(** *** Degenerate inputs *)

Lemma points_on_a_line (a b p q r : point) :
  a <> b -> _cross a b p = 0 -> _cross a b q = 0 -> _cross a b r = 0 ->
  collinear p q r.
Proof.
  destruct a as [ax ay], b as [bx by_], p as [px py], q as [qx qy], r as [rx ry].
  unfold collinear, _cross. simpl. intros Hab Hp Hq Hr.
  set (c := (qx - px) * (ry - py) - (qy - py) * (rx - px)).
  assert (Hx : c * (bx - ax) = 0).
  { unfold c.
    replace (((qx - px) * (ry - py) - (qy - py) * (rx - px)) * (bx - ax))
      with ((rx - px) * (((bx - ax) * (py - ay) - (by_ - ay) * (px - ax))
                        - ((bx - ax) * (qy - ay) - (by_ - ay) * (qx - ax)))
            - (qx - px) * (((bx - ax) * (py - ay) - (by_ - ay) * (px - ax))
                          - ((bx - ax) * (ry - ay) - (by_ - ay) * (rx - ax))))
      by ring.
    rewrite Hp, Hq, Hr. ring. }
  assert (Hy : c * (by_ - ay) = 0).
  { unfold c.
    replace (((qx - px) * (ry - py) - (qy - py) * (rx - px)) * (by_ - ay))
      with ((ry - py) * (((bx - ax) * (py - ay) - (by_ - ay) * (px - ax))
                        - ((bx - ax) * (qy - ay) - (by_ - ay) * (qx - ax)))
            - (qy - py) * (((bx - ax) * (py - ay) - (by_ - ay) * (px - ax))
                          - ((bx - ax) * (ry - ay) - (by_ - ay) * (rx - ax))))
      by ring.
    rewrite Hp, Hq, Hr. ring. }
  apply Rmult_integral in Hx. apply Rmult_integral in Hy.
  destruct Hx as [Hx|Hx]; [exact Hx|]. destruct Hy as [Hy|Hy]; [exact Hy|].
  exfalso. apply Hab. f_equal; lra.
Qed.

(** A hull of two vertices or fewer means a collinear input. *)
Lemma small_hull_collinear (points : list point) (p q r : point) :
  (List.length (convex_hull points) <= 2)%nat ->
  In p points -> In q points -> In r points -> collinear p q r.
Proof.
  intros Hlen Hp Hq Hr.
  destruct (convex_hull_cases points)
    as [[Hl E]|[p1 [pn [mid [X [Y [Ep [EL [EU E]]]]]]]]].
  - apply (proj2 (sorted_set_in _ points)) in Hp, Hq, Hr.
    destruct (sorted_set points) as [|a [|b l]]; simpl in Hl; [contradiction| |lia].
    destruct Hp as [<-|[]], Hq as [<-|[]], Hr as [<-|[]].
    unfold collinear, _cross. ring.
  - assert (EX : X = [] /\ Y = []).
    { rewrite E in Hlen. rewrite length_app, !length_rev, !length_app in Hlen.
      simpl in Hlen. destruct X, Y; simpl in Hlen; try lia. now split. }
    destruct EX as [-> ->]. simpl in E.
    assert (Hne : p1 <> pn).
    { pose proof (sorted_set_sorted points) as Hs. rewrite Ep in Hs.
      inversion Hs as [|? ? _ Hf]; subst. rewrite Forall_forall in Hf.
      assert (H1 : lexlt p1 pn) by (apply Hf; apply in_or_app; right; now left).
      intros ->. exact (lexlt_irrefl _ H1). }
    assert (Hline : forall x, In x points -> _cross p1 pn x = 0).
    { intros x Hx.
      pose proof (input_inside_hull points x Hx p1 pn) as H1.
      pose proof (input_inside_hull points x Hx pn p1) as H2.
      rewrite E in H1, H2. simpl in H1, H2.
      specialize (H1 (or_introl eq_refl)).
      specialize (H2 (or_intror (or_introl eq_refl))).
      unfold _cross in *. lra. }
    apply (points_on_a_line p1 pn); auto.
Qed.

End HullFacts.

(* ================================================================= *)
(** * Properties of the grouping engine *)

Module GroupingFacts.
Import RCmp RCmpFacts Grouping GroupingInputs.
Local Open Scope R_scope.

(** *** The groups and the input *)

Lemma filter_split_permutation {A : Type} (f : A -> bool) (l : list A) :
  Permutation (filter f l ++ filter (fun x => negb (f x)) l) l.
Proof.
  induction l as [|x l IH]; simpl; [constructor|].
  destruct (f x); simpl.
  - now constructor.
  - apply Permutation_sym. apply Permutation_cons_app. now apply Permutation_sym.
Qed.

Lemma group_loop_skip (tol : tolerances) (base : Tendon) (rest : list Tendon) :
  effective_length base = 0 ->
  group_loop tol (base :: rest) = group_loop tol rest.
Proof.
  intros H. rewrite group_loop_equation_2.
  apply Reqb_true in H. now rewrite H.
Qed.

Lemma group_loop_pick (tol : tolerances) (base : Tendon) (rest : list Tendon) :
  effective_length base <> 0 ->
  group_loop tol (base :: rest) =
    (base :: filter (same_group tol base) rest)
    :: group_loop tol (filter (fun o => negb (same_group tol base o)) rest).
Proof.
  intros H. rewrite group_loop_equation_2.
  destruct (Reqb (effective_length base) 0) eqn:E; [|reflexivity].
  apply Reqb_true in E. contradiction.
Qed.

(** The groups together with the skipped representatives are the
    input, each tendon once. *)
Lemma group_loop_permutation (tol : tolerances) (n : nat) :
  forall ts : list Tendon, (List.length ts <= n)%nat ->
  exists dropped,
    Permutation (List.concat (group_loop tol ts) ++ dropped) ts /\
    Forall (fun t => effective_length t = 0) dropped.
Proof.
  induction n as [|n IH]; intros ts Hn.
  - destruct ts; [|simpl in Hn; lia].
    exists []. rewrite group_loop_equation_1. split; constructor.
  - destruct ts as [|base rest].
    + exists []. rewrite group_loop_equation_1. split; constructor.
    + simpl in Hn.
      destruct (Req_dec_T (effective_length base) 0) as [Hz|Hz].
      * rewrite (group_loop_skip tol base rest Hz).
        destruct (IH rest ltac:(lia)) as [d [Hp Hd]].
        exists (base :: d). split.
        -- apply Permutation_sym. apply Permutation_cons_app.
           now apply Permutation_sym.
        -- now constructor.
      * rewrite (group_loop_pick tol base rest Hz).
        set (rest' := filter (fun o => negb (same_group tol base o)) rest).
        assert (Hl : (List.length rest' <= n)%nat).
        { pose proof (filter_length_le (fun o => negb (same_group tol base o)) rest).
          unfold rest'. lia. }
        destruct (IH rest' Hl) as [d [Hp Hd]].
        exists d. split; [|assumption].
        simpl. constructor. rewrite <- app_assoc.
        eapply Permutation_trans.
        -- apply Permutation_app_head. exact Hp.
        -- apply filter_split_permutation.
Qed.

Lemma effective_length_degenerate : effective_length degenerate_tendon = 0.
Proof.
  unfold effective_length, degenerate_tendon, magnitude. simpl.
  assert (E : Reqb 0 0 = true) by (apply Reqb_true; reflexivity).
  rewrite E. replace (_ + _ + _) with 0 by ring. apply sqrt_0.
Qed.

(** C1 (as stated): the groups are a partition of every input.  A
    single tendon of stored length zero with coinciding end points is
    skipped: no group holds it. *)
Lemma C1_degenerate_tendon_is_dropped :
  group_tendons [degenerate_tendon] default_tolerances = [] /\
  ~ Permutation (List.concat (group_tendons [degenerate_tendon] default_tolerances))
                [degenerate_tendon].
Proof.
  assert (E : group_tendons [degenerate_tendon] default_tolerances = []).
  { unfold group_tendons.
    rewrite (group_loop_skip _ _ _ effective_length_degenerate).
    apply group_loop_equation_1. }
  split; [exact E|]. rewrite E. simpl. intros H.
  apply Permutation_nil in H. discriminate.
Qed.

(** C1 (amended): for every input and all tolerances, the groups
    together with the tendons skipped as representatives are the input
    as a multiset, and every skipped tendon has effective length zero;
    so each tendon is in at most one group, and when no tendon of the
    input has effective length zero the groups are a partition of the
    input. *)
Theorem C1_groups_partition :
  (forall (tendons : list Tendon) (tol : tolerances),
      exists dropped,
        Permutation (List.concat (group_tendons tendons tol) ++ dropped) tendons /\
        Forall (fun t => effective_length t = 0) dropped) /\
  (forall (tendons : list Tendon) (tol : tolerances),
      (forall t, In t tendons -> effective_length t <> 0) ->
      Permutation (List.concat (group_tendons tendons tol)) tendons).
Proof.
  split.
  - intros ts tol. unfold group_tendons.
    apply (group_loop_permutation tol (List.length ts)). lia.
  - intros ts tol Hnz. unfold group_tendons.
    destruct (group_loop_permutation tol (List.length ts) ts (le_n _))
      as [d [Hp Hd]].
    destruct d as [|t d]; [now rewrite app_nil_r in Hp|].
    exfalso. apply (Hnz t).
    + eapply Permutation_in; [exact Hp|]. apply in_or_app. right. now left.
    + now inversion Hd.
Qed.

Lemma effective_length_plain : effective_length plain_tendon = 2.
Proof.
  unfold effective_length, plain_tendon. simpl. rdecide. reflexivity.
Defined.

Lemma effective_length_beside : effective_length beside_tendon = 2.
Proof.
  unfold effective_length, beside_tendon. simpl. rdecide. reflexivity.
Defined.

Lemma C1_groups_partition_witness :
  Permutation
    (List.concat (group_tendons [plain_tendon; beside_tendon] default_tolerances))
    [plain_tendon; beside_tendon].
Proof.
  apply (proj2 C1_groups_partition).
  intros t [<-|[<-|[]]].
  - rewrite effective_length_plain. lra.
  - rewrite effective_length_beside. lra.
Defined.

(** *** Plan offset and shift *)

Lemma sqrt_square_over (c D : R) : 0 < D -> sqrt (c ^ 2 / D) = Rabs c / sqrt D.
Proof.
  intros HD. rewrite sqrt_div_alt by assumption.
  replace (c ^ 2) with (Rsqr c) by (unfold Rsqr; ring).
  now rewrite sqrt_Rsqr_abs.
Qed.

Lemma plan_length_square (t : Tendon) :
  plan_length t <> 0 -> 0 < axis_dx t ^ 2 + axis_dy t ^ 2.
Proof.
  unfold plan_length. intros H.
  destruct (Rle_lt_dec (axis_dx t ^ 2 + axis_dy t ^ 2) 0) as [Hle|Hlt]; [|assumption].
  exfalso. apply H.
  assert (E : axis_dx t ^ 2 + axis_dy t ^ 2 = 0).
  { pose proof (pow2_ge_0 (axis_dx t)). pose proof (pow2_ge_0 (axis_dy t)). lra. }
  rewrite E. apply sqrt_0.
Qed.

(** The squared distance from a point to a point of the axis line. *)
Lemma distance_to_axis_point (t : Tendon) (p : R * R) (s : R) :
  0 < axis_dx t ^ 2 + axis_dy t ^ 2 ->
  (fst p - fst (axis_point t s)) * (fst p - fst (axis_point t s))
  + (snd p - snd (axis_point t s)) * (snd p - snd (axis_point t s))
  = ((snd p - Revit.Y (start t)) * axis_dx t
     - (fst p - Revit.X (start t)) * axis_dy t) ^ 2
    / (axis_dx t ^ 2 + axis_dy t ^ 2)
    + (axis_dx t ^ 2 + axis_dy t ^ 2) * (s - foot_parameter t p) ^ 2.
Proof.
  intros HD. unfold axis_point, foot_parameter. simpl. field. lra.
Qed.

Lemma plan_offset_formula (base other : Tendon) :
  plan_offset base other =
    Rabs ((Revit.Y (start other) - Revit.Y (start base)) * axis_dx base
          - (Revit.X (start other) - Revit.X (start base)) * axis_dy base)
    / effective_length base.
Proof.
  unfold plan_offset, axis_dx, axis_dy. simpl. f_equal. f_equal. ring.
Qed.

Lemma plan_shift_formula (base other : Tendon) :
  plan_shift base other =
    Rabs ((Revit.X (start other) - Revit.X (start base)) * axis_dx base
          + (Revit.Y (start other) - Revit.Y (start base)) * axis_dy base)
    / effective_length base.
Proof.
  unfold plan_shift, axis_dx, axis_dy. simpl. f_equal.
  rewrite <- Rabs_Ropp. f_equal. ring.
Qed.

(** C5 (as stated): for every representative with a non-degenerate
    axis the quantity compared with [spacing_tol] is the distance from
    the candidate's start to the axis.  For a representative two units
    long in plan with stored length one, and a candidate starting one
    unit beside the axis, the quantity is 2 and the distance is 1. *)
Lemma C5_stored_length_scales_offset :
  plan_offset short_stored_tendon beside_tendon = 2 /\
  perpendicular_distance short_stored_tendon (plan_point (start beside_tendon)) = 1.
Proof.
  split.
  - unfold plan_offset, effective_length, short_stored_tendon, beside_tendon.
    simpl. rdecide.
    replace (Rabs _) with 2; [lra|].
    symmetry. rewrite Rabs_right; lra.
  - unfold perpendicular_distance, Geometry._point_distance, axis_point,
      foot_parameter, axis_dx, axis_dy, plan_point, short_stored_tendon,
      beside_tendon. simpl.
    replace (_ + _) with 1 by (field; lra). apply sqrt_1.
Qed.

(** C5 (amended): when the length the loop works with (the stored
    length, or the magnitude of [start - end] when it is unset or
    zero) equals the non-zero length of the axis in plan, the quantity
    compared with [spacing_tol] is the point-to-line distance from the
    candidate's start to the representative's axis, the least distance
    to a point of that line, and the quantity compared with
    [shift_tol] is the length of the projection of the start-to-start
    offset on the axis. *)
Theorem C5_offset_and_shift (base other : Tendon) :
  effective_length base = plan_length base ->
  plan_length base <> 0 ->
  plan_offset base other
    = perpendicular_distance base (plan_point (start other)) /\
  (forall s : R,
      plan_offset base other
        <= Geometry._point_distance (plan_point (start other)) (axis_point base s)) /\
  plan_shift base other
    = longitudinal_projection base (plan_point (start other)).
Proof.
  intros Heff Hnz.
  pose proof (plan_length_square base Hnz) as HD.
  assert (Hoff : forall s,
    Geometry._point_distance (plan_point (start other)) (axis_point base s)
    = sqrt (((Revit.Y (start other) - Revit.Y (start base)) * axis_dx base
             - (Revit.X (start other) - Revit.X (start base)) * axis_dy base) ^ 2
            / (axis_dx base ^ 2 + axis_dy base ^ 2)
            + (axis_dx base ^ 2 + axis_dy base ^ 2)
              * (s - foot_parameter base (plan_point (start other))) ^ 2)).
  { intros s. unfold Geometry._point_distance. cbv zeta.
    rewrite (distance_to_axis_point base (plan_point (start other)) s HD).
    reflexivity. }
  assert (Hperp : plan_offset base other
                  = perpendicular_distance base (plan_point (start other))).
  { unfold perpendicular_distance. rewrite Hoff.
    rewrite plan_offset_formula, Heff. unfold plan_length.
    rewrite <- sqrt_square_over by assumption. f_equal. ring. }
  split; [exact Hperp|split].
  - intros s. rewrite Hperp. unfold perpendicular_distance. rewrite !Hoff.
    apply sqrt_le_1_alt.
    set (fp := foot_parameter base (plan_point (start other))).
    assert (E0 : (fp - fp) ^ 2 = 0) by ring. rewrite E0.
    pose proof (pow2_ge_0 (s - fp)).
    assert (0 <= (axis_dx base ^ 2 + axis_dy base ^ 2) * (s - fp) ^ 2)
      by (apply Rmult_le_pos; lra).
    lra.
  - rewrite plan_shift_formula, Heff. unfold plan_length.
    rewrite <- sqrt_square_over by assumption.
    unfold longitudinal_projection, Geometry._point_distance, axis_point,
      foot_parameter, plan_point. simpl. f_equal. field. lra.
Qed.

Lemma C5_offset_and_shift_witness :
  plan_offset plain_tendon beside_tendon
    = perpendicular_distance plain_tendon (plan_point (start beside_tendon)) /\
  (forall s : R,
      plan_offset plain_tendon beside_tendon
        <= Geometry._point_distance (plan_point (start beside_tendon))
                                    (axis_point plain_tendon s)) /\
  plan_shift plain_tendon beside_tendon
    = longitudinal_projection plain_tendon (plan_point (start beside_tendon)).
Proof.
  assert (E : plan_length plain_tendon = 2).
  { unfold plan_length, axis_dx, axis_dy, plain_tendon. simpl.
    replace (_ + _) with (Rsqr 2) by (unfold Rsqr; ring).
    apply sqrt_Rsqr. lra. }
  apply C5_offset_and_shift.
  - rewrite effective_length_plain, E. reflexivity.
  - rewrite E. lra.
Defined.

End GroupingFacts.

(* ================================================================= *)
(** * Properties of the alignment engine *)

Module AlignmentFacts.
Import RCmp RCmpFacts Geometry GeometryInputs Alignment.
Local Open Scope R_scope.

(** An evaluation always leaves a best fit in the cell. *)
Lemma evaluate_some (slab hull : list point) (c : point) (a : R) (best : option fit) :
  exists b, _evaluate slab hull c a best = Some b.
Proof.
  unfold _evaluate.
  destruct (poly_bounds (rotate hull a c)) as [[[tx0 tx1] ty0] ty1].
  destruct (poly_bounds slab) as [[[sx0 sx1] sy0] sy1].
  destruct (vertex_scan _ _ _) as [[bl dx] dy].
  destruct (improve _ _ _ _) as [[e x] y].
  destruct best as [b|]; [|eauto].
  destruct (Rltb e (fit_err b)); eauto.
Qed.

(** More fuel does not change a finished sweep. *)
Lemma sweep_more_fuel (eval : R -> option fit -> option fit) (step : R) :
  forall (fuel : nat) (angle : R) (best r : option fit),
    sweep fuel eval step angle best = Some r ->
    forall fuel', (fuel <= fuel')%nat -> sweep fuel' eval step angle best = Some r.
Proof.
  induction fuel as [|fuel IH]; intros angle best r H fuel' Hle; [discriminate|].
  destruct fuel' as [|fuel']; [lia|]. simpl in *.
  destruct (Rltb angle (2 * PI)); [|assumption].
  apply (IH _ _ _ H). lia.
Qed.

(** With a positive step the sweep ends: [n] steps beyond the full
    turn need [n + 1] units of fuel at most. *)
Lemma sweep_ends (eval : R -> option fit -> option fit) (step : R) :
  forall (n : nat) (angle : R) (best : option fit),
    2 * PI <= angle + INR n * step ->
    exists r, sweep (S n) eval step angle best = Some r.
Proof.
  induction n as [|n IH]; intros angle best H.
  - simpl in *. assert (E : Rltb angle (2 * PI) = false) by (apply Rltb_false; lra).
    rewrite E. eauto.
  - cbn [sweep]. destruct (Rltb angle (2 * PI)); [|eauto].
    apply IH. rewrite S_INR in H. lra.
Qed.

(** A sweep that starts with a fit, or evaluates once, ends with one. *)
Lemma sweep_keeps_some (eval : R -> option fit -> option fit) (step : R) :
  (forall a b, exists b', eval a b = Some b') ->
  forall (fuel : nat) (angle : R) (best r : option fit),
    sweep fuel eval step angle best = Some r ->
    best <> None \/ angle < 2 * PI ->
    r <> None.
Proof.
  intros Hev. induction fuel as [|fuel IH]; intros angle best r H Hs; [discriminate|].
  simpl in H. destruct (Rltb angle (2 * PI)) eqn:E.
  - apply (IH _ _ _ H). left. destruct (Hev angle best) as [b' ->]. discriminate.
  - inversion H; subst. destruct Hs as [Hs|Hs]; [assumption|].
    apply Rltb_false in E. lra.
Qed.

Lemma steps_beyond_full_turn (step : R) :
  0 < step -> exists n : nat, 2 * PI <= 0 + INR n * step.
Proof.
  intros Hs. pose proof PI_RGT_0 as Hpi.
  set (q := 2 * PI / step).
  assert (Hq : 0 < q) by (unfold q; apply Rdiv_lt_0_compat; lra).
  destruct (archimed q) as [Hup _].
  assert (Hz : (0 <= up q)%Z).
  { apply le_IZR. lra. }
  exists (Z.to_nat (up q)).
  rewrite INR_IZR_INZ, Z2Nat.id by assumption.
  assert (q * step = 2 * PI) by (unfold q; field; lra).
  assert (q * step <= IZR (up q) * step) by (apply Rmult_le_compat_r; lra).
  lra.
Qed.

Lemma refine_keeps_some (eval : R -> option fit -> option fit) (angles : list R) :
  (forall a b, exists b', eval a b = Some b') ->
  forall b0, exists b, fold_left (fun b a => eval a b) angles (Some b0) = Some b.
Proof.
  intros Hev. induction angles as [|a angles IH]; intros b0; simpl; [eauto|].
  destruct (Hev a (Some b0)) as [b' ->]. apply IH.
Qed.

(** With a non-empty slab hull, a non-empty tendon hull and, when a
    rotation is searched, a positive angle step, the search reaches the
    final decision, with the same fit for every sufficient fuel. *)
Lemma search_reaches_decision (slab tendon_pts : list point) (cfg : config) :
  slab <> [] ->
  convex_hull tendon_pts <> [] ->
  (allow_rotation cfg = true -> 0 < angle_step_deg cfg) ->
  exists (fuel0 : nat) (b : fit), forall fuel, (fuel0 <= fuel)%nat ->
    best_after_snap fuel (Some slab) tendon_pts cfg = Some (Some b).
Proof.
  intros Hslab Hhull Hstep.
  unfold best_after_snap.
  destruct slab as [|s0 slab]; [contradiction|].
  destruct (convex_hull tendon_pts) as [|h0 hull] eqn:Eh; [contradiction|].
  set (eval := _evaluate (s0 :: slab) (h0 :: hull) (centroid (h0 :: hull))).
  assert (Hev : forall a b, exists b', eval a b = Some b')
    by (intros; apply evaluate_some).
  destruct (allow_rotation cfg) eqn:Erot.
  - assert (Hrad : 0 < radians (angle_step_deg cfg)).
    { unfold radians. pose proof PI_RGT_0. specialize (Hstep eq_refl).
      apply Rmult_lt_0_compat; [assumption|]. apply Rdiv_lt_0_compat; lra. }
    destruct (steps_beyond_full_turn _ Hrad) as [n Hn].
    destruct (sweep_ends eval _ n 0 None Hn) as [r Hr].
    assert (Hne : r <> None).
    { apply (sweep_keeps_some eval _ Hev _ _ _ _ Hr). right.
      pose proof PI_RGT_0. lra. }
    destruct r as [best0|]; [|contradiction].
    destruct (refine_keeps_some eval
                (refine_angles (snd (fst (fst best0)))
                               (radians (refine_step_deg cfg))) Hev best0)
      as [b Hb].
    exists (S n), (snap (s0 :: slab) (h0 :: hull) (centroid (h0 :: hull))
                        (tolerance_ft cfg) b).
    intros fuel Hf. rewrite (sweep_more_fuel eval _ _ _ _ _ Hr fuel Hf).
    rewrite Hb. reflexivity.
  - destruct (Hev 0 None) as [b Hb].
    exists 0%nat, (snap (s0 :: slab) (h0 :: hull) (centroid (h0 :: hull))
                        (tolerance_ft cfg) b).
    intros fuel _. rewrite Hb. reflexivity.
Qed.

Lemma decide_none (max_error : R) (b : fit) :
  decide max_error b = None <-> max_error < fit_err b.
Proof.
  unfold decide, fit_err. destruct b as [[[e a] x] y]. simpl.
  destruct (Rltb max_error e) eqn:E.
  - apply Rltb_true in E. split; [intros; assumption|reflexivity].
  - apply Rltb_false in E. split; [discriminate|lra].
Qed.

Lemma decide_some (max_error : R) (b : fit) (t : transform) :
  decide max_error b = Some t ->
  reported_error t = fit_err b /\ reported_error t <= max_error.
Proof.
  unfold decide, fit_err, reported_error. destruct b as [[[e a] x] y]. simpl.
  destruct (Rltb max_error e) eqn:E; [discriminate|].
  apply Rltb_false in E. intros H. inversion H; subst. simpl. split; [reflexivity|lra].
Qed.

(** C7: with a non-empty target hull and a non-empty source hull (and
    a positive angle step when a rotation is searched, so that the
    sweep ends), the function returns; it returns [None] exactly when
    the best fit error after the snap exceeds [max_error_ft], and
    otherwise a transform whose reported error, that same error, is at
    most [max_error_ft]. *)
Theorem C7_not_found_iff_error_exceeds (slab tendon_pts : list point) (cfg : config) :
  slab <> [] ->
  convex_hull tendon_pts <> [] ->
  (allow_rotation cfg = true -> 0 < angle_step_deg cfg) ->
  exists (fuel0 : nat) (b : fit), forall fuel, (fuel0 <= fuel)%nat ->
    best_after_snap fuel (Some slab) tendon_pts cfg = Some (Some b) /\
    (exists r, find_best_transform fuel (Some slab) tendon_pts cfg = Some r) /\
    (find_best_transform fuel (Some slab) tendon_pts cfg = Some None
       <-> max_error_ft cfg < fit_err b) /\
    (forall t, find_best_transform fuel (Some slab) tendon_pts cfg = Some (Some t) ->
               reported_error t = fit_err b /\
               reported_error t <= max_error_ft cfg).
Proof.
  intros Hslab Hhull Hstep.
  destruct (search_reaches_decision slab tendon_pts cfg Hslab Hhull Hstep)
    as [fuel0 [b Hb]].
  exists fuel0, b. intros fuel Hf. specialize (Hb fuel Hf).
  unfold find_best_transform. rewrite Hb.
  split; [reflexivity|split; [eauto|split]].
  - split.
    + intros H. apply decide_none. now inversion H.
    + intros H. apply decide_none in H. now rewrite H.
  - intros t H. apply decide_some. now inversion H.
Qed.

Lemma C7_not_found_iff_error_exceeds_witness :
  exists (fuel0 : nat) (b : fit), forall fuel, (fuel0 <= fuel)%nat ->
    best_after_snap fuel (Some triangle) [inner_point] default_config = Some (Some b) /\
    (exists r, find_best_transform fuel (Some triangle) [inner_point] default_config
               = Some r) /\
    (find_best_transform fuel (Some triangle) [inner_point] default_config = Some None
       <-> max_error_ft default_config < fit_err b) /\
    (forall t, find_best_transform fuel (Some triangle) [inner_point] default_config
               = Some (Some t) ->
               reported_error t = fit_err b /\
               reported_error t <= max_error_ft default_config).
Proof.
  apply C7_not_found_iff_error_exceeds.
  - unfold triangle. discriminate.
  - unfold inner_point. simpl. discriminate.
  - intros _. simpl. lra.
Defined.

End AlignmentFacts.

(* ================================================================= *)
(** * Further properties of the geometry kernel *)

Module GeometryMoreFacts.
Import RCmp RCmpFacts Geometry GeometryNotions GeometryFacts.
Local Open Scope R_scope.

(** *** Minima and maxima *)

Lemma py_min_in (xs : list R) : forall x, In (py_min x xs) (x :: xs).
Proof.
  unfold py_min. induction xs as [|v xs IH]; intros x; simpl; [now left|].
  destruct (Rltb v x).
  - destruct (IH v) as [H|H]; [right; left; exact H|right; right; exact H].
  - destruct (IH x) as [H|H]; [left; exact H|right; right; exact H].
Qed.

Lemma py_max_seq_ge_first (xs : list R) : forall x, x <= py_max_seq x xs.
Proof.
  unfold py_max_seq. induction xs as [|v xs IH]; intros x; simpl; [lra|].
  destruct (Rltb x v) eqn:E.
  - apply Rltb_true in E. specialize (IH v). lra.
  - apply IH.
Qed.

Lemma py_max_seq_ge_in (xs : list R) : forall x v, In v xs -> v <= py_max_seq x xs.
Proof.
  unfold py_max_seq. induction xs as [|w xs IH]; intros x v Hin; simpl; [contradiction|].
  destruct Hin as [->|Hin].
  - destruct (Rltb x v) eqn:E.
    + apply (py_max_seq_ge_first xs v).
    + apply Rltb_false in E. pose proof (py_max_seq_ge_first xs x).
      unfold py_max_seq in *. lra.
  - apply IH, Hin.
Qed.

Lemma py_max_seq_in (xs : list R) : forall x, In (py_max_seq x xs) (x :: xs).
Proof.
  unfold py_max_seq. induction xs as [|v xs IH]; intros x; simpl; [now left|].
  destruct (Rltb x v).
  - destruct (IH v) as [H|H]; [right; left; exact H|right; right; exact H].
  - destruct (IH x) as [H|H]; [left; exact H|right; right; exact H].
Qed.

(** *** [rotate], point by point *)

Lemma rotate_map (points : list point) (a : R) (o : point) :
  rotate points a o = map (rotate_point a o) points.
Proof. reflexivity. Qed.

(** *** [poly_bounds] *)

(** X1: the box of a non-empty point set is tight: each bound is a
    coordinate of some point, and every point is within the bounds. *)
Theorem poly_bounds_tight (points : list point) :
  points <> [] ->
  let '(min_x, max_x, min_y, max_y) := poly_bounds points in
  (In min_x (map fst points) /\ In max_x (map fst points) /\
   In min_y (map snd points) /\ In max_y (map snd points)) /\
  forall p, In p points ->
    min_x <= fst p <= max_x /\ min_y <= snd p <= max_y.
Proof.
  intros Hne. destruct points as [|q qs]; [contradiction|].
  unfold poly_bounds. split.
  - repeat split;
      first [apply (py_min_in (map fst qs) (fst q))
            |apply (py_max_seq_in (map fst qs) (fst q))
            |apply (py_min_in (map snd qs) (snd q))
            |apply (py_max_seq_in (map snd qs) (snd q))].
  - intros p [->|Hp].
    + repeat split;
        first [apply py_min_le_first|apply py_max_seq_ge_first].
    + repeat split;
        first [apply py_min_le_in; now apply in_map
              |apply py_max_seq_ge_in; now apply in_map].
Qed.

Lemma poly_bounds_tight_witness :
  let '(min_x, max_x, min_y, max_y) := poly_bounds [(1, 5); (3, 4)] in
  (In min_x (map fst [(1, 5); (3, 4)]) /\ In max_x (map fst [(1, 5); (3, 4)]) /\
   In min_y (map snd [(1, 5); (3, 4)]) /\ In max_y (map snd [(1, 5); (3, 4)])) /\
  forall p, In p [(1, 5); (3, 4)] ->
    min_x <= fst p <= max_x /\ min_y <= snd p <= max_y.
Proof. apply (poly_bounds_tight [(1, 5); (3, 4)]). discriminate. Defined.

(** *** The directed distance as a maximum of minima *)

Lemma min_distance_attained (pa : point) (b : list point) :
  b <> [] -> exists pb, In pb b /\ min_distance pa b = _point_distance pa pb.
Proof.
  intros Hne. destruct b as [|q b]; [contradiction|]. simpl.
  destruct (py_min_in (map (_point_distance pa) b) (_point_distance pa q)) as [H|H].
  - exists q. split; [now left|now symmetry].
  - apply in_map_iff in H. destruct H as [pb [E Hpb]].
    exists pb. split; [now right|now symmetry].
Qed.

Lemma min_distance_le (pa pb : point) (b : list point) :
  In pb b -> min_distance pa b <= _point_distance pa pb.
Proof.
  intros Hin. destruct b as [|q b]; [contradiction|]. simpl.
  destruct Hin as [->|Hin]; [apply py_min_le_first|].
  apply py_min_le_in. now apply in_map.
Qed.

Lemma dh_loop_ge_in (b a : list point) (pa : point) : forall m,
  In pa a -> min_distance pa b <= dh_loop b a m.
Proof.
  induction a as [|x a IH]; intros m Hin; [contradiction|].
  change (dh_loop b (x :: a) m)
    with (dh_loop b a (if Rltb m (min_distance x b) then min_distance x b else m)).
  destruct Hin as [->|Hin]; [|now apply IH].
  eapply Rle_trans; [|apply dh_loop_ge_start].
  destruct (Rltb m (min_distance pa b)) eqn:E; [lra|].
  now apply Rltb_false in E.
Qed.

Lemma dh_loop_attained (b a : list point) : forall m,
  dh_loop b a m = m \/ exists pa, In pa a /\ dh_loop b a m = min_distance pa b.
Proof.
  induction a as [|x a IH]; intros m; [now left|].
  change (dh_loop b (x :: a) m)
    with (dh_loop b a (if Rltb m (min_distance x b) then min_distance x b else m)).
  destruct (Rltb m (min_distance x b)).
  - destruct (IH (min_distance x b)) as [H|[pa [Hin H]]].
    + right. exists x. split; [now left|exact H].
    + right. exists pa. split; [now right|exact H].
  - destruct (IH m) as [H|[pa [Hin H]]]; [now left|].
    right. exists pa. split; [now right|exact H].
Qed.

(** X5: between non-empty sets the directed distance is the greatest,
    over the points of [a], of the distance to the nearest point of
    [b]: every point of [a] has a point of [b] within that distance,
    and some point of [a] has no point of [b] nearer than it. *)
Theorem directed_hausdorff_max_min (a b : list point) :
  a <> [] -> b <> [] ->
  (forall pa, In pa a ->
     exists pb, In pb b /\ _point_distance pa pb <= _directed_hausdorff a b) /\
  (exists pa, In pa a /\
     forall pb, In pb b -> _directed_hausdorff a b <= _point_distance pa pb).
Proof.
  intros Ha Hb. rewrite directed_hausdorff_loop by assumption. split.
  - intros pa Hpa. destruct (min_distance_attained pa b Hb) as [pb [Hin E]].
    exists pb. split; [assumption|]. rewrite <- E. now apply dh_loop_ge_in.
  - destruct (dh_loop_attained b a 0) as [E|[pa [Hin E]]].
    + destruct a as [|x a]; [contradiction|]. exists x. split; [now left|].
      intros pb _. rewrite E. apply point_distance_nonneg.
    + exists pa. split; [assumption|]. intros pb Hpb. rewrite E.
      now apply min_distance_le.
Qed.

Lemma directed_hausdorff_max_min_witness :
  (forall pa, In pa [(0, 0); (3, 4)] ->
     exists pb, In pb [(0, 0)] /\
       _point_distance pa pb <= _directed_hausdorff [(0, 0); (3, 4)] [(0, 0)]) /\
  (exists pa, In pa [(0, 0); (3, 4)] /\
     forall pb, In pb [(0, 0)] ->
       _directed_hausdorff [(0, 0); (3, 4)] [(0, 0)] <= _point_distance pa pb).
Proof. apply directed_hausdorff_max_min; discriminate. Defined.

(** *** Distance zero *)

Lemma sum_squares_nonneg (x y : R) : 0 <= x * x + y * y.
Proof. nra. Qed.

Lemma sum_squares_zero (x y : R) : x * x + y * y = 0 -> x = 0 /\ y = 0.
Proof. intros H. split; nra. Qed.

Lemma point_distance_zero (p q : point) : _point_distance p q = 0 -> p = q.
Proof.
  destruct p as [px py], q as [qx qy].
  unfold _point_distance. cbn [fst snd]. intros H.
  apply (sqrt_eq_0 _ (sum_squares_nonneg (px - qx) (py - qy))) in H.
  apply sum_squares_zero in H. destruct H as [H1 H2].
  f_equal; lra.
Qed.

Lemma min_distance_zero (pa : point) (b : list point) :
  b <> [] -> min_distance pa b = 0 -> In pa b.
Proof.
  intros Hb H. destruct (min_distance_attained pa b Hb) as [pb [Hin E]].
  rewrite H in E. symmetry in E. apply point_distance_zero in E. now subst.
Qed.

Lemma directed_hausdorff_zero (a b : list point) :
  b <> [] -> (_directed_hausdorff a b = 0 <-> incl a b).
Proof.
  intros Hb. destruct a as [|x a].
  - split; [intros _ p []|reflexivity].
  - rewrite directed_hausdorff_loop by (assumption || discriminate). split.
    + intros H p Hp. apply min_distance_zero; [assumption|].
      apply Rle_antisym; [|apply min_distance_nonneg].
      rewrite <- H. now apply dh_loop_ge_in.
    + intros H. apply dh_loop_all_zero. intros p Hp.
      apply min_distance_member. now apply H.
Qed.

Lemma py_max_zero (x y : R) : 0 <= x -> 0 <= y -> (py_max x y = 0 <-> x = 0 /\ y = 0).
Proof.
  intros Hx Hy. unfold py_max. destruct (Rltb x y) eqn:E.
  - apply Rltb_true in E. split; [intros; lra|intros [_ H]; exact H].
  - apply Rltb_false in E. split; [intros; lra|intros [H _]; exact H].
Qed.

(** X6: between non-empty sets the directed distance is 0 exactly
    when every point of the first set is a point of the second, and
    the symmetric distance is 0 exactly when both have the same
    points. *)
Theorem hausdorff_zero_iff_same_points (a b : list point) :
  a <> [] -> b <> [] ->
  (_directed_hausdorff a b = 0 <-> forall p, In p a -> In p b) /\
  (hausdorff_distance a b = 0 <-> same_points a b).
Proof.
  intros Ha Hb. split; [exact (directed_hausdorff_zero a b Hb)|].
  unfold hausdorff_distance, same_points.
  rewrite py_max_zero by apply directed_hausdorff_nonneg.
  rewrite (directed_hausdorff_zero a b Hb), (directed_hausdorff_zero b a Ha).
  unfold incl. split.
  - intros [H1 H2] p. split; auto.
  - intros H. split; intros p; apply H.
Qed.

Lemma hausdorff_zero_iff_same_points_witness :
  (_directed_hausdorff [(1, 2)] [(1, 2); (3, 4)] = 0
   <-> forall p, In p [(1, 2)] -> In p [(1, 2); (3, 4)]) /\
  (hausdorff_distance [(1, 2)] [(1, 2); (3, 4)] = 0
   <-> same_points [(1, 2)] [(1, 2); (3, 4)]).
Proof. apply hausdorff_zero_iff_same_points; discriminate. Defined.

End GeometryMoreFacts.

(* ================================================================= *)
(** * Further properties of the convex hull *)

Module HullMoreFacts.
Import RCmp RCmpFacts Geometry HullNotions GeometryNotions GeometryInputs.
Import GeometryFacts HullFacts GeometryMoreFacts.
Local Open Scope R_scope.

(** *** The hull depends on the set of points only *)

Lemma sorted_same_points (l1 : list point) : forall l2,
  StronglySorted lexlt l1 -> StronglySorted lexlt l2 ->
  (forall p, In p l1 <-> In p l2) -> l1 = l2.
Proof.
  induction l1 as [|x l1 IH]; intros l2 H1 H2 Hin.
  - destruct l2 as [|y l2]; [reflexivity|].
    exfalso. apply (proj2 (Hin y)). now left.
  - destruct l2 as [|y l2]; [exfalso; apply (proj1 (Hin x)); now left|].
    inversion H1 as [|? ? S1 F1]; subst. inversion H2 as [|? ? S2 F2]; subst.
    rewrite Forall_forall in F1, F2.
    assert (E : x = y).
    { destruct (proj1 (Hin x) (or_introl eq_refl)) as [Hx|Hx]; [now symmetry|].
      destruct (proj2 (Hin y) (or_introl eq_refl)) as [Hy|Hy]; [assumption|].
      exfalso. exact (lexlt_asym _ _ (F1 _ Hy) (F2 _ Hx)). }
    subst y. f_equal. apply IH; try assumption.
    intros p. split; intros Hp.
    + destruct (proj1 (Hin p) (or_intror Hp)) as [Hx|Hx]; [|assumption].
      subst p. exfalso. exact (lexlt_irrefl _ (F1 _ Hp)).
    + destruct (proj2 (Hin p) (or_intror Hp)) as [Hx|Hx]; [|assumption].
      subst p. exfalso. exact (lexlt_irrefl _ (F2 _ Hp)).
Qed.

Lemma sorted_set_same_points (a b : list point) :
  same_points a b -> sorted_set a = sorted_set b.
Proof.
  intros H. apply sorted_same_points; try apply sorted_set_sorted.
  intros p. rewrite !sorted_set_in. apply H.
Qed.

(** X8: the hull depends only on which points are given, not on their
    order or on repetitions. *)
Theorem convex_hull_same_points (a b : list point) :
  same_points a b -> convex_hull a = convex_hull b.
Proof.
  intros H. unfold convex_hull. now rewrite (sorted_set_same_points a b H).
Qed.

Lemma convex_hull_same_points_witness :
  convex_hull [(0, 0); (1, 0); (0, 0); (0, 1)]
  = convex_hull [(0, 1); (1, 0); (0, 0)].
Proof.
  apply convex_hull_same_points. intros p. simpl. tauto.
Defined.

(** *** The first vertex *)

Lemma sorted_last_greatest (l : list point) (y : point) :
  StronglySorted lexlt (l ++ [y]) -> forall x, In x l -> lexlt x y.
Proof.
  induction l as [|z l IH]; intros Hs x Hx; [contradiction|].
  simpl in Hs. inversion Hs as [|? ? S F]; subst. rewrite Forall_forall in F.
  destruct Hx as [->|Hx]; [apply F, in_or_app; right; now left|].
  now apply IH.
Qed.

(** X9: the hull of no points is empty; the hull of a non-empty
    input starts at the least input point in the order of tuples and
    has the greatest input point among its vertices. *)
Theorem convex_hull_extreme_points (points : list point) :
  convex_hull [] = [] /\
  (points <> [] ->
   exists p1 rest pn,
     convex_hull points = p1 :: rest /\
     In p1 points /\ (forall q, In q points -> lexle p1 q) /\
     In pn (convex_hull points) /\
     In pn points /\ (forall q, In q points -> lexle q pn)).
Proof.
  split; [reflexivity|]. intros Hne.
  pose proof (sorted_set_sorted points) as Hs.
  destruct (convex_hull_cases points)
    as [[Hlen E]|[p1 [pn [mid [X [Y [Ep [EL [EU E]]]]]]]]].
  - destruct (sorted_set points) as [|p [|p' l]] eqn:Es; simpl in Hlen; [|clear Hlen|lia].
    + exfalso. destruct points as [|q qs]; [contradiction|].
      assert (H : In q (sorted_set (q :: qs))) by (apply sorted_set_in; now left).
      rewrite Es in H. contradiction.
    + assert (Hall : forall q, In q points -> q = p).
      { intros q Hq. apply (proj2 (sorted_set_in q points)) in Hq.
        rewrite Es in Hq. destruct Hq as [Hq|[]]. now symmetry. }
      assert (Hp : In p points) by (apply sorted_set_in; rewrite Es; now left).
      exists p, [], p. rewrite E. repeat split; try assumption; try (now left);
        intros q Hq; right; rewrite (Hall q Hq); reflexivity.
  - assert (H1 : In p1 points) by (apply sorted_set_in; rewrite Ep; now left).
    assert (Hn : In pn points).
    { apply sorted_set_in. rewrite Ep. right. apply in_or_app. right. now left. }
    exists p1, (rev X ++ rev (Y ++ [pn])), pn. repeat split; try assumption.
    + rewrite E, rev_app_distr. reflexivity.
    + intros q Hq. apply (proj2 (sorted_set_in q points)) in Hq.
      rewrite Ep in Hq, Hs. inversion Hs as [|? ? S F]; subst.
      rewrite Forall_forall in F. destruct Hq as [Hq|Hq]; [now right|].
      left. now apply F.
    + rewrite E. apply in_or_app. right. apply in_rev. rewrite rev_involutive.
      apply in_or_app. right. now left.
    + intros q Hq. apply (proj2 (sorted_set_in q points)) in Hq.
      rewrite Ep in Hq, Hs.
      change (p1 :: mid ++ [pn]) with ((p1 :: mid) ++ [pn]) in Hq, Hs.
      apply in_app_or in Hq. destruct Hq as [Hq|[Hq|[]]]; [|now right].
      left. exact (sorted_last_greatest _ _ Hs q Hq).
Qed.

Lemma convex_hull_extreme_points_witness :
  convex_hull [] = [] /\
  exists p1 rest pn,
    convex_hull square_points = p1 :: rest /\
    In p1 square_points /\ (forall q, In q square_points -> lexle p1 q) /\
    In pn (convex_hull square_points) /\
    In pn square_points /\ (forall q, In q square_points -> lexle q pn).
Proof.
  destruct (convex_hull_extreme_points square_points) as [H0 H].
  split; [exact H0|]. apply H. discriminate.
Defined.

(** *** Point sets with no point outside *)

Lemma outside_none_zero (a h : list point) :
  (forall p, In p a -> pt_in_convex p h = true) ->
  directed_hausdorff_outside a h = 0.
Proof.
  intros Hin. unfold directed_hausdorff_outside.
  destruct a as [|pa a]; [reflexivity|]. destruct h as [|q h]; [reflexivity|].
  set (g := fun p => negb (pt_in_convex p (q :: h))).
  destruct (filter g (pa :: a)) as [|o os] eqn:Ef; [reflexivity|].
  assert (Ho : In o (filter g (pa :: a))) by (rewrite Ef; now left).
  apply filter_In in Ho. destruct Ho as [Ho1 Ho2].
  unfold g in Ho2. rewrite (Hin o Ho1) in Ho2. discriminate.
Qed.

End HullMoreFacts.

(* ================================================================= *)
(** * Further properties of the grouping engine *)

Module GroupingMoreFacts.
Import RCmp RCmpFacts Grouping GroupingInputs GroupingNotions GroupingFacts.
Local Open Scope R_scope.

(** *** The shape of the result *)

(** The three cases of the [while] loop, as an induction principle. *)
Lemma group_loop_cases (tol : tolerances)
      (P : list Tendon -> list (list Tendon) -> Prop) :
  P [] [] ->
  (forall base rest,
      effective_length base = 0 ->
      P rest (group_loop tol rest) -> P (base :: rest) (group_loop tol rest)) ->
  (forall base rest,
      effective_length base <> 0 ->
      P (filter (fun o => negb (same_group tol base o)) rest)
        (group_loop tol (filter (fun o => negb (same_group tol base o)) rest)) ->
      P (base :: rest)
        ((base :: filter (same_group tol base) rest)
         :: group_loop tol (filter (fun o => negb (same_group tol base o)) rest))) ->
  forall ts, P ts (group_loop tol ts).
Proof.
  intros H0 Hskip Hpick.
  assert (H : forall n ts, (List.length ts <= n)%nat -> P ts (group_loop tol ts)).
  { induction n as [|n IH]; intros ts Hn.
    - destruct ts; [|simpl in Hn; lia]. now rewrite group_loop_equation_1.
    - destruct ts as [|base rest]; [now rewrite group_loop_equation_1|].
      simpl in Hn.
      destruct (Req_dec_T (effective_length base) 0) as [Hz|Hz].
      + rewrite (group_loop_skip tol base rest Hz).
        apply Hskip; [assumption|]. apply IH. lia.
      + rewrite (group_loop_pick tol base rest Hz).
        apply Hpick; [assumption|]. apply IH.
        pose proof (filter_length_le (fun o => negb (same_group tol base o)) rest).
        lia. }
  intros ts. apply (H (List.length ts)). lia.
Qed.

(** X12: every group starts with its representative, a tendon of
    non-zero effective length, and every other member passed the test
    against that representative; there are no more groups than
    tendons. *)
Theorem groups_have_representatives (tendons : list Tendon) (tol : tolerances) :
  Forall (fun g => exists base others,
              g = base :: others /\
              effective_length base <> 0 /\
              Forall (fun o => same_group tol base o = true) others)
         (group_tendons tendons tol) /\
  (List.length (group_tendons tendons tol) <= List.length tendons)%nat.
Proof.
  unfold group_tendons.
  apply (group_loop_cases tol (fun ts gs =>
    Forall (fun g => exists base others,
                g = base :: others /\
                effective_length base <> 0 /\
                Forall (fun o => same_group tol base o = true) others) gs /\
    (List.length gs <= List.length ts)%nat)).
  - split; [constructor|simpl; lia].
  - intros base rest _ [HF Hl]. split; [assumption|simpl; lia].
  - intros base rest Hz [HF Hl]. split.
    + constructor; [|assumption].
      exists base, (filter (same_group tol base) rest).
      repeat split; [assumption|].
      apply Forall_forall. intros o Ho. apply filter_In in Ho. tauto.
    + pose proof (filter_length_le (fun o => negb (same_group tol base o)) rest).
      simpl. lia.
Qed.

(** X13: the members of every group are tendons of the input, and a
    tendon of a later group failed the test against the representative
    of every earlier group. *)
Theorem groups_are_separated (tendons : list Tendon) (tol : tolerances) :
  (forall g t, In g (group_tendons tendons tol) -> In t g -> In t tendons) /\
  ForallOrdPairs
    (fun g1 g2 => forall b1 t,
         hd_error g1 = Some b1 -> In t g2 -> same_group tol b1 t = false)
    (group_tendons tendons tol).
Proof.
  unfold group_tendons.
  apply (group_loop_cases tol (fun ts gs =>
    (forall g t, In g gs -> In t g -> In t ts) /\
    ForallOrdPairs
      (fun g1 g2 => forall b1 t,
           hd_error g1 = Some b1 -> In t g2 -> same_group tol b1 t = false) gs)).
  - split; [intros g t []|constructor].
  - intros base rest _ [Hin Hsep]. split; [|assumption].
    intros g t Hg Ht. right. exact (Hin g t Hg Ht).
  - intros base rest Hz [Hin Hsep]. split.
    + intros g t [<-|Hg] Ht.
      * destruct Ht as [<-|Ht]; [now left|].
        right. apply filter_In in Ht. tauto.
      * right. pose proof (Hin g t Hg Ht) as H. apply filter_In in H. tauto.
    + constructor; [|assumption].
      apply Forall_forall. intros g2 Hg2 b1 t Hb Ht.
      simpl in Hb. inversion Hb; subst b1.
      pose proof (Hin g2 t Hg2 Ht) as H. apply filter_In in H.
      destruct H as [_ H]. now apply negb_true_iff in H.
Qed.

(** *** Angles *)

Lemma angle_between_clamp (v1 v2 : XYZ) :
  _angle_between v1 v2
  = degrees (acos (clamp (Revit.DotProduct (_direction v1) (_direction v2)))).
Proof. reflexivity. Qed.

Lemma degrees_PI : degrees PI = 180.
Proof. unfold degrees. field. apply PI_neq0. Qed.

Lemma angle_between_bounds (v1 v2 : XYZ) : 0 <= _angle_between v1 v2 <= 180.
Proof.
  rewrite angle_between_clamp.
  destruct (acos_bound (clamp (Revit.DotProduct (_direction v1) (_direction v2))))
    as [H1 H2].
  assert (Hk : 0 <= 180 / PI).
  { apply Rlt_le, Rdiv_lt_0_compat; [lra|apply PI_RGT_0]. }
  split.
  - unfold degrees. now apply Rmult_le_pos.
  - rewrite <- degrees_PI. unfold degrees. now apply Rmult_le_compat_r.
Qed.

Lemma angle_between_sym (v1 v2 : XYZ) : _angle_between v1 v2 = _angle_between v2 v1.
Proof.
  rewrite !angle_between_clamp. do 3 f_equal. unfold Revit.DotProduct. ring.
Qed.

(** X14: the angle between two vectors is between 0 and 180 degrees
    and does not depend on their order. *)
Theorem angle_between_range_and_symmetry :
  (forall v1 v2 : XYZ, 0 <= _angle_between v1 v2 <= 180) /\
  (forall v1 v2 : XYZ, _angle_between v1 v2 = _angle_between v2 v1).
Proof. split; [exact angle_between_bounds|exact angle_between_sym]. Qed.

(** *** Tendons whose end points coincide *)

Lemma magnitude_zero_vector (s : XYZ) : magnitude (Revit.sub s s) = 0.
Proof.
  unfold magnitude, Revit.sub. simpl.
  replace (_ + _ + _) with 0 by ring. apply sqrt_0.
Qed.

Lemma clamp_0 : clamp 0 = 0.
Proof. unfold clamp, py_max, py_min. simpl. rdecide. reflexivity. Qed.

Lemma angle_with_zero_vector (s : XYZ) (w : XYZ) :
  _angle_between (Revit.sub s s) w = 90.
Proof.
  rewrite angle_between_clamp.
  assert (E : Revit.DotProduct (_direction (Revit.sub s s)) (_direction w) = 0).
  { unfold _direction at 1. cbv zeta. rewrite magnitude_zero_vector.
    assert (E0 : Reqb 0 0 = true) by (apply Reqb_true; reflexivity).
    rewrite E0. unfold Revit.DotProduct, Revit.sub. simpl. ring. }
  rewrite E, clamp_0, acos_0. unfold degrees. field. apply PI_neq0.
Qed.

Lemma same_group_angle_90 (tol : tolerances) (base other : Tendon) :
  angle_tol tol < 90 ->
  _angle_between (Revit.sub (start base) (end_ base))
                 (Revit.sub (start other) (end_ other)) = 90 ->
  same_group tol base other = false.
Proof.
  intros Htol E. unfold same_group. cbv zeta. rewrite E.
  assert (E1 : Rltb 90 90 = false) by (apply Rltb_false; lra).
  assert (E2 : Rltb (angle_tol tol) 90 = true) by (now apply Rltb_true).
  now rewrite E1, E2.
Qed.

Lemma filter_none {A : Type} (f : A -> bool) (l : list A) :
  (forall x, f x = false) ->
  filter f l = [] /\ filter (fun x => negb (f x)) l = l.
Proof.
  intros H. induction l as [|x l [IH1 IH2]]; [now split|].
  simpl. rewrite H. simpl. split; [assumption|now f_equal].
Qed.

(** X15: with an angle tolerance below 90 degrees a tendon whose end
    points coincide passes the test with no tendon, in either role;
    when it is the representative (its stored length is not zero) its
    group holds it alone. *)
Theorem coincident_ends_stay_alone (tol : tolerances) (t : Tendon) :
  angle_tol tol < 90 ->
  start t = end_ t ->
  (forall o, same_group tol t o = false /\ same_group tol o t = false) /\
  (effective_length t <> 0 ->
   forall rest,
     group_tendons (t :: rest) tol = [t] :: group_tendons rest tol).
Proof.
  intros Htol Hse.
  assert (Hs : forall o, same_group tol t o = false /\ same_group tol o t = false).
  { intros o. split; apply same_group_angle_90; try assumption; rewrite Hse.
    - apply angle_with_zero_vector.
    - rewrite angle_between_sym. apply angle_with_zero_vector. }
  split; [exact Hs|].
  intros Hz rest. unfold group_tendons.
  rewrite (group_loop_pick tol t rest Hz).
  destruct (filter_none (same_group tol t) rest (fun o => proj1 (Hs o))) as [E1 E2].
  now rewrite E1, E2.
Qed.

Lemma effective_length_point : effective_length point_tendon = 1.
Proof.
  unfold effective_length, point_tendon. simpl. rdecide. reflexivity.
Defined.

Lemma coincident_ends_stay_alone_witness :
  (forall o, same_group default_tolerances point_tendon o = false /\
             same_group default_tolerances o point_tendon = false) /\
  group_tendons [point_tendon; plain_tendon] default_tolerances
  = [point_tendon] :: group_tendons [plain_tendon] default_tolerances.
Proof.
  destruct (coincident_ends_stay_alone default_tolerances point_tendon) as [H1 H2].
  - simpl. lra.
  - reflexivity.
  - split; [exact H1|]. apply H2. rewrite effective_length_point. lra.
Defined.

(** *** Profiles *)

Lemma profile_pairs_close (dist_tol height_tol : R) (p1 : list (R * BinNums.Z)) :
  forall p2, List.length p1 = List.length p2 ->
    (profile_pairs_match p1 p2 dist_tol height_tol = true
     <-> Forall2 (points_close dist_tol height_tol) p1 p2).
Proof.
  induction p1 as [|[d1 h1] p1 IH]; intros [|[d2 h2] p2] Hlen;
    try discriminate.
  - split; [constructor|reflexivity].
  - simpl in Hlen. injection Hlen as Hlen. simpl.
    destruct (Rltb dist_tol (Rabs (d1 - d2))) eqn:E1.
    { apply Rltb_true in E1. split; [discriminate|].
      intros H. inversion H as [|? ? ? ? [Hc _] _]; subst. simpl in Hc. lra. }
    destruct (Rltb height_tol (Rabs (IZR h1 - IZR h2))) eqn:E2.
    { apply Rltb_true in E2. split; [discriminate|].
      intros H. inversion H as [|? ? ? ? [_ Hc] _]; subst. simpl in Hc. lra. }
    apply Rltb_false in E1. apply Rltb_false in E2.
    rewrite (IH p2 Hlen). split.
    + intros H. constructor; [split; assumption|assumption].
    + intros H. now inversion H.
Qed.

Lemma profiles_match_close (p1 p2 : list (R * BinNums.Z)) (dist_tol height_tol : R) :
  _profiles_match p1 p2 dist_tol height_tol = true
  <-> Forall2 (points_close dist_tol height_tol) p1 p2.
Proof.
  unfold _profiles_match.
  destruct (Nat.eqb (List.length p1) (List.length p2)) eqn:E.
  - apply Nat.eqb_eq in E. now apply profile_pairs_close.
  - apply Nat.eqb_neq in E. split; [discriminate|].
    intros H. apply Forall2_length in H. contradiction.
Qed.

Lemma points_close_sym (d h : R) (a b : R * BinNums.Z) :
  points_close d h a b -> points_close d h b a.
Proof.
  unfold points_close. intros [H1 H2].
  rewrite (Rabs_minus_sym (fst b)), (Rabs_minus_sym (IZR (snd b))). now split.
Qed.

Lemma profiles_match_sym (p1 p2 : list (R * BinNums.Z)) (d h : R) :
  _profiles_match p1 p2 d h = _profiles_match p2 p1 d h.
Proof.
  assert (H : forall q1 q2, _profiles_match q1 q2 d h = true ->
                            _profiles_match q2 q1 d h = true).
  { intros q1 q2 Hm. apply profiles_match_close. apply profiles_match_close in Hm.
    induction Hm; constructor; [now apply points_close_sym|assumption]. }
  destruct (_profiles_match p1 p2 d h) eqn:E1.
  - symmetry. now apply H.
  - destruct (_profiles_match p2 p1 d h) eqn:E2; [|reflexivity].
    apply H in E2. congruence.
Qed.

Lemma profiles_match_refl (p : list (R * BinNums.Z)) (d h : R) :
  0 <= d -> 0 <= h -> _profiles_match p p d h = true.
Proof.
  intros Hd Hh. apply profiles_match_close.
  induction p as [|a p IH]; constructor; [|assumption].
  unfold points_close. rewrite !Rminus_diag, Rabs_R0. now split.
Qed.

(** X16: two profiles match exactly when they have the same number of
    points and corresponding points are within the distance and the
    height tolerance; the test does not depend on the order of the two
    profiles, and a profile matches itself when no tolerance is
    negative. *)
Theorem profiles_match_characterised :
  (forall p1 p2 dist_tol height_tol,
      _profiles_match p1 p2 dist_tol height_tol = true
      <-> Forall2 (points_close dist_tol height_tol) p1 p2) /\
  (forall p1 p2 dist_tol height_tol,
      _profiles_match p1 p2 dist_tol height_tol
      = _profiles_match p2 p1 dist_tol height_tol) /\
  (forall p dist_tol height_tol,
      0 <= dist_tol -> 0 <= height_tol ->
      _profiles_match p p dist_tol height_tol = true).
Proof.
  split; [exact profiles_match_close|].
  split; [exact profiles_match_sym|exact profiles_match_refl].
Qed.

Lemma profiles_match_characterised_witness :
  _profiles_match [(1, 25%Z); (2, 30%Z)] [(1, 25%Z); (2, 30%Z)] (5 / 10) 5 = true.
Proof.
  destruct profiles_match_characterised as [_ [_ H]]. apply H; lra.
Defined.

End GroupingMoreFacts.

(* ================================================================= *)
(** * Further properties of the alignment engine and of its wrapper *)

Module AlignmentMoreFacts.
Import RCmp RCmpFacts Geometry GeometryNotions GeometryInputs Alignment AlignmentWrapper.
Import AlignmentInputs.
Import GeometryFacts GeometryMoreFacts HullFacts HullMoreFacts AlignmentFacts.
Local Open Scope R_scope.

(** *** The search never gets worse *)

Lemma improve_le (bl : local_fit) (e dx dy : R) :
  local_err (improve bl e dx dy) <= local_err bl /\
  local_err (improve bl e dx dy) <= e.
Proof.
  unfold improve. destruct (Rltb e (local_err bl)) eqn:E;
    [apply Rltb_true in E|apply Rltb_false in E]; unfold local_err in *; simpl; lra.
Qed.

Lemma fold_left_le {A S : Type} (f : S -> A -> S) (m : S -> R) :
  (forall s a, m (f s a) <= m s) ->
  forall l s, m (fold_left f l s) <= m s.
Proof.
  intros Hf. induction l as [|a l IH]; intros s; simpl; [lra|].
  eapply Rle_trans; [apply IH|apply Hf].
Qed.

Lemma evaluate_le (slab hull : list point) (c : point) (a : R)
      (best : option fit) (b' b : fit) :
  _evaluate slab hull c a best = Some b' -> best = Some b ->
  fit_err b' <= fit_err b.
Proof.
  unfold _evaluate. cbv zeta. intros H ->.
  destruct (poly_bounds (rotate hull a c)) as [[[tx0 tx1] ty0] ty1].
  destruct (poly_bounds slab) as [[[sx0 sx1] sy0] sy1].
  destruct (vertex_scan _ _ _) as [[blC dx] dy].
  destruct (improve _ _ _ _) as [[e x] y].
  destruct (Rltb e (fit_err b)) eqn:E; inversion H; subst; unfold fit_err in *;
    cbn [fst snd].
  - apply Rltb_true in E. lra.
  - lra.
Qed.

Section Monotone.
Variable eval : R -> option fit -> option fit.
Hypothesis eval_some : forall a b, exists b', eval a b = Some b'.
Hypothesis eval_le : forall a best b' b,
  eval a best = Some b' -> best = Some b -> fit_err b' <= fit_err b.

Lemma sweep_le (step : R) : forall (fuel : nat) (angle : R) (b : fit) (r : option fit),
  sweep fuel eval step angle (Some b) = Some r ->
  exists b', r = Some b' /\ fit_err b' <= fit_err b.
Proof.
  induction fuel as [|fuel IH]; intros angle b r H; [discriminate|].
  simpl in H. destruct (Rltb angle (2 * PI)).
  - destruct (eval_some angle (Some b)) as [b1 E1]. rewrite E1 in H.
    destruct (IH _ _ _ H) as [b' [-> Hb']].
    exists b'. split; [reflexivity|].
    pose proof (eval_le _ _ _ _ E1 eq_refl). lra.
  - inversion H; subst. exists b. split; [reflexivity|lra].
Qed.

Lemma refine_le (angles : list R) : forall (b0 b : fit),
  fold_left (fun b a => eval a b) angles (Some b0) = Some b ->
  fit_err b <= fit_err b0.
Proof.
  induction angles as [|a angles IH]; intros b0 b H; simpl in H.
  - inversion H; subst. lra.
  - destruct (eval_some a (Some b0)) as [b1 E1]. rewrite E1 in H.
    pose proof (eval_le _ _ _ _ E1 eq_refl). specialize (IH _ _ H). lra.
Qed.

End Monotone.

Lemma snap_le (slab hull : list point) (c : point) (tol : R) (b : fit) :
  0 <= tol -> fit_err (snap slab hull c tol b) <= fit_err b + tol.
Proof.
  intros Htol. unfold snap. destruct b as [[[err ang] dx] dy].
  match goal with
  | |- context [poly_bounds (map ?f hull)] =>
      destruct (poly_bounds (map f hull)) as [[[tx0 tx1] ty0] ty1]
  end.
  destruct (poly_bounds slab) as [[[sx0 sx1] sy0] sy1].
  destruct (Rltb snap_eps _); [|unfold fit_err; simpl; lra].
  destruct (Rleb _ (err + tol)) eqn:E; [|unfold fit_err; simpl; lra].
  apply Rleb_true in E. unfold fit_err. simpl. exact E.
Qed.

Lemma rotate_zero (points : list point) (origin : point) :
  rotate points 0 origin = points.
Proof.
  rewrite rotate_map. rewrite <- (map_id points) at 2. apply map_ext.
  intros [x y]. unfold rotate_point. cbn [fst snd]. rewrite cos_0, sin_0.
  f_equal; ring.
Qed.

(** *** A vertex on a vertex *)

Lemma fold_left_le_at {A S : Type} (f : S -> A -> S) (m : S -> R) (g : A -> R) :
  (forall s a, m (f s a) <= m s) ->
  (forall s a, m (f s a) <= g a) ->
  forall l a s, In a l -> m (fold_left f l s) <= g a.
Proof.
  intros Hmono Hg. induction l as [|x l IH]; intros a s Ha; [contradiction|].
  simpl. destruct Ha as [->|Ha].
  - eapply Rle_trans; [apply fold_left_le; exact Hmono|apply Hg].
  - now apply IH.
Qed.

Lemma vertex_scan_le_pair (slab rot : list point) (st : local_fit * R * R)
      (s t : point) :
  In s slab -> In t rot ->
  local_err (fst (fst (vertex_scan slab rot st)))
  <= _dhd (translate rot (fst s - fst t) (snd s - snd t)) slab.
Proof.
  intros Hs Ht. unfold vertex_scan.
  apply (fold_left_le_at _ (fun st => local_err (fst (fst st)))
           (fun s => _dhd (translate rot (fst s - fst t) (snd s - snd t)) slab));
    [| |exact Hs].
  - intros s1 s'.
    apply (fold_left_le _ (fun st => local_err (fst (fst st)))).
    intros s2 t'. cbn [fst snd]. apply (proj1 (improve_le _ _ _ _)).
  - intros s1 s'.
    apply (fold_left_le_at _ (fun st => local_err (fst (fst st)))
             (fun t => _dhd (translate rot (fst s' - fst t) (snd s' - snd t)) slab));
      [| |exact Ht].
    + intros s2 t'. cbn [fst snd]. apply (proj1 (improve_le _ _ _ _)).
    + intros s2 t'. cbn [fst snd]. apply (proj2 (improve_le _ _ _ _)).
Qed.

Lemma evaluate_le_pair (slab hull : list point) (c : point) (a : R)
      (best : option fit) (b' : fit) (s t : point) :
  _evaluate slab hull c a best = Some b' ->
  In s slab -> In t (rotate hull a c) ->
  fit_err b'
  <= _dhd (translate (rotate hull a c) (fst s - fst t) (snd s - snd t)) slab.
Proof.
  unfold _evaluate. cbv zeta. intros H Hs Ht.
  destruct (poly_bounds (rotate hull a c)) as [[[tx0 tx1] ty0] ty1].
  destruct (poly_bounds slab) as [[[sx0 sx1] sy0] sy1].
  match type of H with
  | context [vertex_scan slab (rotate hull a c) ?st0] =>
      pose proof (vertex_scan_le_pair slab (rotate hull a c) st0 s t Hs Ht) as HC;
      destruct (vertex_scan slab (rotate hull a c) st0) as [[blC dx] dy]
  end.
  cbn [fst snd] in HC.
  match type of H with
  | context [improve (improve blC ?e1 ?x1 ?y1) ?e2 ?x2 ?y2] =>
      pose proof (proj1 (improve_le blC e1 x1 y1)) as HD;
      pose proof (proj1 (improve_le (improve blC e1 x1 y1) e2 x2 y2)) as HE;
      destruct (improve (improve blC e1 x1 y1) e2 x2 y2) as [[e x] y]
  end.
  unfold local_err in *. cbn [fst snd] in *.
  destruct best as [b|].
  - destruct (Rltb e (fit_err b)) eqn:E; inversion H; subst; unfold fit_err in *;
      cbn [fst snd].
    + lra.
    + apply Rltb_false in E. lra.
  - inversion H; subst. unfold fit_err. cbn [fst snd]. lra.
Qed.

(** The fit the final decision looks at is at most the fit of the
    first evaluation, at angle 0, plus the tolerance. *)
Lemma best_after_snap_first (fuel : nat) (slab tendon_pts : list point) (cfg : config)
      (b : fit) :
  0 <= tolerance_ft cfg ->
  best_after_snap fuel (Some slab) tendon_pts cfg = Some (Some b) ->
  exists b1,
    _evaluate slab (convex_hull tendon_pts) (centroid (convex_hull tendon_pts)) 0 None
    = Some b1 /\
    fit_err b <= fit_err b1 + tolerance_ft cfg.
Proof.
  intros Htol H. unfold best_after_snap in H.
  destruct slab as [|s0 slab]; [discriminate|].
  destruct (convex_hull tendon_pts) as [|h0 hull]; [discriminate|].
  set (S0 := s0 :: slab) in *. set (H0 := h0 :: hull) in *.
  set (eval := _evaluate S0 H0 (centroid H0)) in *.
  assert (Hsome : forall a b1, exists b', eval a b1 = Some b')
    by (intros; apply evaluate_some).
  assert (Hle : forall a best b' b1,
             eval a best = Some b' -> best = Some b1 -> fit_err b' <= fit_err b1).
  { intros a best b' b1 E Eb. exact (evaluate_le _ _ _ _ _ _ _ E Eb). }
  destruct (Hsome 0 None) as [b1 E1]. exists b1. split; [exact E1|].
  destruct (allow_rotation cfg).
  - destruct fuel as [|fuel]; [discriminate|].
    cbn [sweep] in H.
    assert (E2 : Rltb 0 (2 * PI) = true).
    { apply Rltb_true. pose proof PI_RGT_0. lra. }
    rewrite E2, E1 in H.
    destruct (sweep fuel eval (radians (angle_step_deg cfg))
                    (0 + radians (angle_step_deg cfg)) (Some b1)) as [r|] eqn:Es;
      [|discriminate].
    destruct (sweep_le eval Hsome Hle _ _ _ _ _ Es) as [b2 [-> Hb2]].
    destruct (fold_left _ _ (Some b2)) as [b3|] eqn:Er; [|discriminate].
    pose proof (refine_le eval Hsome Hle _ _ _ Er) as Hb3.
    inversion H; subst b.
    pose proof (snap_le S0 H0 (centroid H0) (tolerance_ft cfg) b3 Htol) as Hs.
    eapply Rle_trans; [exact Hs|lra].
  - rewrite E1 in H. inversion H; subst b.
    pose proof (snap_le S0 H0 (centroid H0) (tolerance_ft cfg) b1 Htol) as Hs.
    exact Hs.
Qed.

(** A vertex of the tendon hull put on a vertex of the slab hull: the
    search is at most the tolerance worse than that placement. *)
Lemma best_after_snap_le_pair (fuel : nat) (slab tendon_pts : list point) (cfg : config)
      (b : fit) (s t : point) :
  0 <= tolerance_ft cfg ->
  best_after_snap fuel (Some slab) tendon_pts cfg = Some (Some b) ->
  In s slab -> In t (convex_hull tendon_pts) ->
  fit_err b
  <= _dhd (translate (convex_hull tendon_pts) (fst s - fst t) (snd s - snd t)) slab
     + tolerance_ft cfg.
Proof.
  intros Htol H Hs Ht.
  destruct (best_after_snap_first fuel slab tendon_pts cfg b Htol H) as [b1 [E1 Hb]].
  pose proof (evaluate_le_pair _ _ _ _ _ _ s t E1 Hs) as Hp.
  rewrite rotate_zero in Hp. specialize (Hp Ht). lra.
Qed.

(** *** The simple fit *)

Lemma simple_fit_some (slab_hull : option (list point)) (tendon_pts : list point)
      (max_error tol a dx dy err : R) :
  _simple_fit slab_hull tendon_pts max_error tol = Some (a, dx, dy, err) ->
  a = 0 /\ err <= max_error + tol /\
  exists slab, slab_hull = Some slab /\ slab <> [] /\
    convex_hull tendon_pts <> [] /\
    err = directed_hausdorff_outside (translate (convex_hull tendon_pts) dx dy) slab.
Proof.
  unfold _simple_fit. destruct slab_hull as [[|s0 slab]|]; try discriminate.
  destruct (convex_hull tendon_pts) as [|h0 hull]; [discriminate|].
  cbv zeta.
  destruct (Rleb _ (max_error + tol)) eqn:E1.
  - apply Rleb_true in E1. intros H. inversion H; subst.
    split; [reflexivity|split; [exact E1|]].
    exists (s0 :: slab). repeat split; discriminate || reflexivity.
  - destruct (poly_bounds (h0 :: hull)) as [[[tx0 tx1] ty0] ty1].
    destruct (poly_bounds (s0 :: slab)) as [[[sx0 sx1] sy0] sy1].
    destruct (Rleb (_dhd (translate (h0 :: hull) (sx0 - tx0) (sy0 - ty0)) (s0 :: slab))
                   (max_error + tol)) eqn:E2; [|discriminate].
    apply Rleb_true in E2. intros H. inversion H; subst.
    split; [reflexivity|split; [exact E2|]].
    exists (s0 :: slab). repeat split; discriminate || reflexivity.
Qed.

Lemma simple_fit_centroid (slab tendon_pts : list point) (max_error tol : R) :
  slab <> [] -> convex_hull tendon_pts <> [] ->
  centroid_shift_error slab (convex_hull tendon_pts) <= max_error + tol ->
  _simple_fit (Some slab) tendon_pts max_error tol
  = Some (0,
          fst (centroid slab) - fst (centroid (convex_hull tendon_pts)),
          snd (centroid slab) - snd (centroid (convex_hull tendon_pts)),
          centroid_shift_error slab (convex_hull tendon_pts)).
Proof.
  intros Hs Hh Hc. unfold _simple_fit, centroid_shift_error in *.
  destruct slab as [|s0 slab]; [contradiction|].
  destruct (convex_hull tendon_pts) as [|h0 hull]; [contradiction|].
  cbv zeta in *. apply Rleb_true in Hc. now rewrite Hc.
Qed.

(** X19: a result of the simple fit has angle 0, an error of at most
    [max_error_ft + tolerance_ft], and that error is the distance of
    the translated tendon hull from the slab hull; the centroid
    alignment is the result whenever its error is within that
    threshold. *)
Theorem simple_fit_result (slab tendon_pts : list point) (max_error tol : R) :
  slab <> [] -> convex_hull tendon_pts <> [] ->
  (forall a dx dy err,
      _simple_fit (Some slab) tendon_pts max_error tol = Some (a, dx, dy, err) ->
      a = 0 /\ err <= max_error + tol /\
      err = directed_hausdorff_outside
              (translate (convex_hull tendon_pts) dx dy) slab) /\
  (centroid_shift_error slab (convex_hull tendon_pts) <= max_error + tol ->
   _simple_fit (Some slab) tendon_pts max_error tol
   = Some (0,
           fst (centroid slab) - fst (centroid (convex_hull tendon_pts)),
           snd (centroid slab) - snd (centroid (convex_hull tendon_pts)),
           centroid_shift_error slab (convex_hull tendon_pts))).
Proof.
  intros Hs Hh. split.
  - intros a dx dy err H.
    destruct (simple_fit_some _ _ _ _ _ _ _ _ H) as [Ha [He [s [Es [_ [_ Ed]]]]]].
    inversion Es; subst s. auto.
  - now apply simple_fit_centroid.
Qed.

Lemma simple_fit_result_witness :
  (forall a dx dy err,
      _simple_fit (Some triangle) [inner_point] 3 1 = Some (a, dx, dy, err) ->
      a = 0 /\ err <= 3 + 1 /\
      err = directed_hausdorff_outside
              (translate (convex_hull [inner_point]) dx dy) triangle) /\
  (centroid_shift_error triangle (convex_hull [inner_point]) <= 3 + 1 ->
   _simple_fit (Some triangle) [inner_point] 3 1
   = Some (0,
           fst (centroid triangle) - fst (centroid (convex_hull [inner_point])),
           snd (centroid triangle) - snd (centroid (convex_hull [inner_point])),
           centroid_shift_error triangle (convex_hull [inner_point]))).
Proof.
  apply simple_fit_result.
  - unfold triangle. discriminate.
  - unfold inner_point. simpl. discriminate.
Defined.

(** *** Two placements worked out *)

Ltac rabs :=
  repeat match goal with
  | |- context [Rabs ?x] =>
      let H := fresh in
      first [ assert (H : Rabs x = x) by (apply Rabs_right; lra)
            | assert (H : Rabs x = - x) by (apply Rabs_left; lra) ];
      rewrite H; clear H
  end.

Lemma edge_tendon_hull : convex_hull edge_tendon = [(0, 0); (0, 90)].
Proof.
  unfold convex_hull, edge_tendon, sorted_set.
  cbn [fold_right insert_pt]. unfold pt_ltb, pt_eqb. cbn [fst snd].
  repeat (rdecide; cbn [insert_pt]; unfold pt_ltb, pt_eqb; cbn [fst snd]).
  cbn [List.length Nat.leb rev app].
  unfold build_chain. cbn [fold_left]. unfold push_point.
  repeat (cbn [pop_while]; unfold _cross; cbn [fst snd]; rdecide).
  reflexivity.
Qed.

Lemma sqrt_above (c s : R) : 0 <= c -> c * c < s -> c < sqrt s.
Proof.
  intros Hc Hs. rewrite <- (sqrt_square c Hc).
  apply sqrt_lt_1; [apply Rle_0_sqr|nra|exact Hs].
Qed.

(** A point outside the hull and farther than [c] from each of its
    vertices makes the error greater than [c]. *)
Lemma dhd_above (a hull : list point) (p : point) (c : R) :
  In p a -> hull <> [] -> pt_in_convex p hull = false ->
  (forall q, In q hull -> c < _point_distance p q) ->
  c < _dhd a hull.
Proof.
  intros Hp Hh Hout Hd. unfold _dhd, directed_hausdorff_outside.
  destruct a as [|a0 a]; [contradiction|]. destruct hull as [|h0 hull]; [contradiction|].
  set (g := fun p => negb (pt_in_convex p (h0 :: hull))).
  assert (Hg : In p (filter g (a0 :: a))).
  { apply filter_In. split; [exact Hp|]. unfold g. now rewrite Hout. }
  destruct (filter g (a0 :: a)) as [|o os] eqn:Ef; [contradiction|].
  unfold _directed_hausdorff.
  eapply Rlt_le_trans; [|apply (dh_loop_ge_in (h0 :: hull) (o :: os) p 0 Hg)].
  destruct (min_distance_attained p (h0 :: hull)) as [q [Hq ->]]; [discriminate|].
  now apply Hd.
Qed.

Ltac in_convex_decide :=
  unfold pt_in_convex; cbn [List.length Nat.ltb Nat.leb hull_edges combine app
                            in_convex_loop fst snd];
  rabs; unfold edge_eps; rdecide; try reflexivity.

Lemma corner_placement :
  _dhd (translate (convex_hull edge_tendon) (90 - 0) (0 - 0)) corner_slab = 0.
Proof.
  rewrite edge_tendon_hull. unfold _dhd. apply outside_none_zero.
  unfold translate, corner_slab. cbn [map fst snd].
  intros p [<-|[<-|[]]]; in_convex_decide.
Qed.

Lemma simple_fit_fails : _simple_fit (Some corner_slab) edge_tendon 3 1 = None.
Proof.
  unfold _simple_fit. rewrite edge_tendon_hull. unfold corner_slab. cbv zeta.
  assert (E1 : Rleb (_dhd (translate [(0, 0); (0, 90)]
                             (fst (centroid [(0, 90); (90, 0); (90, 90)])
                              - fst (centroid [(0, 0); (0, 90)]))
                             (snd (centroid [(0, 90); (90, 0); (90, 90)])
                              - snd (centroid [(0, 0); (0, 90)])))
                          [(0, 90); (90, 0); (90, 90)]) (3 + 1) = false).
  { apply Rleb_false.
    unfold centroid, Rsum, translate. cbn [map fold_left fst snd List.length INR].
    apply (dhd_above _ _ (0 + ((0 + 0 + 90 + 90) / (1 + 1 + 1) - (0 + 0 + 0) / (1 + 1)),
                          0 + ((0 + 90 + 0 + 90) / (1 + 1 + 1) - (0 + 0 + 90) / (1 + 1)))).
    - now left.
    - discriminate.
    - in_convex_decide.
    - intros q [<-|[<-|[<-|[]]]]; unfold _point_distance; cbn [fst snd];
        apply sqrt_above; lra. }
  rewrite E1. clear E1.
  unfold poly_bounds, py_min, py_max_seq. cbn [map fold_left fst snd]. rdecide.
  assert (E2 : Rleb (_dhd (translate [(0, 0); (0, 90)] (0 - 0) (0 - 0))
                          [(0, 90); (90, 0); (90, 90)]) (3 + 1) = false).
  { apply Rleb_false. unfold translate. cbn [map fst snd].
    apply (dhd_above _ _ (0 + (0 - 0), 0 + (0 - 0))).
    - now left.
    - discriminate.
    - in_convex_decide.
    - intros q [<-|[<-|[<-|[]]]]; unfold _point_distance; cbn [fst snd];
        apply sqrt_above; lra. }
  rewrite E2. reflexivity.
Qed.

Lemma search_fits_corner :
  exists fuel t,
    find_best_transform fuel (Some corner_slab) edge_tendon default_config
    = Some (Some t).
Proof.
  destruct (search_reaches_decision corner_slab edge_tendon default_config)
    as [fuel0 [b Hb]].
  - discriminate.
  - rewrite edge_tendon_hull. discriminate.
  - intros _. cbn [angle_step_deg default_config]. lra.
  - specialize (Hb fuel0 (Nat.le_refl _)).
    assert (Htol : 0 <= tolerance_ft default_config)
      by (cbn [tolerance_ft default_config]; lra).
    pose proof (best_after_snap_le_pair fuel0 corner_slab edge_tendon default_config b
                  (90, 0) (0, 0) Htol Hb) as Hle.
    cbn [fst snd] in Hle. rewrite corner_placement in Hle.
    assert (He : fit_err b <= max_error_ft default_config).
    { cbn [tolerance_ft max_error_ft default_config] in *.
      apply (Rle_trans _ (0 + 1)); [|lra]. apply Hle.
      - right. now left.
      - rewrite edge_tendon_hull. now left. }
    exists fuel0. unfold find_best_transform. rewrite Hb.
    destruct (decide (max_error_ft default_config) b) as [t|] eqn:Ed.
    + now exists t.
    + apply decide_none in Ed. lra.
Qed.

Lemma centroid_fits_triangle :
  centroid_shift_error triangle (convex_hull [inner_point]) = 0.
Proof.
  assert (E : convex_hull [inner_point] = [inner_point]) by reflexivity.
  rewrite E. unfold centroid_shift_error, _dhd. apply outside_none_zero.
  unfold centroid, Rsum, translate, triangle, inner_point.
  cbn [map fold_left fst snd List.length INR].
  intros p [<-|[]]. in_convex_decide.
Qed.
(** *** The wrapper *)

Lemma pick_fallback_none (picked : option Revit.XYZ) (tendon_pts : list point) :
  pick_fallback picked tendon_pts = None -> picked = None.
Proof.
  unfold pick_fallback, _pick_translation. destruct picked as [pk|]; [|reflexivity].
  destruct (poly_bounds tendon_pts) as [[[x0 x1] y0] y1]. discriminate.
Qed.

Lemma wrapper_after_simple_fit (fuel : nat)
      (simple_hull search_hull : option (list point))
      (picked : option Revit.XYZ) (tendon_pts : list point) (cfg : config)
      (a dx dy err : R) :
  _simple_fit simple_hull tendon_pts (max_error_ft cfg) (tolerance_ft cfg)
  = Some (a, dx, dy, err) ->
  get_alignment_transform fuel simple_hull search_hull picked tendon_pts cfg
  = Some (Some (0, dx, dy)).
Proof.
  intros H. unfold get_alignment_transform. rewrite H.
  destruct (simple_fit_some _ _ _ _ _ _ _ _ H) as [-> [He _]].
  apply Rleb_true in He. now rewrite He.
Qed.

Lemma wrapper_without_simple_fit (fuel : nat)
      (simple_hull search_hull : option (list point))
      (picked : option Revit.XYZ) (tendon_pts : list point) (cfg : config) :
  _simple_fit simple_hull tendon_pts (max_error_ft cfg) (tolerance_ft cfg) = None ->
  get_alignment_transform fuel simple_hull search_hull picked tendon_pts cfg
  = match find_best_transform fuel search_hull tendon_pts cfg with
    | None => None
    | Some (Some (angle_rad, dx, dy, err)) =>
        if Rleb err (max_error_ft cfg + tolerance_ft cfg)
        then Some (Some (angle_rad, dx, dy))
        else Some (pick_fallback picked tendon_pts)
    | Some None => Some (pick_fallback picked tendon_pts)
    end.
Proof. intros H. unfold get_alignment_transform. now rewrite H. Qed.

Lemma find_best_transform_error (fuel : nat) (slab_hull : option (list point))
      (tendon_pts : list point) (cfg : config) (a dx dy err : R) :
  find_best_transform fuel slab_hull tendon_pts cfg = Some (Some (a, dx, dy, err)) ->
  err <= max_error_ft cfg.
Proof.
  unfold find_best_transform.
  destruct (best_after_snap fuel slab_hull tendon_pts cfg) as [[b|]|]; try discriminate.
  intros H. inversion H as [Hd]. apply decide_some in Hd.
  unfold reported_error in Hd. simpl in Hd. lra.
Qed.

(** X20: the wrapper returns the translation of the simple fit, with
    angle 0 and without a search, whenever the simple fit succeeds;
    otherwise, with a tolerance that is not negative, it returns the
    transform of the search whenever the search finds one; it asks for
    a pick only when both fail, and its result is [None] only when the
    pick was cancelled. *)
Theorem alignment_wrapper_paths (fuel : nat)
        (simple_hull search_hull : option (list point))
        (picked : option Revit.XYZ) (tendon_pts : list point) (cfg : config) :
  (forall a dx dy err,
      _simple_fit simple_hull tendon_pts (max_error_ft cfg) (tolerance_ft cfg)
      = Some (a, dx, dy, err) ->
      get_alignment_transform fuel simple_hull search_hull picked tendon_pts cfg
      = Some (Some (0, dx, dy))) /\
  (0 <= tolerance_ft cfg ->
   _simple_fit simple_hull tendon_pts (max_error_ft cfg) (tolerance_ft cfg) = None ->
   forall a dx dy err,
     find_best_transform fuel search_hull tendon_pts cfg
     = Some (Some (a, dx, dy, err)) ->
     get_alignment_transform fuel simple_hull search_hull picked tendon_pts cfg
     = Some (Some (a, dx, dy))) /\
  (_simple_fit simple_hull tendon_pts (max_error_ft cfg) (tolerance_ft cfg) = None ->
   find_best_transform fuel search_hull tendon_pts cfg = Some None ->
   get_alignment_transform fuel simple_hull search_hull picked tendon_pts cfg
   = Some (pick_fallback picked tendon_pts)) /\
  (get_alignment_transform fuel simple_hull search_hull picked tendon_pts cfg
   = Some None ->
   picked = None).
Proof.
  repeat split.
  - intros a dx dy err. apply wrapper_after_simple_fit.
  - intros Htol Hs a dx dy err Hf.
    rewrite (wrapper_without_simple_fit _ _ _ _ _ _ Hs), Hf.
    pose proof (find_best_transform_error _ _ _ _ _ _ _ _ Hf) as He.
    assert (E : Rleb err (max_error_ft cfg + tolerance_ft cfg) = true)
      by (apply Rleb_true; lra).
    now rewrite E.
  - intros Hs Hf. now rewrite (wrapper_without_simple_fit _ _ _ _ _ _ Hs), Hf.
  - intros H.
    destruct (_simple_fit simple_hull tendon_pts (max_error_ft cfg) (tolerance_ft cfg))
      as [[[[a dx] dy] err]|] eqn:Es.
    + rewrite (wrapper_after_simple_fit fuel _ search_hull picked _ _ _ _ _ _ Es) in H.
      discriminate.
    + rewrite (wrapper_without_simple_fit _ _ _ _ _ _ Es) in H.
      destruct (find_best_transform fuel search_hull tendon_pts cfg)
        as [[[[[a dx] dy] err]|]|]; try discriminate.
      * destruct (Rleb err _); [discriminate|].
        inversion H as [Hp]. now apply pick_fallback_none in Hp.
      * inversion H as [Hp]. now apply pick_fallback_none in Hp.
Qed.

Lemma alignment_wrapper_paths_witness :
  (exists dx dy,
      get_alignment_transform 0 (Some triangle) (Some triangle) None
                              [inner_point] default_config
      = Some (Some (0, dx, dy))) /\
  (exists fuel a dx dy,
      get_alignment_transform fuel (Some corner_slab) (Some corner_slab) None
                              edge_tendon default_config
      = Some (Some (a, dx, dy))) /\
  get_alignment_transform 0 None None None [inner_point] default_config
  = Some (pick_fallback None [inner_point]).
Proof.
  split; [|split].
  - destruct (alignment_wrapper_paths 0 (Some triangle) (Some triangle) None
                                      [inner_point] default_config) as [H _].
    eexists. eexists. eapply H.
    apply simple_fit_centroid; [discriminate|discriminate|].
    rewrite centroid_fits_triangle. cbn [max_error_ft tolerance_ft default_config]. lra.
  - destruct search_fits_corner as [fuel [[[[a dx] dy] err] Hf]].
    destruct (alignment_wrapper_paths fuel (Some corner_slab) (Some corner_slab) None
                                      edge_tendon default_config) as [_ [H _]].
    exists fuel, a, dx, dy. apply (H ltac:(cbn; lra) simple_fit_fails a dx dy err Hf).
  - destruct (alignment_wrapper_paths 0 None None None [inner_point] default_config)
      as [_ [_ [H _]]].
    apply H; reflexivity.
Defined.

End AlignmentMoreFacts.

(* ================================================================= *)
(** * Properties of the import transform *)

Module ImporterFacts.
Import RCmp RCmpFacts Geometry Grouping GroupingInputs.
Import Importer ImporterNotions SnapperInputs.
Local Open Scope R_scope.

(** *** The transform and the geometry kernel *)

Lemma apply_transform_noop (ts : list Tendon) (a dx dy : R) (o : R * R) :
  a = 0 -> dx = 0 -> dy = 0 -> _apply_transform ts a dx dy o = ts.
Proof.
  intros -> -> ->. unfold _apply_transform.
  assert (E : Reqb 0 0 = true) by (apply Reqb_true; reflexivity).
  now rewrite E.
Qed.

Lemma apply_transform_loop (ts : list Tendon) (a dx dy : R) (o : R * R) :
  ~ (a = 0 /\ dx = 0 /\ dy = 0) ->
  _apply_transform ts a dx dy o = map (moved a dx dy o) ts.
Proof.
  intros Hn. unfold _apply_transform.
  destruct (Reqb a 0 && (Reqb dx 0 && Reqb dy 0)) eqn:E; [|reflexivity].
  apply andb_prop in E. destruct E as [Ea E]. apply andb_prop in E.
  destruct E as [Ex Ey]. apply Reqb_true in Ea, Ex, Ey. exfalso. now apply Hn.
Qed.

(** The loop computes, for each end point, the operations of [rotate]
    and then the addition of [translate], in the same order. *)
Lemma plan_points_moved (a dx dy : R) (o : R * R) (ts : list Tendon) :
  plan_points (map (moved a dx dy o) ts)
  = translate (rotate (plan_points ts) a o) dx dy.
Proof.
  unfold plan_points, translate, rotate. cbv zeta.
  induction ts as [|t ts IH]; [reflexivity|].
  cbn [map flat_map app]. rewrite IH. reflexivity.
Qed.

Lemma moved_keeps_data (a dx dy : R) (o : R * R) (t : Tendon) :
  tendon_data (moved a dx dy o t) = tendon_data t.
Proof. reflexivity. Qed.

(** X23: unless the angle and both offsets are zero, the transform
    puts both ends of every tendon, in plan, where [rotate] about the
    given origin followed by [translate] of the geometry kernel puts
    them, operation for operation; with the angle and both offsets
    zero the tendons are left as they are; in both cases the
    elevations, the ids, the stored lengths and the profiles stay as
    they are. *)
Theorem apply_transform_is_rotate_translate
        (tendon_set : list Tendon) (angle_rad dx dy : R) (origin : R * R) :
  (~ (angle_rad = 0 /\ dx = 0 /\ dy = 0) ->
   plan_points (_apply_transform tendon_set angle_rad dx dy origin)
   = translate (rotate (plan_points tendon_set) angle_rad origin) dx dy) /\
  (angle_rad = 0 -> dx = 0 -> dy = 0 ->
   _apply_transform tendon_set angle_rad dx dy origin = tendon_set) /\
  map tendon_data (_apply_transform tendon_set angle_rad dx dy origin)
  = map tendon_data tendon_set.
Proof.
  split; [|split].
  - intros Hn. rewrite (apply_transform_loop _ _ _ _ _ Hn). apply plan_points_moved.
  - apply apply_transform_noop.
  - unfold _apply_transform.
    destruct (Reqb angle_rad 0 && (Reqb dx 0 && Reqb dy 0)); [reflexivity|].
    rewrite map_map. apply map_ext. intros t.
    exact (moved_keeps_data angle_rad dx dy origin t).
Qed.

Lemma apply_transform_is_rotate_translate_witness :
  plan_points (_apply_transform [plain_tendon] 0 1 0 (1, 0))
  = translate (rotate (plan_points [plain_tendon]) 0 (1, 0)) 1 0 /\
  _apply_transform [plain_tendon] 0 0 0 (1, 0) = [plain_tendon].
Proof.
  split.
  - apply (proj1 (apply_transform_is_rotate_translate [plain_tendon] 0 1 0 (1, 0))).
    intros [_ [H _]]. lra.
  - apply (proj1 (proj2 (apply_transform_is_rotate_translate
                           [plain_tendon] 0 0 0 (1, 0)))); reflexivity.
Defined.

End ImporterFacts.

(* ================================================================= *)
(** * Properties of the snapping *)

Module SnapperFacts.
Import RCmp RCmpFacts Grouping AlignmentWrapper Snapper SnapperInputs.
Local Open Scope R_scope.

(** *** One point *)

Lemma Rabs_zero_inv (r : R) : Rabs r = 0 -> r = 0.
Proof.
  intros H. destruct (Req_dec r 0) as [E|E]; [assumption|].
  apply Rabs_no_R0 in E. contradiction.
Qed.

Lemma py_min_nonneg_zero (x : R) (xs : list R) :
  0 <= x -> (forall v, In v xs -> 0 <= v) -> In 0 (x :: xs) -> py_min x xs = 0.
Proof.
  intros Hx Hxs Hin. apply Rle_antisym.
  - destruct Hin as [<-|Hin]; [apply py_min_le_first|now apply py_min_le_in].
  - now apply py_min_lower.
Qed.

Lemma py_min_one_of_four (a b c d : R) :
  py_min a [b; c; d] = a \/ py_min a [b; c; d] = b \/
  py_min a [b; c; d] = c \/ py_min a [b; c; d] = d.
Proof.
  unfold py_min. simpl.
  destruct (Rltb b a); destruct (Rltb c _); destruct (Rltb d _); auto.
Qed.

(** The five outcomes of [_snap_point] on a point. *)
Lemma snap_point_cases (p : XYZ) (minX maxX minY maxY tol : R) :
  _snap_point (Some p) minX maxX minY maxY tol = Some p \/
  (0 <= tol /\
   ((Rabs (Revit.X p - minX) <= tol /\
     _snap_point (Some p) minX maxX minY maxY tol
     = Some (Revit.mkXYZ minX (Revit.Y p) (Revit.Z p))) \/
    (Rabs (Revit.X p - maxX) <= tol /\
     _snap_point (Some p) minX maxX minY maxY tol
     = Some (Revit.mkXYZ maxX (Revit.Y p) (Revit.Z p))) \/
    (Rabs (Revit.Y p - minY) <= tol /\
     _snap_point (Some p) minX maxX minY maxY tol
     = Some (Revit.mkXYZ (Revit.X p) minY (Revit.Z p))) \/
    (Rabs (Revit.Y p - maxY) <= tol /\
     _snap_point (Some p) minX maxX minY maxY tol
     = Some (Revit.mkXYZ (Revit.X p) maxY (Revit.Z p))))).
Proof.
  unfold _snap_point. cbv zeta.
  set (a := Rabs (Revit.X p - minX)). set (b := Rabs (Revit.X p - maxX)).
  set (c := Rabs (Revit.Y p - minY)). set (d := Rabs (Revit.Y p - maxY)).
  set (m := py_min a [b; c; d]).
  destruct (Rltb tol m) eqn:Et; [now left|]. right.
  apply Rltb_false in Et.
  assert (Hm0 : 0 <= m).
  { apply py_min_lower; [apply Rabs_pos|].
    intros v [<-|[<-|[<-|[]]]]; apply Rabs_pos. }
  split; [lra|].
  destruct (Reqb m a) eqn:Ea.
  { apply Reqb_true in Ea. left. split; [lra|reflexivity]. }
  destruct (Reqb m b) eqn:Eb.
  { apply Reqb_true in Eb. right. left. split; [lra|reflexivity]. }
  destruct (Reqb m c) eqn:Ec.
  { apply Reqb_true in Ec. right. right. left. split; [lra|reflexivity]. }
  right. right. right. split; [|reflexivity].
  destruct (py_min_one_of_four a b c d) as [H|[H|[H|H]]]; fold m in H.
  - apply Reqb_true in H. congruence.
  - apply Reqb_true in H. congruence.
  - apply Reqb_true in H. congruence.
  - lra.
Qed.

(** A point on an extent line stays where it is. *)
Lemma snap_point_on_line (q : XYZ) (minX maxX minY maxY tol : R) :
  0 <= tol ->
  Revit.X q = minX \/ Revit.X q = maxX \/ Revit.Y q = minY \/ Revit.Y q = maxY ->
  _snap_point (Some q) minX maxX minY maxY tol = Some q.
Proof.
  intros Htol Hon. unfold _snap_point. cbv zeta.
  set (a := Rabs (Revit.X q - minX)). set (b := Rabs (Revit.X q - maxX)).
  set (c := Rabs (Revit.Y q - minY)). set (d := Rabs (Revit.Y q - maxY)).
  assert (Hz : In 0 [a; b; c; d]).
  { destruct Hon as [H|[H|[H|H]]].
    - left. unfold a. rewrite H, Rminus_diag. apply Rabs_R0.
    - right. left. unfold b. rewrite H, Rminus_diag. apply Rabs_R0.
    - right. right. left. unfold c. rewrite H, Rminus_diag. apply Rabs_R0.
    - right. right. right. left. unfold d. rewrite H, Rminus_diag. apply Rabs_R0. }
  assert (Em : py_min a [b; c; d] = 0).
  { apply py_min_nonneg_zero; [apply Rabs_pos| |exact Hz].
    intros v [<-|[<-|[<-|[]]]]; apply Rabs_pos. }
  rewrite Em. rewrite (proj2 (Rltb_false tol 0) Htol).
  assert (Hx : forall u w : R, Rabs (u - w) = 0 -> w = u).
  { intros u w H. apply Rabs_zero_inv in H. lra. }
  destruct (Reqb 0 a) eqn:Ea.
  { apply Reqb_true in Ea. symmetry in Ea. apply Hx in Ea. rewrite Ea.
    now destruct q. }
  destruct (Reqb 0 b) eqn:Eb.
  { apply Reqb_true in Eb. symmetry in Eb. apply Hx in Eb. rewrite Eb.
    now destruct q. }
  destruct (Reqb 0 c) eqn:Ec.
  { apply Reqb_true in Ec. symmetry in Ec. apply Hx in Ec. rewrite Ec.
    now destruct q. }
  assert (Ed : 0 = d).
  { destruct Hz as [H|[H|[H|[H|[]]]]]; [| | |symmetry; exact H];
      exfalso; symmetry in H; apply Reqb_true in H; congruence. }
  symmetry in Ed. apply Hx in Ed. rewrite Ed. now destruct q.
Qed.

Lemma snap_point_twice (pt : option XYZ) (minX maxX minY maxY tol : R) :
  _snap_point (_snap_point pt minX maxX minY maxY tol) minX maxX minY maxY tol
  = _snap_point pt minX maxX minY maxY tol.
Proof.
  destruct pt as [p|]; [|reflexivity].
  destruct (snap_point_cases p minX maxX minY maxY tol)
    as [E|[Htol [[_ E]|[[_ E]|[[_ E]|[_ E]]]]]]; rewrite E.
  - exact E.
  - apply snap_point_on_line; [assumption|]. left. reflexivity.
  - apply snap_point_on_line; [assumption|]. right. left. reflexivity.
  - apply snap_point_on_line; [assumption|]. right. right. left. reflexivity.
  - apply snap_point_on_line; [assumption|]. right. right. right. reflexivity.
Qed.

(** X26: a snapped point keeps its elevation and either stays where
    it is or moves along one axis only, by at most the tolerance, onto
    one of the four extent lines; snapping a snapped point changes
    nothing. *)
Theorem snap_point_moves_to_a_line (p : XYZ) (minX maxX minY maxY tol : R) :
  (exists q,
      _snap_point (Some p) minX maxX minY maxY tol = Some q /\
      Revit.Z q = Revit.Z p /\
      (q = p \/
       ((Revit.X q = minX \/ Revit.X q = maxX) /\ Revit.Y q = Revit.Y p /\
        Rabs (Revit.X q - Revit.X p) <= tol) \/
       ((Revit.Y q = minY \/ Revit.Y q = maxY) /\ Revit.X q = Revit.X p /\
        Rabs (Revit.Y q - Revit.Y p) <= tol))) /\
  (forall pt,
      _snap_point (_snap_point pt minX maxX minY maxY tol) minX maxX minY maxY tol
      = _snap_point pt minX maxX minY maxY tol).
Proof.
  split; [|intros pt; apply snap_point_twice].
  destruct (snap_point_cases p minX maxX minY maxY tol)
    as [E|[Htol [[H E]|[[H E]|[[H E]|[H E]]]]]]; rewrite E.
  - exists p. repeat split. now left.
  - eexists. split; [reflexivity|]. split; [reflexivity|]. right. left. simpl.
    rewrite Rabs_minus_sym. auto.
  - eexists. split; [reflexivity|]. split; [reflexivity|]. right. left. simpl.
    rewrite Rabs_minus_sym. auto.
  - eexists. split; [reflexivity|]. split; [reflexivity|]. right. right. simpl.
    rewrite Rabs_minus_sym. auto.
  - eexists. split; [reflexivity|]. split; [reflexivity|]. right. right. simpl.
    rewrite Rabs_minus_sym. auto.
Qed.

(** *** The extents *)

Lemma extents_fold_some (floors : list (option bbox)) : forall e,
  exists e', fold_left extents_step floors (Some e) = Some e'.
Proof.
  induction floors as [|f floors IH]; intros e; [exists e; reflexivity|].
  simpl. destruct f as [bx|]; [|apply IH].
  destruct bx as [mins maxs]. destruct e as [[[a b] c] d]. apply IH.
Qed.

Lemma floor_extents_none (floors : list (option bbox)) :
  _floor_extents floors = None <-> forall f, In f floors -> f = None.
Proof.
  unfold _floor_extents. induction floors as [|f floors IH]; simpl.
  - split; [intros _ f []|reflexivity].
  - destruct f as [bx|]; [destruct bx as [mins maxs]|]; simpl.
    + split.
      * intros H. destruct (extents_fold_some floors
          (Revit.X mins, Revit.X maxs, Revit.Y mins, Revit.Y maxs)) as [e' E].
        rewrite E in H. discriminate.
      * intros H. specialize (H _ (or_introl eq_refl)). discriminate.
    + rewrite IH. split.
      * intros H f [<-|Hf]; [reflexivity|now apply H].
      * intros H f Hf. apply H. now right.
Qed.

(** *** A set of tendons *)

Lemma snapped_some (p : XYZ) (minX maxX minY maxY tol : R) :
  _snap_point (Some p) minX maxX minY maxY tol
  = Some (snapped p minX maxX minY maxY tol).
Proof.
  unfold snapped.
  destruct (snap_point_cases p minX maxX minY maxY tol)
    as [E|[_ [[_ E]|[[_ E]|[[_ E]|[_ E]]]]]]; now rewrite E.
Qed.

Lemma snapped_twice (p : XYZ) (minX maxX minY maxY tol : R) :
  snapped (snapped p minX maxX minY maxY tol) minX maxX minY maxY tol
  = snapped p minX maxX minY maxY tol.
Proof.
  pose proof (snap_point_twice (Some p) minX maxX minY maxY tol) as T.
  rewrite (snapped_some p) in T.
  rewrite (snapped_some (snapped p minX maxX minY maxY tol)) in T.
  injection T as T. exact T.
Qed.

Lemma snapped_elevation (p : XYZ) (minX maxX minY maxY tol : R) :
  Revit.Z (snapped p minX maxX minY maxY tol) = Revit.Z p.
Proof.
  unfold snapped.
  destruct (snap_point_cases p minX maxX minY maxY tol)
    as [E|[_ [[_ E]|[[_ E]|[[_ E]|[_ E]]]]]]; now rewrite E.
Qed.

(** X27: snapping the ends of a set of tendons keeps the number and
    the order of the tendons, their ids, stored lengths, profiles and
    elevations; doing it twice is doing it once; without a floor box
    nothing changes. *)
Theorem snap_tendon_ends_keeps_data
        (floors : list (option bbox)) (tendon_set : list Tendon) (tol_ft : R) :
  map tendon_data (snap_tendon_ends floors tendon_set tol_ft)
  = map tendon_data tendon_set /\
  snap_tendon_ends floors (snap_tendon_ends floors tendon_set tol_ft) tol_ft
  = snap_tendon_ends floors tendon_set tol_ft /\
  ((forall f, In f floors -> f = None) ->
   snap_tendon_ends floors tendon_set tol_ft = tendon_set).
Proof.
  unfold snap_tendon_ends. repeat split.
  - destruct (_floor_extents floors) as [[[[a b] c] d]|]; [|reflexivity].
    rewrite map_map. apply map_ext. intros t. unfold tendon_data. simpl.
    now rewrite !snapped_elevation.
  - destruct (_floor_extents floors) as [[[[a b] c] d]|]; [|reflexivity].
    rewrite map_map. apply map_ext. intros t. simpl.
    now rewrite !snapped_twice.
  - intros H. apply floor_extents_none in H. now rewrite H.
Qed.

Lemma snap_tendon_ends_keeps_data_witness :
  snap_tendon_ends [None; None] [GroupingInputs.plain_tendon] 1
  = [GroupingInputs.plain_tendon].
Proof.
  destruct (snap_tendon_ends_keeps_data [None; None] [GroupingInputs.plain_tendon] 1)
    as [_ [_ H]].
  apply H. intros f [<-|[<-|[]]]; reflexivity.
Defined.

End SnapperFacts.

(* ================================================================= *)
(** * Further properties of the export parser *)

Module ParserMoreFacts.
Import PyStr Regex PyFloat PtdParser ParserInputs ParserNotions ParserFacts.
Local Open Scope Z_scope.

(** *** White space around a line *)

Lemma lstrip_space_app (pre s : str) :
  all_space pre = true -> lstrip (pre ++ s) = lstrip s.
Proof.
  induction pre as [|c pre IH]; intros H; [reflexivity|].
  simpl in *. apply andb_prop in H. destruct H as [Hc H].
  rewrite Hc. now apply IH.
Qed.

Lemma lstrip_all_space (s : str) : all_space s = true <-> lstrip s = [].
Proof.
  induction s as [|c s IH]; simpl; [tauto|].
  destruct (isspace c); simpl; [exact IH|].
  split; discriminate.
Qed.

Lemma lstrip_app (s post : str) :
  lstrip s <> [] -> lstrip (s ++ post) = lstrip s ++ post.
Proof.
  induction s as [|c s IH]; intros H; [contradiction|].
  simpl in *. destruct (isspace c); [now apply IH|reflexivity].
Qed.

Lemma all_space_rev (s : str) : all_space s = true -> all_space (rev s) = true.
Proof.
  unfold all_space. rewrite !forallb_forall. intros H c Hc.
  apply H. now apply in_rev.
Qed.

Lemma all_space_app (s t : str) :
  all_space s = true -> all_space t = true -> all_space (s ++ t) = true.
Proof. unfold all_space. intros Hs Ht. rewrite forallb_app, Hs, Ht. reflexivity. Qed.

Lemma rstrip_app_space (t post : str) :
  all_space post = true -> rstrip (t ++ post) = rstrip t.
Proof.
  intros H. unfold rstrip. rewrite rev_app_distr.
  now rewrite lstrip_space_app by now apply all_space_rev.
Qed.

Lemma strip_padded (l l' : str) : padded l l' -> strip l' = strip l.
Proof.
  intros [pre [post [Hpre [Hpost ->]]]]. unfold strip.
  rewrite lstrip_space_app by assumption.
  destruct (lstrip l) as [|c s] eqn:E.
  - apply lstrip_all_space in E.
    assert (H : lstrip (l ++ post) = []).
    { apply lstrip_all_space. now apply all_space_app. }
    now rewrite H.
  - rewrite lstrip_app by (rewrite E; discriminate).
    rewrite E. now apply rstrip_app_space.
Qed.

Lemma step_padded (st : pstate) (l l' : str) :
  padded l l' -> step st l' = step st l.
Proof. intros H. unfold step. now rewrite (strip_padded l l' H). Qed.

Lemma run_padded (ls ls' : list str) :
  Forall2 padded ls ls' -> forall st, run st ls' = run st ls.
Proof.
  induction 1 as [|l l' ls ls' Hp _ IH]; intros st; [reflexivity|].
  simpl. rewrite (step_padded st l l' Hp).
  destruct (step st l); simpl; [apply IH|reflexivity].
Qed.

(** X28: white space before and after the lines does not matter:
    lines that differ in it only give the same result, records or
    error. *)
Theorem parse_ignores_padding (lines lines' : list str) :
  Forall2 padded lines lines' -> parse_lines lines' = parse_lines lines.
Proof. intros H. unfold parse_lines. now rewrite (run_padded _ _ H). Qed.

Lemma parse_ignores_padding_witness :
  parse_lines [L "   Tendon No. 7  "; L "  Type : 2"]
  = parse_lines [L "Tendon No. 7"; L "Type : 2"].
Proof.
  apply parse_ignores_padding.
  constructor; [|constructor; [|constructor]].
  - exists (L "   "), (L "  "). repeat split; reflexivity.
  - exists (L "  "), []. repeat split; reflexivity.
Defined.

(** *** Blocks *)

Lemma field_line_prefixed (pre : list TendonData) (st : pstate)
      (t : TendonData) (line : str) :
  field_line (prefixed pre st) t line
  = bind (field_line st t line) (fun s => Ok (prefixed pre s)).
Proof.
  unfold field_line, bind. simpl.
  repeat break_match; try reflexivity; try discriminate; congruence.
Qed.

Lemma step_prefixed (pre : list TendonData) (st : pstate) (raw : str) :
  step (prefixed pre st) raw = bind (step st raw) (fun s => Ok (prefixed pre s)).
Proof.
  unfold step. destruct (strip raw) as [|c s]; [reflexivity|].
  destruct (re_match _HEADER_TENDON_NO (c :: s)) as [m|].
  - simpl. unfold prefixed. simpl. destruct (tendon st); simpl;
      [now rewrite app_assoc|reflexivity].
  - simpl. destruct (tendon st) as [t|]; [|reflexivity].
    apply field_line_prefixed.
Qed.

Lemma run_prefixed (pre : list TendonData) (ls : list str) : forall st,
  run (prefixed pre st) ls = bind (run st ls) (fun s => Ok (prefixed pre s)).
Proof.
  induction ls as [|l ls IH]; intros st; [reflexivity|].
  simpl. rewrite step_prefixed.
  destruct (step st l) as [st'|e]; simpl; [apply IH|reflexivity].
Qed.

Lemma finish_prefixed (pre : list TendonData) (st : pstate) :
  finish (prefixed pre st) = pre ++ finish st.
Proof.
  unfold finish, prefixed. simpl. destruct (tendon st); [now rewrite app_assoc|reflexivity].
Qed.

(** X29: the blocks of a text are parsed independently: the records
    of a text that goes on with a header line are the records of the
    part before that line followed by the records of the rest; and a
    failure is final, whatever follows. *)
Theorem parse_blocks (l1 l2 : list str) (h : str) (i : Z) :
  header_id h = Some i ->
  parse_lines (l1 ++ h :: l2)
  = bind (parse_lines l1) (fun r1 =>
    bind (parse_lines (h :: l2)) (fun r2 => Ok (r1 ++ r2))) /\
  (forall e rest, parse_lines l1 = Err e -> parse_lines (l1 ++ rest) = Err e).
Proof.
  intros Hh. split.
  - unfold parse_lines. rewrite run_app.
    destruct (run init_state l1) as [st1|e]; [|reflexivity].
    simpl. rewrite !(step_header _ _ _ Hh). simpl.
    change (finish init_state) with (@nil TendonData).
    set (s0 := {| tendons := []; tendon := Some (new_tendon i); in_table := false |}).
    assert (Ep : {| tendons := finish st1; tendon := Some (new_tendon i);
                    in_table := false |} = prefixed (finish st1) s0).
    { unfold prefixed, s0. simpl. now rewrite app_nil_r. }
    rewrite Ep, run_prefixed.
    destruct (run s0 l2) as [st2|e]; simpl; [|reflexivity].
    now rewrite finish_prefixed.
  - intros e rest H. unfold parse_lines in *. rewrite run_app.
    destruct (run init_state l1) as [st1|e']; simpl in *; [discriminate|assumption].
Qed.

Lemma parse_blocks_witness :
  parse_lines ([L "Tendon No. 1"; L "Type : 2"] ++ L "Tendon No. 2" :: [L "Type : 1"])
  = bind (parse_lines [L "Tendon No. 1"; L "Type : 2"]) (fun r1 =>
    bind (parse_lines (L "Tendon No. 2" :: [L "Type : 1"])) (fun r2 => Ok (r1 ++ r2))).
Proof.
  apply (parse_blocks [L "Tendon No. 1"; L "Type : 2"] [L "Type : 1"]
                      (L "Tendon No. 2") 2).
  reflexivity.
Defined.

(** *** End kinds *)

Lemma end_marker_value_known (t : TendonData) (cap : str) :
  known_kind (end_marker_value t cap).
Proof.
  unfold end_marker_value, known_kind.
  destruct (contains _ _); [destruct (tendon_type t =? 2)|]; auto.
Qed.

Lemma field_line_known_kinds (st st' : pstate) (t : TendonData) (line : str) :
  known_kinds t ->
  field_line st t line = Ok st' ->
  tendons st' = tendons st /\
  (tendon st' = tendon st \/ exists t', tendon st' = Some t' /\ known_kinds t').
Proof.
  unfold field_line, known_kinds. intros [Hs He] H.
  repeat break_match; inv_ok; simpl; split; auto; right; eexists;
    (split; [reflexivity|]); simpl; split; auto using end_marker_value_known.
Qed.

Lemma step_known_kinds (st st' : pstate) (raw : str) :
  Forall known_kinds (finish st) ->
  step st raw = Ok st' ->
  Forall known_kinds (finish st').
Proof.
  intros Hst Hs. unfold step in Hs.
  destruct (strip raw) as [|c s]; [inv_ok; assumption|].
  destruct (re_match _HEADER_TENDON_NO (c :: s)) as [m|].
  - inv_ok. unfold finish at 1. simpl. apply Forall_app. split; [exact Hst|].
    constructor; [|constructor]. split; [left|right; right]; reflexivity.
  - destruct (tendon st) as [t|] eqn:Et; [|inv_ok; assumption].
    unfold finish in Hst. rewrite Et in Hst.
    apply Forall_app in Hst. destruct Hst as [Ha Hb].
    inversion Hb as [|? ? Hk _]; subst.
    destruct (field_line_known_kinds _ _ _ _ Hk Hs) as [Hts [Ht|[t' [Ht' Hk']]]];
      unfold finish.
    + rewrite Ht, Et, Hts. apply Forall_app. split; [assumption|].
      constructor; [assumption|constructor].
    + rewrite Ht', Hts. apply Forall_app. split; [assumption|].
      constructor; [assumption|constructor].
Qed.

Lemma run_known_kinds (ls : list str) : forall st st',
  Forall known_kinds (finish st) -> run st ls = Ok st' ->
  Forall known_kinds (finish st').
Proof.
  induction ls as [|l ls IH]; simpl; intros st st' Hst Hr.
  - inv_ok. assumption.
  - inv_ok. eapply IH; [|eassumption]. eapply step_known_kinds; eassumption.
Qed.

(** X30: in every record of a successful parse the start kind and the
    end kind are 1, 2 or 3. *)
Theorem parsed_kinds_are_known (file : option str) (recs : TendonSet) :
  parse_ptd_file file = Ok recs -> Forall known_kinds recs.
Proof.
  destruct file as [text|]; [|discriminate].
  unfold parse_ptd_file, parse_text, parse_lines. intros H. inv_ok.
  eapply run_known_kinds; [|exact E]. constructor.
Qed.

Lemma parsed_kinds_are_known_witness : Forall known_kinds [example_record 0].
Proof.
  apply (parsed_kinds_are_known (Some example_text)).
  vm_compute. reflexivity.
Defined.

End ParserMoreFacts.

(* ================================================================= *)
(** * The convex hull on binary64 coordinates *)

Module Hull64Facts.
Import PyFloat RCmp RCmpFacts Geometry HullNotions GeometryNotions.
Import Exact64 Hull64Notions.
Import HullFacts HullMoreFacts.

(** *** The order of binary64 numbers *)

Section Order.
Local Open Scope Z_scope.

Lemma digits2_bounds (m : positive) :
  2 ^ (Zpos (digits2_pos m) - 1) <= Zpos m < 2 ^ Zpos (digits2_pos m).
Proof.
  induction m as [m IH|m IH|]; cbn [digits2_pos].
  - rewrite Pos2Z.inj_succ.
    replace (Z.succ (Zpos (digits2_pos m)) - 1) with (Z.succ (Zpos (digits2_pos m) - 1))
      by lia.
    rewrite !Z.pow_succ_r by lia. lia.
  - rewrite Pos2Z.inj_succ.
    replace (Z.succ (Zpos (digits2_pos m)) - 1) with (Z.succ (Zpos (digits2_pos m) - 1))
      by lia.
    rewrite !Z.pow_succ_r by lia. lia.
  - simpl. lia.
Qed.

(** A number of the format: its exponent is not below -1074, its
    mantissa has 53 digits or fewer, and exactly 53 unless the
    exponent is -1074. *)
Lemma bounded_mantissa (m : positive) (e : Z) :
  SpecFloat.bounded prec emax m e = true ->
  -1074 <= e /\ Zpos m < 2 ^ 53 /\ (-1074 < e -> 2 ^ 52 <= Zpos m).
Proof.
  unfold SpecFloat.bounded, canonical_mantissa, fexp, emin, prec, emax.
  intros H. apply andb_true_iff in H. destruct H as [H _].
  apply Z.eqb_eq in H.
  pose proof (digits2_bounds m) as [Hlo Hhi].
  set (d := Zpos (digits2_pos m)) in *.
  assert (Hd : 0 < d) by (unfold d; lia).
  assert (Hd53 : d <= 53) by lia.
  split; [lia|]. split.
  - eapply Z.lt_le_trans; [exact Hhi|]. apply Z.pow_le_mono_r; lia.
  - intros He. assert (E : d = 53) by lia. rewrite E in Hlo. exact Hlo.
Qed.

Lemma compare_magnitudes (m1 m2 : positive) (e1 e2 : Z) :
  SpecFloat.bounded prec emax m1 e1 = true ->
  SpecFloat.bounded prec emax m2 e2 = true ->
  match e1 ?= e2 with
  | Lt => Lt
  | Gt => Gt
  | Eq => Pos.compare_cont Eq m1 m2
  end
  = (Zpos m1 * 2 ^ (e1 + 1074) ?= Zpos m2 * 2 ^ (e2 + 1074)).
Proof.
  intros H1 H2.
  destruct (bounded_mantissa _ _ H1) as [L1 [U1 N1]].
  destruct (bounded_mantissa _ _ H2) as [L2 [U2 N2]].
  assert (P52 : 2 ^ 53 = 2 * 2 ^ 52) by reflexivity.
  destruct (Z.compare_spec e1 e2) as [E|E|E].
  - subst e2. change (Pos.compare_cont Eq m1 m2) with (Zpos m1 ?= Zpos m2).
    apply Zmult_compare_compat_r. apply Z.lt_gt. apply Z.pow_pos_nonneg; lia.
  - symmetry. apply Z.compare_lt_iff.
    replace (e2 + 1074) with ((e1 + 1074) + (e2 - e1)) by lia.
    rewrite (Z.pow_add_r 2 (e1 + 1074) (e2 - e1)) by lia.
    assert (A : 0 < 2 ^ (e1 + 1074)) by (apply Z.pow_pos_nonneg; lia).
    assert (B : 2 ^ 1 <= 2 ^ (e2 - e1)) by (apply Z.pow_le_mono_r; lia).
    change (2 ^ 1) with 2 in B.
    specialize (N2 ltac:(lia)).
    assert (C : Zpos m1 < Zpos m2 * 2 ^ (e2 - e1)).
    { rewrite P52 in U1. clear P52.
      generalize dependent (2 ^ (e2 - e1)). generalize dependent (2 ^ 52).
      intros; nia. }
    rewrite Z.mul_assoc, (Z.mul_comm (Zpos m2)), <- Z.mul_assoc,
      (Z.mul_comm (2 ^ (e1 + 1074))).
    rewrite (Z.mul_comm (Zpos m1)), (Z.mul_comm _ (2 ^ (e1 + 1074))).
    apply Z.mul_lt_mono_pos_l; assumption.
  - symmetry. apply Z.compare_gt_iff.
    replace (e1 + 1074) with ((e2 + 1074) + (e1 - e2)) by lia.
    rewrite (Z.pow_add_r 2 (e2 + 1074) (e1 - e2)) by lia.
    assert (A : 0 < 2 ^ (e2 + 1074)) by (apply Z.pow_pos_nonneg; lia).
    assert (B : 2 ^ 1 <= 2 ^ (e1 - e2)) by (apply Z.pow_le_mono_r; lia).
    change (2 ^ 1) with 2 in B.
    specialize (N1 ltac:(lia)).
    assert (C : Zpos m2 < Zpos m1 * 2 ^ (e1 - e2)).
    { rewrite P52 in U2. clear P52.
      generalize dependent (2 ^ (e1 - e2)). generalize dependent (2 ^ 52).
      intros; nia. }
    rewrite Z.mul_assoc, (Z.mul_comm (Zpos m1)), <- Z.mul_assoc,
      (Z.mul_comm (2 ^ (e2 + 1074))).
    rewrite (Z.mul_comm (Zpos m2)), (Z.mul_comm _ (2 ^ (e2 + 1074))).
    apply Z.mul_lt_mono_pos_l; assumption.
Qed.

Lemma scaled_finite_pos (m : positive) (e : Z) :
  SpecFloat.bounded prec emax m e = true -> 0 < Zpos m * 2 ^ (e + 1074).
Proof.
  intros H. destruct (bounded_mantissa _ _ H) as [L _].
  apply Z.mul_pos_pos; [lia|apply Z.pow_pos_nonneg; lia].
Qed.

(** The comparison of two numbers of the format is the comparison of
    the numbers they stand for. *)
Lemma SFcompare_scaled (x y : float) :
  finite64 x = true -> finite64 y = true ->
  SFcompare x y = Some (scaled x ?= scaled y).
Proof.
  intros Hx Hy.
  destruct x as [sx|sx| |sx mx ex]; try discriminate;
    destruct y as [sy|sy| |sy my ey]; try discriminate;
    cbn [finite64] in Hx, Hy; cbn [SFcompare scaled].
  - reflexivity.
  - pose proof (scaled_finite_pos _ _ Hy) as P.
    destruct sy; cbn [cond_Zopp]; f_equal; symmetry.
    + apply Z.compare_gt_iff. lia.
    + apply Z.compare_lt_iff. lia.
  - pose proof (scaled_finite_pos _ _ Hx) as P.
    destruct sx; cbn [cond_Zopp]; f_equal; symmetry.
    + apply Z.compare_lt_iff. lia.
    + apply Z.compare_gt_iff. lia.
  - pose proof (scaled_finite_pos _ _ Hx) as Px.
    pose proof (scaled_finite_pos _ _ Hy) as Py.
    pose proof (compare_magnitudes _ _ _ _ Hx Hy) as C.
    destruct sx, sy; cbn [cond_Zopp]; f_equal.
    + rewrite !Z.mul_opp_l, Z.compare_opp, (Z.compare_antisym _ (Zpos my * _)), <- C.
      destruct (ex ?= ey); reflexivity.
    + symmetry. apply Z.compare_lt_iff. lia.
    + symmetry. apply Z.compare_gt_iff. lia.
    + exact C.
Qed.

Lemma SFltb_scaled (x y : float) :
  finite64 x = true -> finite64 y = true ->
  SFltb x y = (scaled x <? scaled y).
Proof.
  intros Hx Hy. unfold SFltb, Z.ltb. rewrite (SFcompare_scaled x y Hx Hy).
  destruct (scaled x ?= scaled y); reflexivity.
Qed.

Lemma SFeqb_scaled (x y : float) :
  finite64 x = true -> finite64 y = true ->
  SFeqb x y = (scaled x =? scaled y).
Proof.
  intros Hx Hy. unfold SFeqb. rewrite (SFcompare_scaled x y Hx Hy).
  destruct (Z.compare_spec (scaled x) (scaled y));
    destruct (Z.eqb_spec (scaled x) (scaled y)); try reflexivity; lia.
Qed.

Lemma scale_pos : 0 < scale.
Proof. unfold scale. apply Z.pow_pos_nonneg; lia. Qed.

End Order.

Local Open Scope R_scope.

Lemma scale_real_pos : 0 < IZR scale.
Proof. apply IZR_lt. exact scale_pos. Qed.

Lemma to_real_lt (x y : float) : to_real x < to_real y <-> (scaled x < scaled y)%Z.
Proof.
  unfold to_real. pose proof scale_real_pos as P. split; intros H.
  - apply lt_IZR. apply (Rmult_lt_reg_r (/ IZR scale)); [now apply Rinv_0_lt_compat|].
    exact H.
  - apply IZR_lt in H. unfold Rdiv.
    apply Rmult_lt_compat_r; [now apply Rinv_0_lt_compat|exact H].
Qed.

Lemma to_real_eq (x y : float) : to_real x = to_real y <-> scaled x = scaled y.
Proof.
  unfold to_real. pose proof scale_real_pos as P. split; intros H.
  - apply eq_IZR. apply (Rmult_eq_reg_r (/ IZR scale)); [exact H|].
    apply Rinv_neq_0_compat. lra.
  - now rewrite H.
Qed.

Lemma SFltb_real (x y : float) :
  finite64 x = true -> finite64 y = true ->
  SFltb x y = Rltb (to_real x) (to_real y).
Proof.
  intros Hx Hy. rewrite (SFltb_scaled x y Hx Hy).
  destruct (Z.ltb_spec (scaled x) (scaled y)) as [H|H]; symmetry.
  - apply Rltb_true. now apply to_real_lt.
  - apply Rltb_false. destruct (Rle_dec (to_real y) (to_real x)) as [L|L]; [exact L|].
    exfalso. apply Rnot_le_lt in L. apply to_real_lt in L. lia.
Qed.

Lemma SFeqb_real (x y : float) :
  finite64 x = true -> finite64 y = true ->
  SFeqb x y = Reqb (to_real x) (to_real y).
Proof.
  intros Hx Hy. rewrite (SFeqb_scaled x y Hx Hy). unfold Reqb.
  destruct (Z.eqb_spec (scaled x) (scaled y)) as [H|H];
    destruct (Req_dec_T (to_real x) (to_real y)) as [E|E]; try reflexivity; exfalso.
  - apply E. now apply to_real_eq.
  - apply H. now apply to_real_eq.
Qed.

Lemma finite_point_coords (p : Geometry64.point) :
  finite_point p = true -> finite64 (fst p) = true /\ finite64 (snd p) = true.
Proof. unfold finite_point. intros H. now apply andb_true_iff in H. Qed.

Lemma pt_ltb_real (p q : Geometry64.point) :
  finite_point p = true -> finite_point q = true ->
  Geometry64.pt_ltb p q = pt_ltb (to_point p) (to_point q).
Proof.
  intros Hp Hq.
  destruct (finite_point_coords p Hp) as [P1 P2].
  destruct (finite_point_coords q Hq) as [Q1 Q2].
  unfold Geometry64.pt_ltb, pt_ltb, to_point. cbn [fst snd].
  rewrite (SFeqb_real _ _ P1 Q1), (SFeqb_real _ _ P2 Q2),
    (SFltb_real _ _ P1 Q1), (SFltb_real _ _ P2 Q2).
  unfold Rltb, Reqb.
  destruct (Req_dec_T (to_real (fst p)) (to_real (fst q)));
    destruct (Req_dec_T (to_real (snd p)) (to_real (snd q)));
    destruct (Rlt_dec (to_real (fst p)) (to_real (fst q)));
    destruct (Rlt_dec (to_real (snd p)) (to_real (snd q)));
    cbn [orb andb]; try reflexivity; exfalso; lra.
Qed.

Lemma pt_eqb_real (p q : Geometry64.point) :
  finite_point p = true -> finite_point q = true ->
  Geometry64.pt_eqb p q = pt_eqb (to_point p) (to_point q).
Proof.
  intros Hp Hq.
  destruct (finite_point_coords p Hp) as [P1 P2].
  destruct (finite_point_coords q Hq) as [Q1 Q2].
  unfold Geometry64.pt_eqb, pt_eqb, to_point. cbn [fst snd].
  now rewrite (SFeqb_real _ _ P1 Q1), (SFeqb_real _ _ P2 Q2).
Qed.

(** *** The sorted sequence of distinct points *)

Lemma insert_pt_real (p : Geometry64.point) (l : list Geometry64.point) :
  finite_point p = true -> forallb finite_point l = true ->
  map to_point (Geometry64.insert_pt p l) = insert_pt (to_point p) (map to_point l).
Proof.
  intros Hp. induction l as [|q l IH]; intros Hl; [reflexivity|].
  cbn [forallb] in Hl. apply andb_true_iff in Hl. destruct Hl as [Hq Hl].
  cbn [Geometry64.insert_pt map insert_pt].
  rewrite <- (pt_ltb_real p q Hp Hq), <- (pt_eqb_real p q Hp Hq).
  destruct (Geometry64.pt_ltb p q); [reflexivity|].
  destruct (Geometry64.pt_eqb p q); [reflexivity|].
  cbn [map]. now rewrite IH.
Qed.

Lemma insert_pt_in64 (p q : Geometry64.point) (l : list Geometry64.point) :
  In q (Geometry64.insert_pt p l) -> q = p \/ In q l.
Proof.
  induction l as [|r l IH]; cbn [Geometry64.insert_pt].
  - intros [H|[]]. now left.
  - destruct (Geometry64.pt_ltb p r).
    + intros [H|H]; [now left|now right].
    + destruct (Geometry64.pt_eqb p r); [now right|].
      intros [H|H]; [right; now left|].
      destruct (IH H) as [E|E]; [now left|right; now right].
Qed.

Lemma insert_pt_finite (p : Geometry64.point) (l : list Geometry64.point) :
  finite_point p = true -> forallb finite_point l = true ->
  forallb finite_point (Geometry64.insert_pt p l) = true.
Proof.
  intros Hp Hl. apply forallb_forall. intros q Hq.
  destruct (insert_pt_in64 p q l Hq) as [->|H]; [exact Hp|].
  exact (proj1 (forallb_forall _ _) Hl q H).
Qed.

Lemma sorted_fold_real (points : list Geometry64.point) :
  forall acc,
    forallb finite_point points = true -> forallb finite_point acc = true ->
    map to_point (fold_left (fun acc p => Geometry64.insert_pt p acc) points acc)
    = fold_left (fun acc p => insert_pt p acc) (map to_point points) (map to_point acc).
Proof.
  induction points as [|p points IH]; intros acc Hp Ha; [reflexivity|].
  cbn [forallb] in Hp. apply andb_true_iff in Hp. destruct Hp as [Hp Hps].
  cbn [fold_left map]. rewrite <- (insert_pt_real p acc Hp Ha).
  apply IH; [exact Hps|now apply insert_pt_finite].
Qed.

Lemma sorted_set_real (points : list Geometry64.point) :
  forallb finite_point points = true ->
  map to_point (Geometry64.sorted_set points) = sorted_set (map to_point points).
Proof.
  intros Hp. unfold Geometry64.sorted_set.
  rewrite (sorted_fold_real points [] Hp eq_refl). cbn [map].
  rewrite <- fold_left_rev_right.
  change (fold_right (fun y x => insert_pt y x) [] (rev (map to_point points)))
    with (sorted_set (rev (map to_point points))).
  apply sorted_set_same_points. intros q. symmetry. apply in_rev.
Qed.

Lemma sorted_fold_in64 (q : Geometry64.point) (points : list Geometry64.point) :
  forall acc,
    In q (fold_left (fun acc p => Geometry64.insert_pt p acc) points acc) ->
    In q points \/ In q acc.
Proof.
  induction points as [|p points IH]; intros acc H; [now right|].
  cbn [fold_left] in H. destruct (IH _ H) as [E|E].
  - left. now right.
  - destruct (insert_pt_in64 p q acc E) as [->|E']; [left; now left|now right].
Qed.

Lemma sorted_set_in64 (q : Geometry64.point) (points : list Geometry64.point) :
  In q (Geometry64.sorted_set points) -> In q points.
Proof.
  intros H. destruct (sorted_fold_in64 q points [] H) as [E|[]]. exact E.
Qed.

(** *** The chains *)

Lemma pop_while_incl64 (p : Geometry64.point) (stack : list Geometry64.point) :
  incl (Geometry64.pop_while p stack) stack.
Proof.
  induction stack as [|b rest IH]; [apply incl_refl|].
  destruct rest as [|a rest']; [apply incl_refl|].
  cbn [Geometry64.pop_while].
  destruct (SFleb _ _); [|apply incl_refl].
  apply incl_tl. exact IH.
Qed.

Lemma fold_push_in64 (q : Geometry64.point) (l : list Geometry64.point) :
  forall stack,
    In q (fold_left Geometry64.push_point l stack) -> In q l \/ In q stack.
Proof.
  induction l as [|p l IH]; intros stack H; [now right|].
  cbn [fold_left] in H. destruct (IH _ H) as [E|E].
  - left. now right.
  - unfold Geometry64.push_point in E. destruct E as [<-|E]; [left; now left|].
    right. exact (pop_while_incl64 p stack q E).
Qed.

Lemma build_chain_in64 (q : Geometry64.point) (l : list Geometry64.point) :
  In q (Geometry64.build_chain l) -> In q l.
Proof.
  intros H. destruct (fold_push_in64 q l [] H) as [E|[]]. exact E.
Qed.

Lemma tl_in {A : Type} (x : A) (l : list A) : In x (tl l) -> In x l.
Proof. destruct l; [exact (fun H => H)|intros H; now right]. Qed.

(** The vertices of the hull are input points, whatever the
    arithmetic does. *)
Lemma hull_vertices_are_input64 (points : list Geometry64.point)
      (v : Geometry64.point) :
  In v (Geometry64.convex_hull points) -> In v points.
Proof.
  unfold Geometry64.convex_hull.
  destruct (List.length (Geometry64.sorted_set points) <=? 1)%nat.
  - apply sorted_set_in64.
  - intros H. apply in_app_or in H.
    destruct H as [H|H]; apply in_rev in H; apply tl_in in H;
      apply build_chain_in64 in H.
    + now apply sorted_set_in64.
    + apply in_rev in H. now apply sorted_set_in64.
Qed.

Section ExactTurns.
Variable known : list Geometry64.point.
Hypothesis known_exact : exact_turns known.

Lemma pop_while_real (p : Geometry64.point) (stack : list Geometry64.point) :
  In p known -> incl stack known ->
  map to_point (Geometry64.pop_while p stack)
  = pop_while (to_point p) (map to_point stack).
Proof.
  intros Hp. induction stack as [|b rest IH]; intros Hs; [reflexivity|].
  destruct rest as [|a rest']; [reflexivity|].
  change (map to_point (b :: a :: rest'))
    with (to_point b :: to_point a :: map to_point rest').
  rewrite pop_while_step. cbn [Geometry64.pop_while].
  assert (Ha : In a known) by (apply Hs; right; now left).
  assert (Hb : In b known) by (apply Hs; now left).
  rewrite (known_exact a b p Ha Hb Hp).
  destruct (Rleb _ 0); [|reflexivity].
  apply IH. intros x Hx. apply Hs. now right.
Qed.

Lemma fold_push_real (l : list Geometry64.point) :
  forall stack,
    incl l known -> incl stack known ->
    map to_point (fold_left Geometry64.push_point l stack)
    = fold_left push_point (map to_point l) (map to_point stack).
Proof.
  induction l as [|p l IH]; intros stack Hl Hs; [reflexivity|].
  assert (Hp : In p known) by (apply Hl; now left).
  cbn [fold_left map].
  rewrite IH.
  - f_equal. unfold Geometry64.push_point, push_point. cbn [map].
    now rewrite pop_while_real.
  - intros x Hx. apply Hl. now right.
  - intros x [<-|Hx]; [exact Hp|]. apply Hs. exact (pop_while_incl64 p stack x Hx).
Qed.

Lemma build_chain_real (l : list Geometry64.point) :
  incl l known ->
  map to_point (Geometry64.build_chain l) = build_chain (map to_point l).
Proof.
  intros Hl. apply (fold_push_real l []); [exact Hl|intros x []].
Qed.

End ExactTurns.

Lemma map_tl {A B : Type} (f : A -> B) (l : list A) : map f (tl l) = tl (map f l).
Proof. destruct l; reflexivity. Qed.

(** With numbers for coordinates and turn tests that rounding leaves
    right, the hull computed in binary64 is the hull of exact
    arithmetic on the same points. *)
Lemma convex_hull_real (points : list Geometry64.point) :
  forallb finite_point points = true -> exact_turns points ->
  map to_point (Geometry64.convex_hull points) = convex_hull (map to_point points).
Proof.
  intros Hf Hx. unfold Geometry64.convex_hull, convex_hull.
  rewrite <- (sorted_set_real points Hf), length_map.
  destruct (List.length (Geometry64.sorted_set points) <=? 1)%nat; [reflexivity|].
  assert (Hi : incl (Geometry64.sorted_set points) points)
    by (intros x; apply sorted_set_in64).
  rewrite map_app, !map_rev, !map_tl.
  rewrite (build_chain_real points Hx _ Hi).
  rewrite (build_chain_real points Hx (rev (Geometry64.sorted_set points))).
  - now rewrite map_rev.
  - intros x H. apply Hi. now apply in_rev.
Qed.

(** *** The turn test on the multiples of [2^-1074] *)

Lemma cross_scaled (o a b : Geometry64.point) :
  _cross (to_point o) (to_point a) (to_point b)
  = IZR (crossZ (scaled_point o) (scaled_point a) (scaled_point b))
    / (IZR scale * IZR scale).
Proof.
  unfold _cross, crossZ, to_point, scaled_point, to_real. cbn [fst snd].
  rewrite minus_IZR, !mult_IZR, !minus_IZR.
  pose proof scale_real_pos. field. lra.
Qed.

Lemma cross_sign_le (o a b : Geometry64.point) :
  Rleb (_cross (to_point o) (to_point a) (to_point b)) 0
  = (crossZ (scaled_point o) (scaled_point a) (scaled_point b) <=? 0)%Z.
Proof.
  rewrite cross_scaled. pose proof scale_real_pos as P.
  assert (Q : 0 < / (IZR scale * IZR scale))
    by (apply Rinv_0_lt_compat; now apply Rmult_lt_0_compat).
  set (z := crossZ _ _ _). unfold Rdiv.
  destruct (Z.leb_spec z 0) as [H|H].
  - apply Rleb_true. apply IZR_le in H.
    replace 0 with (0 * / (IZR scale * IZR scale)) by ring.
    apply Rmult_le_compat_r; [lra|exact H].
  - apply Rleb_false. apply IZR_lt in H. now apply Rmult_lt_0_compat.
Qed.

Lemma cross_negative (o a b : Geometry64.point) :
  (crossZ (scaled_point o) (scaled_point a) (scaled_point b) <? 0)%Z = true ->
  _cross (to_point o) (to_point a) (to_point b) < 0.
Proof.
  intros H. apply Z.ltb_lt in H. rewrite cross_scaled.
  pose proof scale_real_pos as P.
  assert (Q : 0 < / (IZR scale * IZR scale))
    by (apply Rinv_0_lt_compat; now apply Rmult_lt_0_compat).
  apply IZR_lt in H. unfold Rdiv.
  replace 0 with (0 * / (IZR scale * IZR scale)) by ring.
  apply Rmult_lt_compat_r; assumption.
Qed.

(** *** Whole numbers: no rounding below [2^53] *)

Section Whole.
Local Open Scope Z_scope.

Lemma digits2_unique (m : positive) (k : Z) :
  2 ^ (k - 1) <= Zpos m < 2 ^ k -> Zpos (digits2_pos m) = k.
Proof.
  intros [Hlo Hhi]. pose proof (digits2_bounds m) as [Dlo Dhi].
  set (d := Zpos (digits2_pos m)) in *.
  assert (Hd : 0 < d) by (unfold d; lia).
  destruct (Z.lt_trichotomy d k) as [H|[H|H]]; [|exact H|]; exfalso.
  - assert (2 ^ d <= 2 ^ (k - 1)) by (apply Z.pow_le_mono_r; lia). lia.
  - destruct (Z.le_gt_cases 0 k).
    + assert (2 ^ k <= 2 ^ (d - 1)) by (apply Z.pow_le_mono_r; lia). lia.
    + rewrite (Z.pow_neg_r 2 k) in Hhi by lia. lia.
Qed.

Lemma digits2_shift (M q : positive) (n : Z) :
  0 <= n -> Zpos M = Zpos q * 2 ^ n ->
  Zpos (digits2_pos M) = Zpos (digits2_pos q) + n.
Proof.
  intros Hn E. apply digits2_unique. rewrite E.
  pose proof (digits2_bounds q) as [Dlo Dhi].
  assert (P : 0 < 2 ^ n) by (apply Z.pow_pos_nonneg; lia).
  replace (Zpos (digits2_pos q) + n - 1) with ((Zpos (digits2_pos q) - 1) + n) by lia.
  rewrite !Z.pow_add_r by lia. split.
  - apply Z.mul_le_mono_nonneg_r; lia.
  - apply Z.mul_lt_mono_pos_r; lia.
Qed.

Lemma shr_1_double (x : Z) :
  0 <= x ->
  shr_1 (Build_shr_record (2 * x) false false) = Build_shr_record x false false.
Proof. intros H. destruct x as [|p|p]; [reflexivity|reflexivity|lia]. Qed.

Lemma iter_shr_exact (p : positive) :
  forall q, 0 <= q ->
    SpecFloat.iter_pos shr_1 p (Build_shr_record (q * 2 ^ Zpos p) false false)
    = Build_shr_record q false false.
Proof.
  induction p as [p IH|p IH|]; intros q Hq; cbn [SpecFloat.iter_pos].
  - assert (P : 0 < 2 ^ Zpos p) by (apply Z.pow_pos_nonneg; lia).
    replace (q * 2 ^ Zpos p~1) with (2 * ((q * 2 ^ Zpos p) * 2 ^ Zpos p)).
    + rewrite shr_1_double by nia. rewrite IH by nia. now apply IH.
    + replace (Zpos p~1) with (Zpos p + Zpos p + 1) by lia.
      rewrite !Z.pow_add_r by lia. rewrite Z.pow_1_r. ring.
  - assert (P : 0 < 2 ^ Zpos p) by (apply Z.pow_pos_nonneg; lia).
    replace (q * 2 ^ Zpos p~0) with ((q * 2 ^ Zpos p) * 2 ^ Zpos p).
    + rewrite IH by nia. now apply IH.
    + replace (Zpos p~0) with (Zpos p + Zpos p) by lia.
      rewrite !Z.pow_add_r by lia. ring.
  - rewrite Z.pow_1_r, Z.mul_comm. now apply shr_1_double.
Qed.

(** A mantissa [q * 2^n] at exponent [e] whose exponent in the format
    is [e + n] is stored as [q] at that exponent: nothing is rounded. *)
Lemma round_aux_exact (s : bool) (M q : positive) (e n : Z) :
  0 <= n -> Zpos M = Zpos q * 2 ^ n ->
  fexp prec emax (Zpos (digits2_pos M) + e) = e + n ->
  e + n <= emax - prec ->
  binary_round_aux prec emax s (Zpos M) e loc_Exact = S754_finite s q (e + n).
Proof.
  intros Hn EM Hf Hle.
  assert (Hq : fexp prec emax (Zpos (digits2_pos q) + (e + n)) = e + n).
  { replace (Zpos (digits2_pos q) + (e + n)) with (Zpos (digits2_pos M) + e);
      [exact Hf|]. rewrite (digits2_shift M q n Hn EM). lia. }
  unfold binary_round_aux, shr_fexp. cbn [Zdigits2 shr_record_of_loc].
  rewrite Hf. replace (e + n - e) with n by lia.
  assert (E1 : shr (Build_shr_record (Zpos M) false false) e n
               = (Build_shr_record (Zpos q) false false, e + n)).
  { unfold shr. destruct n as [|p|p]; [|rewrite EM, iter_shr_exact by lia; reflexivity|lia].
    rewrite Z.pow_0_r, Z.mul_1_r in EM. rewrite EM, Z.add_0_r. reflexivity. }
  rewrite E1. cbn [shr_m loc_of_shr_record shr_r shr_s round_nearest_even Zdigits2
                   shr_record_of_loc].
  rewrite Hq, Z.sub_diag. cbn [shr shr_m].
  apply Z.leb_le in Hle. now rewrite Hle.
Qed.

Lemma cancel_scale (a b k : Z) : 0 <= k -> a * 2 ^ k = b * 2 ^ k -> a = b.
Proof.
  intros Hk H. apply (Z.mul_reg_r _ _ (2 ^ k)); [|exact H].
  apply Z.neq_sym, Z.lt_neq, Z.pow_pos_nonneg; lia.
Qed.

(** The digits of a mantissa that stands for the whole number [N]. *)
Lemma digits_of_whole (M n : positive) (e : Z) :
  -1074 <= e -> Zpos M * 2 ^ (e + 1074) = Zpos n * 2 ^ 1074 ->
  Zpos (digits2_pos M) + e = Zpos (digits2_pos n).
Proof.
  intros He E. destruct (Z.le_gt_cases 0 e) as [H|H].
  - assert (En : Zpos n = Zpos M * 2 ^ e).
    { apply (cancel_scale _ _ 1074); [lia|].
      rewrite <- E, <- Z.mul_assoc, <- Z.pow_add_r by lia. reflexivity. }
    rewrite (digits2_shift n M e H En). reflexivity.
  - assert (EM : Zpos M = Zpos n * 2 ^ (- e)).
    { apply (cancel_scale _ _ (e + 1074)); [lia|].
      rewrite E, <- Z.mul_assoc, <- Z.pow_add_r by lia.
      f_equal. f_equal. lia. }
    rewrite (digits2_shift M n (- e) ltac:(lia) EM). lia.
Qed.

Lemma digits_le_53 (n : positive) : Zpos n < 2 ^ 53 -> Zpos (digits2_pos n) <= 53.
Proof.
  intros H. pose proof (digits2_bounds n) as [Lo _].
  destruct (Z.le_gt_cases (Zpos (digits2_pos n)) 53) as [L|L]; [exact L|].
  exfalso. assert (2 ^ 53 <= 2 ^ (Zpos (digits2_pos n) - 1))
    by (apply Z.pow_le_mono_r; lia). lia.
Qed.

Lemma digits_ge_53 (M : positive) : 2 ^ 52 <= Zpos M -> 53 <= Zpos (digits2_pos M).
Proof.
  intros H. pose proof (digits2_bounds M) as [_ Hi].
  destruct (Z.le_gt_cases 53 (Zpos (digits2_pos M))) as [L|L]; [exact L|].
  exfalso. assert (2 ^ Zpos (digits2_pos M) <= 2 ^ 52)
    by (apply Z.pow_le_mono_r; lia). lia.
Qed.

(** A mantissa of 53 digits or more that stands for a whole number
    below [2^53] is rounded to that number. *)
Lemma round_aux_whole (s : bool) (M n : positive) (e : Z) :
  2 ^ 52 <= Zpos M -> -1074 <= e ->
  Zpos M * 2 ^ (e + 1074) = Zpos n * 2 ^ 1074 -> Zpos n < 2 ^ 53 ->
  exists m' f,
    binary_round_aux prec emax s (Zpos M) e loc_Exact = S754_finite s m' f /\
    SpecFloat.bounded prec emax m' f = true /\
    Zpos m' * 2 ^ (f + 1074) = Zpos n * 2 ^ 1074.
Proof.
  intros HM He E Hn.
  pose proof (digits_of_whole M n e He E) as HD.
  pose proof (digits_le_53 n Hn) as HD53.
  pose proof (digits_ge_53 M HM) as HM53.
  set (D := Zpos (digits2_pos n)) in *.
  assert (HD1 : 1 <= D) by (unfold D; lia).
  set (f := D - 53).
  assert (Pm : 0 < Zpos n * 2 ^ (53 - D))
    by (apply Z.mul_pos_pos; [lia|apply Z.pow_pos_nonneg; lia]).
  destruct (Zpos n * 2 ^ (53 - D)) as [|m'|m'] eqn:Em; try lia.
  assert (Ev : Zpos m' * 2 ^ (f + 1074) = Zpos n * 2 ^ 1074).
  { rewrite <- Em, <- Z.mul_assoc, <- Z.pow_add_r by (unfold f; lia).
    f_equal. f_equal. unfold f. lia. }
  assert (EM : Zpos M = Zpos m' * 2 ^ (f - e)).
  { apply (cancel_scale _ _ (e + 1074)); [lia|].
    rewrite E, <- Ev, <- Z.mul_assoc, <- Z.pow_add_r by (unfold f; lia).
    f_equal. f_equal. lia. }
  assert (Dm : Zpos (digits2_pos m') = 53).
  { rewrite (digits2_shift m' n (53 - D)) by (try lia; now rewrite Em).
    unfold D. lia. }
  exists m', f. split; [|split; [|exact Ev]].
  - rewrite (round_aux_exact s M m' e (f - e)); try lia; try exact EM.
    + f_equal. lia.
    + unfold fexp, emin, prec, emax. rewrite HD. unfold f. lia.
    + unfold prec, emax, f. lia.
  - unfold SpecFloat.bounded, canonical_mantissa, fexp, emin, prec, emax.
    rewrite Dm. apply andb_true_iff. split; [apply Z.eqb_eq|apply Z.leb_le];
      unfold f; lia.
Qed.

Lemma shift_left_value (m : positive) (d : positive) :
  Zpos (Pos.iter xO m d) = Zpos m * 2 ^ Zpos d.
Proof.
  pose proof (Zpower.shift_pos_correct d m) as H. unfold Zpower.shift_pos in H.
  rewrite H. rewrite Zpower.Zpower_pos_nat, Zpower.Zpower_nat_Z, positive_nat_Z.
  ring.
Qed.

Lemma binary_round_whole (s : bool) (m n : positive) (e : Z) :
  -1074 <= e ->
  Zpos m * 2 ^ (e + 1074) = Zpos n * 2 ^ 1074 -> Zpos n < 2 ^ 53 ->
  exists m' f,
    binary_round prec emax s m e = S754_finite s m' f /\
    SpecFloat.bounded prec emax m' f = true /\
    Zpos m' * 2 ^ (f + 1074) = Zpos n * 2 ^ 1074.
Proof.
  intros He E Hn.
  pose proof (digits_of_whole m n e He E) as HD.
  pose proof (digits_le_53 n Hn) as HD53.
  assert (HD1 : 1 <= Zpos (digits2_pos n)) by lia.
  unfold binary_round, shl_align.
  assert (Ef : fexp prec emax (Zpos (digits2_pos m) + e) = Zpos (digits2_pos n) - 53).
  { unfold fexp, emin, prec, emax. rewrite HD. lia. }
  rewrite Ef.
  destruct (Zpos (digits2_pos n) - 53 - e) as [|d|d] eqn:Ed.
  - apply round_aux_whole; try assumption.
    pose proof (digits2_bounds m) as [Lo _].
    eapply Z.le_trans; [|exact Lo]. apply Z.pow_le_mono_r; lia.
  - apply round_aux_whole; try assumption.
    pose proof (digits2_bounds m) as [Lo _].
    eapply Z.le_trans; [|exact Lo]. apply Z.pow_le_mono_r; lia.
  - assert (Es : Zpos (Pos.iter xO m d) = Zpos m * 2 ^ Zpos d)
      by apply shift_left_value.
    apply round_aux_whole; try assumption; try lia.
    + pose proof (digits2_bounds (Pos.iter xO m d)) as [Lo _].
      rewrite (digits2_shift _ m (Zpos d) ltac:(lia) Es) in Lo.
      eapply Z.le_trans; [|exact Lo]. apply Z.pow_le_mono_r; lia.
    + rewrite Es, <- E, <- Z.mul_assoc, <- Z.pow_add_r by lia.
      f_equal. f_equal. lia.
Qed.

Lemma shl_align_value (m : positive) (e e' : Z) :
  -1074 <= e' -> e' <= e ->
  Zpos (fst (shl_align m e e')) * 2 ^ (e' + 1074) = Zpos m * 2 ^ (e + 1074).
Proof.
  intros He' Hle. unfold shl_align.
  destruct (e' - e) as [|d|d] eqn:Ed; cbn [fst].
  - f_equal. f_equal. lia.
  - lia.
  - rewrite shift_left_value, <- Z.mul_assoc, <- Z.pow_add_r by lia.
    f_equal. f_equal. lia.
Qed.

Lemma normalize_whole (z e c : Z) :
  -1074 <= e -> z * 2 ^ (e + 1074) = c * 2 ^ 1074 -> Z.abs c < 2 ^ 53 ->
  finite64 (binary_normalize prec emax z e false) = true /\
  scaled (binary_normalize prec emax z e false) = c * 2 ^ 1074.
Proof.
  intros He E Hc.
  assert (P : 0 < 2 ^ (e + 1074)) by (apply Z.pow_pos_nonneg; lia).
  assert (S1 : 0 < 2 ^ 1074) by (apply Z.pow_pos_nonneg; lia).
  unfold binary_normalize. destruct z as [|m|m].
  - split; [reflexivity|]. cbn [scaled]. rewrite Z.mul_0_l in E.
    symmetry in E. apply Z.mul_eq_0 in E. destruct E as [E|E]; [now rewrite E|lia].
  - assert (Hpos : 0 < c) by nia.
    destruct c as [|n|n]; try lia.
    destruct (binary_round_whole false m n e He E ltac:(lia)) as [m' [f [R [B V]]]].
    rewrite R. split; [exact B|]. cbn [scaled cond_Zopp]. exact V.
  - assert (Hneg : c < 0) by nia.
    destruct c as [|n|n]; try lia.
    assert (E' : Zpos m * 2 ^ (e + 1074) = Zpos n * 2 ^ 1074).
    { change (Zneg m) with (- Zpos m) in E. change (Zneg n) with (- Zpos n) in E. lia. }
    destruct (binary_round_whole true m n e He E' ltac:(lia)) as [m' [f [R [B V]]]].
    rewrite R. split; [exact B|]. cbn [scaled cond_Zopp].
    change (Zneg n) with (- Zpos n). lia.
Qed.

(** Subtraction of whole numbers does not round while the difference
    stays below [2^53]. *)
Lemma fsub_whole (x y : float) (a b : Z) :
  finite64 x = true -> scaled x = a * 2 ^ 1074 ->
  finite64 y = true -> scaled y = b * 2 ^ 1074 ->
  Z.abs (a - b) < 2 ^ 53 ->
  finite64 (Geometry64.fsub x y) = true /\
  scaled (Geometry64.fsub x y) = (a - b) * 2 ^ 1074.
Proof.
  intros Fx Vx Fy Vy Hab. unfold Geometry64.fsub.
  assert (S1 : 0 < 2 ^ 1074) by (apply Z.pow_pos_nonneg; lia).
  destruct x as [sx|sx| |sx mx ex]; try discriminate;
    destruct y as [sy|sy| |sy my ey]; try discriminate;
    cbn [finite64] in Fx, Fy; cbn [scaled] in Vx, Vy.
  - assert (a = 0) by nia. assert (b = 0) by nia. subst.
    destruct sx, sy; cbn [SFsub]; split; reflexivity.
  - assert (a = 0) by nia. subst. cbn [SFsub finite64 scaled].
    split; [exact Fy|]. destruct sy; cbn [negb cond_Zopp] in *; lia.
  - assert (b = 0) by nia. subst. cbn [SFsub finite64 scaled].
    split; [exact Fx|]. rewrite Vx. f_equal. lia.
  - cbn [SFsub]. cbv zeta.
    destruct (bounded_mantissa _ _ Fx) as [Lx _].
    destruct (bounded_mantissa _ _ Fy) as [Ly _].
    apply normalize_whole; [lia| |exact Hab].
    pose proof (shl_align_value mx ex (Z.min ex ey) ltac:(lia) ltac:(lia)) as Ax.
    pose proof (shl_align_value my ey (Z.min ex ey) ltac:(lia) ltac:(lia)) as Ay.
    rewrite Z.mul_sub_distr_r.
    destruct sx, sy; cbn [cond_Zopp] in *; rewrite ?Z.mul_opp_l in *; lia.
Qed.

(** The mantissa of a whole number other than zero has 53 digits, and
    its exponent is -52 or more. *)
Lemma whole_mantissa (m : positive) (e a : Z) :
  SpecFloat.bounded prec emax m e = true ->
  Zpos m * 2 ^ (e + 1074) = Z.abs a * 2 ^ 1074 ->
  2 ^ 52 <= Zpos m /\ -52 <= e.
Proof.
  intros B V. destruct (bounded_mantissa _ _ B) as [L [U N]].
  assert (S1 : 0 < 2 ^ 1074) by (apply Z.pow_pos_nonneg; lia).
  assert (P : 0 < 2 ^ (e + 1074)) by (apply Z.pow_pos_nonneg; lia).
  assert (Ha : 1 <= Z.abs a) by nia.
  assert (He : -52 <= e).
  { destruct (Z.le_gt_cases (-52) e) as [H|H]; [exact H|]. exfalso.
    assert (Q : 2 ^ (e + 1074) * 2 ^ 53 <= 2 ^ 1074).
    { rewrite <- Z.pow_add_r by lia. apply Z.pow_le_mono_r; lia. }
    nia. }
  split; [apply N; lia|exact He].
Qed.

(** Multiplication of whole numbers does not round while the product
    stays below [2^53]. *)
Lemma fmul_whole (x y : float) (a b : Z) :
  finite64 x = true -> scaled x = a * 2 ^ 1074 ->
  finite64 y = true -> scaled y = b * 2 ^ 1074 ->
  Z.abs (a * b) < 2 ^ 53 ->
  finite64 (fmul x y) = true /\ scaled (fmul x y) = (a * b) * 2 ^ 1074.
Proof.
  intros Fx Vx Fy Vy Hab. unfold fmul.
  assert (S1 : 0 < 2 ^ 1074) by (apply Z.pow_pos_nonneg; lia).
  destruct x as [sx|sx| |sx mx ex]; try discriminate;
    destruct y as [sy|sy| |sy my ey]; try discriminate;
    cbn [finite64] in Fx, Fy; cbn [scaled] in Vx, Vy.
  - assert (a = 0) by nia. subst. split; reflexivity.
  - assert (a = 0) by nia. subst. split; reflexivity.
  - assert (b = 0) by nia. subst. cbn [SFmul finite64 scaled].
    split; [reflexivity|]. lia.
  - cbn [SFmul].
    assert (Ax : Zpos mx * 2 ^ (ex + 1074) = Z.abs a * 2 ^ 1074)
      by (destruct sx; cbn [cond_Zopp] in Vx; nia).
    assert (Ay : Zpos my * 2 ^ (ey + 1074) = Z.abs b * 2 ^ 1074)
      by (destruct sy; cbn [cond_Zopp] in Vy; nia).
    destruct (whole_mantissa _ _ _ Fx Ax) as [Mx Ex].
    destruct (whole_mantissa _ _ _ Fy Ay) as [My Ey].
    assert (Pp : 1 <= Z.abs (a * b)).
    { rewrite Z.abs_mul. assert (1 <= Z.abs a) by nia. assert (1 <= Z.abs b) by nia.
      nia. }
    destruct (Z.abs (a * b)) as [|n|n] eqn:En; try lia.
    assert (Ev : Zpos (mx * my) * 2 ^ (ex + ey + 1074) = Zpos n * 2 ^ 1074).
    { apply (cancel_scale _ _ 1074); [lia|].
      rewrite <- En, Z.abs_mul, Pos2Z.inj_mul.
      rewrite <- (Z.mul_assoc _ (2 ^ (ex + ey + 1074))), <- Z.pow_add_r by lia.
      replace (ex + ey + 1074 + 1074) with ((ex + 1074) + (ey + 1074)) by lia.
      rewrite Z.pow_add_r by lia.
      transitivity ((Zpos mx * 2 ^ (ex + 1074)) * (Zpos my * 2 ^ (ey + 1074))); [ring|].
      rewrite Ax, Ay. ring. }
    assert (HM : 2 ^ 52 <= Zpos (mx * my)).
    { rewrite Pos2Z.inj_mul. assert (0 < 2 ^ 52) by (apply Z.pow_pos_nonneg; lia). nia. }
    destruct (round_aux_whole (xorb sx sy) (mx * my) n (ex + ey) HM ltac:(lia) Ev
                ltac:(lia)) as [m' [f [R [B V]]]].
    rewrite R. split; [exact B|]. cbn [scaled].
    assert (Sa : (sx = true /\ a < 0) \/ (sx = false /\ 0 < a))
      by (destruct sx; cbn [cond_Zopp] in Vx; [left|right]; split; try reflexivity; nia).
    assert (Sb : (sy = true /\ b < 0) \/ (sy = false /\ 0 < b))
      by (destruct sy; cbn [cond_Zopp] in Vy; [left|right]; split; try reflexivity; nia).
    destruct Sa as [[-> Ha]|[-> Ha]], Sb as [[-> Hb]|[-> Hb]]; cbn [xorb cond_Zopp];
      rewrite ?Z.mul_opp_l, V, <- En.
    + rewrite Z.abs_eq by nia. reflexivity.
    + rewrite Z.abs_neq by nia. ring.
    + rewrite Z.abs_neq by nia. ring.
    + rewrite Z.abs_eq by nia. reflexivity.
Qed.

Lemma abs_mul_bound (x y : Z) :
  Z.abs x < 2 ^ 26 -> Z.abs y < 2 ^ 26 -> Z.abs (x * y) < 2 ^ 52.
Proof.
  intros Hx Hy. rewrite Z.abs_mul.
  change (2 ^ 52) with (2 ^ 26 * 2 ^ 26).
  pose proof (Z.abs_nonneg x). pose proof (Z.abs_nonneg y).
  apply Z.mul_lt_mono_nonneg; assumption.
Qed.

(** On whole numbers below [2^25] the turn test computes the exact
    value. *)
Lemma cross_whole (o a b : Geometry64.point) (o1 o2 a1 a2 b1 b2 : Z) :
  finite64 (fst o) = true -> scaled (fst o) = o1 * 2 ^ 1074 ->
  finite64 (snd o) = true -> scaled (snd o) = o2 * 2 ^ 1074 ->
  finite64 (fst a) = true -> scaled (fst a) = a1 * 2 ^ 1074 ->
  finite64 (snd a) = true -> scaled (snd a) = a2 * 2 ^ 1074 ->
  finite64 (fst b) = true -> scaled (fst b) = b1 * 2 ^ 1074 ->
  finite64 (snd b) = true -> scaled (snd b) = b2 * 2 ^ 1074 ->
  Z.abs o1 < 2 ^ 25 -> Z.abs o2 < 2 ^ 25 ->
  Z.abs a1 < 2 ^ 25 -> Z.abs a2 < 2 ^ 25 ->
  Z.abs b1 < 2 ^ 25 -> Z.abs b2 < 2 ^ 25 ->
  finite64 (Geometry64._cross o a b) = true /\
  scaled (Geometry64._cross o a b)
  = ((a1 - o1) * (b2 - o2) - (a2 - o2) * (b1 - o1)) * 2 ^ 1074.
Proof.
  intros Fo1 Vo1 Fo2 Vo2 Fa1 Va1 Fa2 Va2 Fb1 Vb1 Fb2 Vb2 Bo1 Bo2 Ba1 Ba2 Bb1 Bb2.
  unfold Geometry64._cross.
  assert (P26 : 2 ^ 26 = 2 * 2 ^ 25) by reflexivity.
  assert (P53 : 2 ^ 53 = 2 * 2 ^ 52) by reflexivity.
  assert (L26 : 2 ^ 26 < 2 ^ 53) by (apply Z.pow_lt_mono_r; lia).
  destruct (fsub_whole _ _ _ _ Fa1 Va1 Fo1 Vo1) as [F1 V1]; [lia|].
  destruct (fsub_whole _ _ _ _ Fb2 Vb2 Fo2 Vo2) as [F2 V2]; [lia|].
  destruct (fsub_whole _ _ _ _ Fa2 Va2 Fo2 Vo2) as [F3 V3]; [lia|].
  destruct (fsub_whole _ _ _ _ Fb1 Vb1 Fo1 Vo1) as [F4 V4]; [lia|].
  assert (M1 : Z.abs ((a1 - o1) * (b2 - o2)) < 2 ^ 52) by (apply abs_mul_bound; lia).
  assert (M2 : Z.abs ((a2 - o2) * (b1 - o1)) < 2 ^ 52) by (apply abs_mul_bound; lia).
  destruct (fmul_whole _ _ _ _ F1 V1 F2 V2) as [F5 V5]; [lia|].
  destruct (fmul_whole _ _ _ _ F3 V3 F4 V4) as [F6 V6]; [lia|].
  apply (fsub_whole _ _ _ _ F5 V5 F6 V6). lia.
Qed.

Lemma SFleb_zero_scaled (c : float) :
  finite64 c = true -> SFleb c Geometry64.fzero = (scaled c <=? 0).
Proof.
  intros Fc. unfold SFleb, Z.leb.
  rewrite (SFcompare_scaled c Geometry64.fzero Fc eq_refl). cbn [scaled Geometry64.fzero].
  destruct (scaled c ?= 0); reflexivity.
Qed.

Lemma leb_scale (n k : Z) : 0 < k -> (n * k <=? 0) = (n <=? 0).
Proof.
  intros Hk. destruct (Z.leb_spec (n * k) 0), (Z.leb_spec n 0); try reflexivity; nia.
Qed.
End Whole.

Lemma whole_number_scaled (x : float) (n : Z) :
  whole_number x n -> finite64 x = true /\ scaled x = (n * 2 ^ 1074)%Z.
Proof.
  intros [F V]. split; [exact F|]. unfold to_real in V.
  pose proof scale_real_pos as P.
  apply eq_IZR. rewrite mult_IZR. change (2 ^ 1074)%Z with scale.
  apply (Rmult_eq_reg_r (/ IZR scale)); [|apply Rinv_neq_0_compat; lra].
  rewrite Rmult_assoc, Rinv_r by lra. rewrite Rmult_1_r. exact V.
Qed.

(** No rounding error changes a turn test between points whose
    coordinates are whole numbers below [2^25] in magnitude. *)
Lemma whole_points_exact (points : list Geometry64.point) :
  (forall p, In p points -> small_whole_point p) ->
  forallb finite_point points = true /\ exact_turns points.
Proof.
  intros H. split.
  - apply forallb_forall. intros p Hp.
    destruct (H p Hp) as [n1 [n2 [[F1 _] [[F2 _] _]]]].
    unfold finite_point. now rewrite F1, F2.
  - intros o a b Ho Ha Hb. unfold exact_turn.
    destruct (H o Ho) as [o1 [o2 [Wo1 [Wo2 [Bo1 Bo2]]]]].
    destruct (H a Ha) as [a1 [a2 [Wa1 [Wa2 [Ba1 Ba2]]]]].
    destruct (H b Hb) as [b1 [b2 [Wb1 [Wb2 [Bb1 Bb2]]]]].
    apply whole_number_scaled in Wo1, Wo2, Wa1, Wa2, Wb1, Wb2.
    destruct Wo1 as [Fo1 Vo1], Wo2 as [Fo2 Vo2], Wa1 as [Fa1 Va1],
             Wa2 as [Fa2 Va2], Wb1 as [Fb1 Vb1], Wb2 as [Fb2 Vb2].
    destruct (cross_whole o a b o1 o2 a1 a2 b1 b2) as [Fc Vc]; try assumption.
    rewrite (SFleb_zero_scaled _ Fc), Vc, cross_sign_le.
    unfold crossZ, scaled_point. cbn [fst snd].
    rewrite Vo1, Vo2, Va1, Va2, Vb1, Vb2.
    assert (S1 : (0 < 2 ^ 1074)%Z) by (apply Z.pow_pos_nonneg; lia).
    rewrite (leb_scale _ _ S1).
    replace ((a1 * 2 ^ 1074 - o1 * 2 ^ 1074) * (b2 * 2 ^ 1074 - o2 * 2 ^ 1074)
             - (a2 * 2 ^ 1074 - o2 * 2 ^ 1074) * (b1 * 2 ^ 1074 - o1 * 2 ^ 1074))%Z
      with ((((a1 - o1) * (b2 - o2) - (a2 - o2) * (b1 - o1)) * 2 ^ 1074) * 2 ^ 1074)%Z
      by ring.
    now rewrite !(leb_scale _ _ S1).
Qed.

Lemma whole_number_of_scaled (x : float) (n : Z) :
  finite64 x = true -> scaled x = (n * scale)%Z -> whole_number x n.
Proof.
  intros F V. split; [exact F|]. unfold to_real. rewrite V, mult_IZR.
  pose proof scale_real_pos. field. lra.
Qed.

(** *** Inside the hull, over the reals *)

Lemma between_on_segment (u v p : point) :
  lexlt u v -> lexle u p -> lexle p v -> _cross u v p = 0 -> on_segment u v p.
Proof.
  destruct u as [ux uy], v as [vx vy], p as [px py].
  unfold lexle, lexlt, on_segment, _cross. cbn [fst snd].
  intros Huv Hup Hpv Hc.
  assert (X : ux <= px <= vx).
  { destruct Hup as [[H|[H _]]|H]; [| |inversion H];
      destruct Hpv as [[H'|[H' _]]|H']; [| |inversion H'| | |inversion H'| | |inversion H'];
      lra. }
  destruct (Rlt_dec ux vx) as [Hx|Hx].
  - exists ((px - ux) / (vx - ux)). split; [|split].
    + split.
      * apply Rmult_le_pos; [lra|]. apply Rlt_le, Rinv_0_lt_compat. lra.
      * apply (Rmult_le_reg_r (vx - ux)); [lra|]. field_simplify; lra.
    + field. lra.
    + apply (Rmult_eq_reg_r (vx - ux)); [|lra]. field_simplify; lra.
  - assert (Ex : ux = vx) by (destruct Huv as [H|[H _]]; lra).
    assert (Hy : uy < vy) by (destruct Huv as [H|[_ H]]; lra).
    assert (Ep : px = ux) by lra.
    assert (Y : uy <= py <= vy).
    { split.
      - destruct Hup as [[H|[_ H]]|H]; [lra|lra|inversion H; lra].
      - destruct Hpv as [[H|[_ H]]|H]; [lra|lra|inversion H; lra]. }
    exists ((py - uy) / (vy - uy)). split; [|split].
    + split.
      * apply Rmult_le_pos; [lra|]. apply Rlt_le, Rinv_0_lt_compat. lra.
      * apply (Rmult_le_reg_r (vy - uy)); [lra|]. field_simplify; lra.
    + subst. lra.
    + field. lra.
Qed.

(** Every input point is inside the hull or on its boundary, whatever
    the number of vertices. *)
Lemma input_within_hull (points : list point) (p : point) :
  In p points -> within_hull (convex_hull points) p.
Proof.
  intros Hp. pose proof (input_inside_hull points p Hp) as Hin.
  pose proof (proj2 (sorted_set_in p points) Hp) as Hs.
  pose proof (sorted_set_sorted points) as Hsorted.
  destruct (convex_hull_cases points)
    as [[Hlen E]|[p1 [pn [mid [X [Y [Ep [EL [EU E]]]]]]]]].
  - rewrite E in *.
    destruct (sorted_set points) as [|a [|b l]]; cbn [List.length] in Hlen;
      [contradiction| |lia].
    destruct Hs as [<-|[]]. reflexivity.
  - rewrite E in *. rewrite !rev_app_distr in *. cbn [rev app] in *.
    destruct (rev X) as [|x xs] eqn:EX; [|destruct xs; exact Hin].
    destruct (rev Y) as [|y ys] eqn:EY; [|exact Hin].
    cbn [app within_hull] in *.
    rewrite Ep in Hs, Hsorted.
    assert (H1n : lexlt p1 pn).
    { inversion Hsorted as [|? ? _ Hf]; subst. rewrite Forall_forall in Hf.
      apply Hf. apply in_or_app. right. now left. }
    apply between_on_segment.
    + exact H1n.
    + inversion Hsorted as [|? ? _ Hf]; subst. rewrite Forall_forall in Hf.
      destruct Hs as [<-|Hs]; [now right|]. left. now apply Hf.
    + change (p1 :: mid ++ [pn]) with ((p1 :: mid) ++ [pn]) in Hs, Hsorted.
      apply in_app_or in Hs. destruct Hs as [Hs|[<-|[]]]; [|now right].
      left. exact (sorted_last_greatest _ _ Hsorted p Hs).
    + pose proof (Hin p1 pn (or_introl eq_refl)) as A.
      pose proof (Hin pn p1 (or_intror (or_introl eq_refl))) as B.
      unfold _cross in *. lra.
Qed.

(** *** The test of the code *)

Lemma SFleb_not_ltb (c : float) :
  SFleb c Geometry64.fzero = true -> SFltb Geometry64.fzero c = false.
Proof.
  unfold SFleb, SFltb, Geometry64.fzero.
  destruct c as [s|s| |s m e]; cbn [SFcompare]; try destruct s;
    try reflexivity; discriminate.
Qed.

Lemma in_convex_loop_inside64 (pt : Geometry64.point)
      (edges : list (Geometry64.point * Geometry64.point)) :
  forall sign,
    sign = None \/ sign = Some false ->
    (forall u v, In (u, v) edges ->
                 SFleb (Geometry64._cross u pt v) Geometry64.fzero = true) ->
    Geometry64.in_convex_loop pt edges sign = true.
Proof.
  induction edges as [|[p1 p2] edges IH]; intros sign Hs He; [reflexivity|].
  cbn [Geometry64.in_convex_loop].
  assert (Hrest : forall u v, In (u, v) edges ->
                    SFleb (Geometry64._cross u pt v) Geometry64.fzero = true)
    by (intros; apply He; now right).
  destruct (SFltb (SFabs _) Geometry64.edge_eps); [now apply IH|].
  pose proof (SFleb_not_ltb _ (He p1 p2 (or_introl eq_refl))) as E.
  unfold Geometry64._cross in E. cbn [fst snd] in E. rewrite E.
  destruct Hs as [->| ->]; cbn [Bool.eqb]; apply IH; auto.
Qed.

Lemma combine_real (l1 : list Geometry64.point) :
  forall (l2 : list Geometry64.point) (u v : Geometry64.point),
    In (u, v) (combine l1 l2) ->
    In (to_point u, to_point v) (combine (map to_point l1) (map to_point l2)).
Proof.
  induction l1 as [|x l1 IH]; intros l2 u v H; [destruct H|].
  destruct l2 as [|y l2]; [destruct H|].
  cbn [combine map] in *. destruct H as [H|H].
  - inversion H; subst. now left.
  - right. now apply IH.
Qed.

Lemma hull_edges_real (hull : list Geometry64.point) (u v : Geometry64.point) :
  In (u, v) (Geometry64.hull_edges hull) ->
  In (to_point u, to_point v) (hull_edges (map to_point hull)).
Proof.
  unfold Geometry64.hull_edges, hull_edges.
  destruct hull as [|p ps]; [intros []|].
  intros H. apply combine_real in H.
  cbn [map] in *. now rewrite map_app in H.
Qed.

Lemma cross_swap (o a b : point) : _cross o a b = - _cross o b a.
Proof. unfold _cross. ring. Qed.

(** *** The stated property *)

(** C6 (as stated): every input point lies inside or on the boundary
    of the returned hull, and the vertex order has strictly positive
    signed area.  The hull of a single point is that point, with signed
    area 0; and on five points of a floor plan, of which four are on
    one line in decimal, the turn test rounds to 0 at a vertex that is
    strictly convex (so the turn tests are not all exact there): the
    hull is returned without it, that input point is strictly to the
    right of an edge of the returned hull, and [pt_in_convex] rejects
    it. *)
Lemma C6_no_area_and_rounding :
  (Geometry64.convex_hull single_point64 = single_point64 /\
   signed_area (map to_point (Geometry64.convex_hull single_point64)) = 0) /\
  (forallb finite_point plan_points64 = true /\
   In dropped_point64 plan_points64 /\
   Geometry64.convex_hull plan_points64
   = [(whole 0, whole 5600); (whole 4300, whole 800); (tenths 53622, whole 245)] /\
   _cross (to_point (tenths 53622, whole 245)) (to_point (whole 0, whole 5600))
          (to_point dropped_point64) < 0 /\
   ~ within_hull (map to_point (Geometry64.convex_hull plan_points64))
                 (to_point dropped_point64) /\
   Geometry64.pt_in_convex dropped_point64 (Geometry64.convex_hull plan_points64)
   = false /\
   ~ exact_turns plan_points64).
Proof.
  assert (E1 : Geometry64.convex_hull single_point64 = single_point64)
    by (vm_compute; reflexivity).
  assert (E5 : Geometry64.convex_hull plan_points64
               = [(whole 0, whole 5600); (whole 4300, whole 800);
                  (tenths 53622, whole 245)])
    by (vm_compute; reflexivity).
  assert (Hneg : _cross (to_point (tenths 53622, whole 245))
                        (to_point (whole 0, whole 5600))
                        (to_point dropped_point64) < 0)
    by (apply cross_negative; vm_compute; reflexivity).
  split; [split|].
  - exact E1.
  - rewrite E1. unfold single_point64, signed_area, hull_edges, Rsum, edge_det.
    cbn [map combine app fold_left fst snd]. unfold Rdiv. ring.
  - split; [vm_compute; reflexivity|].
    split; [right; right; left; reflexivity|].
    split; [exact E5|]. split; [exact Hneg|]. split.
    + rewrite E5. cbn [map within_hull]. intros H.
      specialize (H (to_point (tenths 53622, whole 245))
                    (to_point (whole 0, whole 5600))).
      assert (Hin : In (to_point (tenths 53622, whole 245),
                        to_point (whole 0, whole 5600))
                       (hull_edges [to_point (whole 0, whole 5600);
                                    to_point (whole 4300, whole 800);
                                    to_point (tenths 53622, whole 245)])).
      { unfold hull_edges. cbn [combine app]. right. right. left. reflexivity. }
      specialize (H Hin). lra.
    + split; [vm_compute; reflexivity|].
      intros Hx.
      assert (Ht : exact_turn (tenths 53622, whole 245) dropped_point64
                              (tenths 17874, whole 3815)).
      { apply Hx; unfold plan_points64, dropped_point64.
        - right. right. right. now left.
        - right. right. now left.
        - right. now left. }
      unfold exact_turn in Ht. rewrite cross_sign_le in Ht.
      vm_compute in Ht. discriminate.
Qed.

(** C6 (amended): the vertices of the hull are input points, whatever
    the arithmetic does.  When the coordinates are numbers and no
    rounding error changes the outcome of a turn test between three
    input points, as is the case when all coordinates are whole
    numbers below [2^25] in magnitude, every input point lies inside
    the returned hull or
    on its boundary (it is the vertex of a hull of one vertex, on the
    segment of a hull of two, and on or to the left of every edge of a
    hull of three or more, where [pt_in_convex] accepts it); the
    signed area of the vertex order is
    never negative, and it is strictly positive (counter-clockwise
    order) when the hull has three vertices or more, which it has
    whenever three input points are not on one line. *)
Theorem C6_hull_of_exact_turns (points : list Geometry64.point) :
  (forall v, In v (Geometry64.convex_hull points) -> In v points) /\
  (forallb finite_point points = true -> exact_turns points ->
   (forall p, In p points ->
      within_hull (map to_point (Geometry64.convex_hull points)) (to_point p)) /\
   (forall p, In p points ->
      (3 <= List.length (Geometry64.convex_hull points))%nat ->
      Geometry64.pt_in_convex p (Geometry64.convex_hull points) = true) /\
   0 <= signed_area (map to_point (Geometry64.convex_hull points)) /\
   ((3 <= List.length (Geometry64.convex_hull points))%nat ->
    0 < signed_area (map to_point (Geometry64.convex_hull points))) /\
   (forall p q r, In p points -> In q points -> In r points ->
      ~ collinear (to_point p) (to_point q) (to_point r) ->
      (3 <= List.length (Geometry64.convex_hull points))%nat)) /\
  ((forall p, In p points -> small_whole_point p) ->
   forallb finite_point points = true /\ exact_turns points).
Proof.
  split; [exact (hull_vertices_are_input64 points)|].
  split; [|exact (whole_points_exact points)].
  intros Hf Hx. pose proof (convex_hull_real points Hf Hx) as E.
  assert (L : List.length (Geometry64.convex_hull points)
              = List.length (convex_hull (map to_point points)))
    by (rewrite <- E; now rewrite length_map).
  split; [|split; [|rewrite E, L; repeat split]].
  - rewrite E. intros p Hp. apply input_within_hull. now apply in_map.
  - intros p Hp Hlen. unfold Geometry64.pt_in_convex.
    destruct (List.length (Geometry64.convex_hull points) <? 3)%nat eqn:E3;
      [apply Nat.ltb_lt in E3; lia|].
    apply in_convex_loop_inside64; [now left|].
    intros u v Huv.
    assert (Hu : In u points).
    { apply hull_vertices_are_input64.
      unfold Geometry64.hull_edges in Huv.
      destruct (Geometry64.convex_hull points) as [|h hs]; [destruct Huv|].
      exact (in_combine_l _ _ _ _ Huv). }
    assert (Hv : In v points).
    { apply hull_vertices_are_input64.
      unfold Geometry64.hull_edges in Huv.
      destruct (Geometry64.convex_hull points) as [|h hs]; [destruct Huv|].
      apply in_combine_r in Huv. apply in_app_or in Huv.
      destruct Huv as [Huv|[<-|[]]]; [now right|now left]. }
    rewrite (Hx u p v Hu Hp Hv). apply Rleb_true.
    apply hull_edges_real in Huv. rewrite E in Huv.
    pose proof (input_inside_hull (map to_point points) (to_point p)
                  (in_map to_point _ _ Hp) _ _ Huv) as Hin.
    rewrite cross_swap. lra.
  - apply signed_area_nonneg.
  - apply signed_area_pos.
  - intros p q r Hp Hq Hr Hn.
    destruct (le_lt_dec 3 (List.length (convex_hull (map to_point points))))
      as [H|H]; [assumption|].
    exfalso. apply Hn.
    apply (small_hull_collinear (map to_point points)); try (now apply in_map). lia.
Qed.

Lemma C6_hull_of_exact_turns_witness :
  (forall p, In p square_points64 ->
     within_hull (map to_point (Geometry64.convex_hull square_points64))
                 (to_point p)) /\
  (forall p, In p square_points64 ->
     Geometry64.pt_in_convex p (Geometry64.convex_hull square_points64) = true) /\
  0 < signed_area (map to_point (Geometry64.convex_hull square_points64)).
Proof.
  destruct (C6_hull_of_exact_turns square_points64) as [_ [H W]].
  assert (Hw : forall p, In p square_points64 -> small_whole_point p).
  { intros p Hp. unfold square_points64 in Hp.
    assert (W0 : whole_number (whole 0) 0)
      by (apply whole_number_of_scaled; vm_compute; reflexivity).
    assert (W1 : whole_number (whole 1) 1)
      by (apply whole_number_of_scaled; vm_compute; reflexivity).
    assert (W2 : whole_number (whole 2) 2)
      by (apply whole_number_of_scaled; vm_compute; reflexivity).
    destruct Hp as [<-|[<-|[<-|[<-|[<-|[]]]]]];
      [exists 2%Z, 2%Z|exists 0%Z, 0%Z|exists 1%Z, 1%Z|exists 2%Z, 0%Z|exists 0%Z, 2%Z];
      cbn [fst snd]; refine (conj _ (conj _ (conj _ _))); try assumption; reflexivity. }
  destruct (W Hw) as [Hf Hx].
  assert (Hlen : (3 <= List.length (Geometry64.convex_hull square_points64))%nat)
    by (vm_compute; lia).
  destruct (H Hf Hx) as [Hin [Htest [_ [Hpos _]]]].
  split; [exact Hin|]. split; [|now apply Hpos].
  intros p Hp. now apply Htest.
Defined.

End Hull64Facts.
